(** * The projected-gradient Wasserstein attack: [ProjectedGradient]

    A shallow embedding of [src/projected_gradient.py].  The class
    [ProjectedGradient] drives an outer gradient-ascent loop over a
    coupling (transport plan) [pi]; after every ascent step the coupling
    is handed to a projection routine, and a handful of constraint
    checks is run on the result.

    The embedding keeps the shape of the Python code:
    - tensors are batches of rationals, with the operations [perturb]
      applies to them written out;
    - the mutable fields of [self] and the sequence of calls made to
      collaborators are threaded through a state-and-exception monad;
    - the local variable [num_iter] of [perturb] may be unbound, so it
      is an [option];
    - a second, store-level embedding keeps tensors behind references,
      to talk about in-place updates and aliasing;
    - the run is also written out in explicit terms, pass by pass, and
      the embedding of the code is shown to produce exactly that. *)

From Stdlib Require Import ZArith QArith Qminmax Qabs List String Bool Lia Lqa.
From stdpp Require Import base list.
Import ListNotations.

Set Default Proof Using "Type".

(** ** Tensors

    A tensor of shape [(batch, d1, d2, d3)] is kept as one list per
    batch element, holding the element's entries in row-major order.
    Every tensor operation of [perturb] is either element-wise, or a
    reduction over all of the dimensions 1, 2, 3, or a broadcast of a
    [(batch, 1, 1, 1)] tensor, so the inner dimensions never need to be
    told apart.  Floating-point numbers are idealised as rationals. *)

Module Tensor.
Local Open Scope Q_scope.

Abbreviation t := (list (list Q)).

(** [T.size(0)] *)
Definition batch_size (T : t) : nat := length T.

Definition total (row : list Q) : Q := fold_right Qplus 0 row.

(** [T.sum(dim=(1, 2, 3), keepdim=True)]: one number per batch element. *)
Definition sum_dims (T : t) : list Q := map total T.

(** [c * v] for a Python scalar [c] and a per-batch vector [v]. *)
Definition scale_vec (c : Q) (v : list Q) : list Q := map (Qmult c) v.

(** [c * T] *)
Definition scale (c : Q) (T : t) : t := map (map (Qmult c)) T.

(** [T + U], element-wise on tensors of one shape. *)
Definition add (T U : t) : t := zip_with (zip_with Qplus) T U.

(** [T / d] where [d] has shape [(batch, 1, 1, 1)].  Where an entry
    of [d] is 0 torch yields [inf] or [nan]; the quotient of rationals
    is 0 there, and nothing below rests on that value. *)
Definition div_batch (T : t) (d : list Q) : t :=
  zip_with (fun row q => map (fun v => v / q) row) T d.

(** [T.clamp(min=lo, max=hi)]; when [lo > hi] torch yields [hi]. *)
Definition clamp (lo hi : Q) (T : t) : t :=
  map (map (fun v => Qmin (Qmax v lo) hi)) T.

(** [v + c] on a per-batch vector. *)
Definition shift_vec (v : list Q) (c : Q) : list Q := map (fun q => q + c) v.

Definition linf (row : list Q) : Q :=
  fold_right (fun v acc => Qmax (Qabs v) acc) 0 row.
End Tensor.

Abbreviation tensor := Tensor.t.

(** Modelled from the spec: [utils.tensor_norm] with [p='inf'] is not
    part of this file; the spec calls it the "infinity-norm per batch
    element".  It is the largest absolute value of each batch element. *)
Definition tensor_norm (T : tensor) : list Q := map Tensor.linf T.

(** ** Configuration and instance state *)

Definition scores : Type := list (list Q).
Definition labels : Type := list Z.

(** The fields [__init__] stores and [perturb] only reads.  [nb_iter]
    is the number of passes of [for t in range(self.nb_iter)]. *)
Record config : Type := Config {
  eps : Q;
  kernel_size : Z;
  lr : Q;
  nb_iter : nat;
  dual_max_iter : Z;
  grad_tol : option Q;
  int_tol : option Q;
  clip_min : Q;
  clip_max : Q;
  clipping : bool;
  postprocess : bool;
  verbose : bool;
  capacity_proj_mod : Z;
  inf : Z
}.

(** The same configuration with the [clipping] flag set to [b]. *)
Definition set_clipping (b : bool) (c : config) : config :=
  Config (eps c) (kernel_size c) (lr c) (nb_iter c) (dual_max_iter c)
         (grad_tol c) (int_tol c) (clip_min c) (clip_max c)
         b (postprocess c) (verbose c) (capacity_proj_mod c) (inf c).

(** The fields of [self] that [perturb] updates. *)
Record attack : Type := Attack {
  lst_loss : list Q;
  lst_acc : list Z;
  run_time : Q;
  num_iter : Z;
  func_calls : Z
}.

(** What [initialize_cost] leaves in [self]: the cost matrix and the two
    index maps, all opaque to [perturb]. *)
Record geometry (cost_t idx_t : Type) : Type := Geometry {
  cost : cost_t;
  forward_idx : idx_t;
  backward_idx : idx_t
}.
Arguments Geometry {cost_t idx_t} _ _ _.
Arguments cost {cost_t idx_t} _.
Arguments forward_idx {cost_t idx_t} _.
Arguments backward_idx {cost_t idx_t} _.

(** ** Observable calls

    Every call [perturb] makes to a collaborator, and every line it
    prints, is recorded with the arguments it was given. *)

Inductive event : Type :=
| CallPredict (image : tensor)
| CallDualProjection (pi X : tensor) (budget : list Q) (reported : Z)
| CallCapacityProjection (pi X : tensor) (budget : list Q)
| CheckNonnegativity (pi : tensor) (tol : Q) (verb : bool) (ok : bool)
| CheckMarginal (pi X : tensor) (tol : Q) (verb : bool) (ok : bool)
| CheckTransportCost (pi : tensor) (tol : Q) (verb : bool) (ok : bool)
| CheckHypercube (image : tensor) (tol : option Q) (verb : bool) (ok : bool)
| PrintProgress (iters : Z) (loss : Q) (correct : Z) (dual_iter : Z) (elapsed : Q)
| PrintPostprocess.

Record world : Type := World {
  self : attack;
  trace : list event
}.

(** ** Exceptions and the monad *)

Inductive exn : Type :=
| UnboundLocalError (name : string)
| ZeroDivisionError
| ConfigurationError
| ConstraintViolation.

Inductive outcome (A : Type) : Type :=
| Return (a : A)
| Raise (e : exn).
Arguments Return {A} a.
Arguments Raise {A} e.

(** A computation over a state [W] that returns a value or raises; the
    state it leaves is kept in both cases, as the fields of [self] are
    when a Python call raises. *)
Definition ST (W A : Type) : Type := W -> outcome A * W.

Definition ret {W A} (a : A) : ST W A := fun w => (Return a, w).

Definition raise {W A} (e : exn) : ST W A := fun w => (Raise e, w).

Definition bind {W A B} (m : ST W A) (k : A -> ST W B) : ST W B :=
  fun w => match m w with
           | (Return a, w') => k a w'
           | (Raise e, w') => (Raise e, w')
           end.

Notation "x <- c ;; k" := (bind c (fun x => k))
  (at level 100, c at next level, right associativity).
Notation "c ;;; k" := (bind c (fun _ => k))
  (at level 100, right associativity).

(** [for t in ts: s = body(t, s)] *)
Fixpoint for_each {W S : Type} (ts : list nat) (body : nat -> S -> ST W S) (s : S)
  : ST W S :=
  match ts with
  | [] => ret s
  | t :: ts' => s' <- body t s ;; for_each ts' body s'
  end.

Definition M (A : Type) : Type := ST world A.

Definition emit (e : event) : M unit :=
  fun w => (Return tt, World (self w) (trace w ++ [e])).

Definition update (f : attack -> attack) : M unit :=
  fun w => (Return tt, World (f (self w)) (trace w)).

(** Field updates of [self]. *)
Definition record_loss (loss : Q) (correct : Z) (a : attack) : attack :=
  Attack (lst_loss a ++ [loss]) (lst_acc a ++ [correct])
         (run_time a) (num_iter a) (func_calls a).

Definition add_run_time (dt : Q) (a : attack) : attack :=
  Attack (lst_loss a) (lst_acc a) (run_time a + dt)%Q (num_iter a) (func_calls a).

Definition add_num_iter (n : Z) (a : attack) : attack :=
  Attack (lst_loss a) (lst_acc a) (run_time a) (num_iter a + n)%Z (func_calls a).

Definition incr_func_calls (a : attack) : attack :=
  Attack (lst_loss a) (lst_acc a) (run_time a) (num_iter a) (func_calls a + 1)%Z.

(** ** Counting correct predictions

    Line 71: [(scores.max(dim=1)[1] == y).sum().item()].  [max] along
    dimension 1 gives, for each batch element, the position of its
    largest score, the first one when several are largest; the
    comparison with [y] is element-wise and the sum counts the
    matches.  A batch element has at least one score (torch raises
    otherwise); an element without scores has no position and is
    counted as no match. *)

Fixpoint argmax_from (best : Q) (best_at next : nat) (row : list Q) : nat :=
  match row with
  | [] => best_at
  | v :: row' =>
      if Qle_bool v best then argmax_from best best_at (S next) row'
      else argmax_from v next (S next) row'
  end.

Definition argmax (row : list Q) : option nat :=
  match row with
  | [] => None
  | v :: row' => Some (argmax_from v 0 1 row')
  end.

Definition predicted (row : list Q) (label : Z) : bool :=
  match argmax row with
  | Some i => (Z.of_nat i =? label)%Z
  | None => false
  end.

Definition count_correct (sc : scores) (y : labels) : Z :=
  Z.of_nat (length (List.filter (fun p => predicted (fst p) (snd p)) (zip sc y))).

(** ** Collaborators

    Everything [perturb] calls and does not define: the model and the
    loss, autograd, the device clock, the methods inherited from
    [WassersteinAttack] and the two projections of [projection.py].
    They are taken as they come; [perturb] is embedded over any choice
    of them. *)

Record collaborators (cost_t idx_t : Type) : Type := Collaborators {
  (** [self.predict] *)
  predict : tensor -> scores;
  (** [self.loss_fn] *)
  loss_fn : scores -> labels -> Q;
  (** [pi.grad] after [loss.backward()], for the loss of the clamped
      decode of [pi]; arguments are [pi], [X] and [y]. *)
  backward : tensor -> tensor -> labels -> tensor;
  (** [start.elapsed_time(end)] in outer iteration [t] *)
  elapsed_time : nat -> Q;
  (** [self.initialize_cost(X, inf)] *)
  initialize_cost : tensor -> Z -> geometry cost_t idx_t;
  (** [self.initialize_coupling(X)] *)
  initialize_coupling : tensor -> tensor;
  (** [self.coupling2adversarial(pi, X)] *)
  coupling2adversarial : tensor -> tensor -> tensor;
  (** [projection.dual_projection], returning the coupling and the
      number of inner iterations it used *)
  dual_projection :
    tensor -> tensor -> cost_t -> list Q -> Z -> option Q -> option Q -> tensor * Z;
  (** [projection.dual_capacity_constrained_projection] *)
  dual_capacity_constrained_projection :
    tensor -> tensor -> cost_t -> list Q -> idx_t -> idx_t ->
    (tensor -> tensor -> tensor) -> tensor
}.
Arguments Collaborators {cost_t idx_t}.
Arguments predict {cost_t idx_t}.
Arguments loss_fn {cost_t idx_t}.
Arguments backward {cost_t idx_t}.
Arguments elapsed_time {cost_t idx_t}.
Arguments initialize_cost {cost_t idx_t}.
Arguments initialize_coupling {cost_t idx_t}.
Arguments coupling2adversarial {cost_t idx_t}.
Arguments dual_projection {cost_t idx_t}.
Arguments dual_capacity_constrained_projection {cost_t idx_t}.

(** What each constraint check finds: [true] when the constraint holds
    within the tolerance; and whether a violation found by the checks
    that follow the post-processing projection is fatal, which the
    spec leaves open. *)
Record verdicts : Type := Verdicts {
  nonnegativity_ok : tensor -> Q -> bool;
  marginal_ok : tensor -> tensor -> Q -> bool;
  transport_cost_ok : tensor -> Q -> bool;
  hypercube_ok : tensor -> option Q -> bool;
  strict_postprocess : bool
}.

(** The three places [perturb] runs the checks from: the loop (lines
    119-121), the final check (lines 127-130) and the post-processing
    (lines 145-149). *)
Inductive stage : Type := InLoop | FinalCheck | PostProcess.

(** Whether a violation is fatal.  The spec has a violation
    "non-fatal during the loop (diagnostic), but a hard failure at the
    final check"; it does not say which holds after the
    post-processing projection. *)
Definition fatal (V : verdicts) (s : stage) : bool :=
  match s with
  | InLoop => false
  | FinalCheck => true
  | PostProcess => strict_postprocess V
  end.

(** Modelled from the spec: [check_nonnegativity],
    [check_marginal_constraint] and [check_transport_cost] of the base
    class [WassersteinAttack], and [utils.check_hypercube], are not part
    of this file.  The spec has them as "explicit boolean evaluations
    with reported magnitudes", whose violations are "reported, not
    necessarily fatal, except at FinalCheck where violation is a hard
    failure signal": a check evaluates its constraint and reports the
    finding; it hands the finding back, unless the finding is a
    violation and the check is one of those where a violation is
    fatal, and then it raises.  The Python calls do not tell the check
    where it is called from; the modelled check is told, by [s]. *)
Definition conclude (V : verdicts) (s : stage) (ok : bool) : M bool :=
  if ok then ret true
  else if fatal V s then raise ConstraintViolation
  else ret false.

Definition check_nonnegativity (V : verdicts) (s : stage) (pi : tensor) (tol : Q)
    (verb : bool) : M bool :=
  let ok := nonnegativity_ok V pi tol in
  emit (CheckNonnegativity pi tol verb ok) ;;; conclude V s ok.

Definition check_marginal_constraint (V : verdicts) (s : stage) (pi X : tensor) (tol : Q)
    (verb : bool) : M bool :=
  let ok := marginal_ok V pi X tol in
  emit (CheckMarginal pi X tol verb ok) ;;; conclude V s ok.

Definition check_transport_cost (V : verdicts) (s : stage) (pi : tensor) (tol : Q)
    (verb : bool) : M bool :=
  let ok := transport_cost_ok V pi tol in
  emit (CheckTransportCost pi tol verb ok) ;;; conclude V s ok.

Definition check_hypercube (V : verdicts) (s : stage) (image : tensor) (tol : option Q)
    (verb : bool) : M bool :=
  let ok := hypercube_ok V image tol in
  emit (CheckHypercube image tol verb ok) ;;; conclude V s ok.

(** ** [ProjectedGradient.perturb]

    Division of a tensor by a zero entry does not raise in torch (it
    yields inf or nan) while [Qdiv] yields 0; nothing below depends on
    the value of a quotient whose divisor is zero. *)

Section Perturb.
Context {cost_t idx_t : Type}.
Variable E : collaborators cost_t idx_t.
Variable V : verdicts.
Variable cfg : config.

(** [self.eps * normalization.squeeze()] *)
Definition budget (normalization : list Q) : list Q :=
  Tensor.scale_vec (eps cfg) normalization.

Definition call_predict (image : tensor) : M scores :=
  emit (CallPredict image) ;;; ret (predict E image).

Definition call_dual_projection (pi X : tensor) (G : geometry cost_t idx_t)
    (normalization : list Q) : M (tensor * Z) :=
  let r := dual_projection E pi X (cost G) (budget normalization)
             (dual_max_iter cfg) (grad_tol cfg) (int_tol cfg) in
  emit (CallDualProjection pi X (budget normalization) (snd r)) ;;; ret r.

Definition call_capacity_projection (pi X : tensor) (G : geometry cost_t idx_t)
    (normalization : list Q) : M tensor :=
  emit (CallCapacityProjection pi X (budget normalization)) ;;;
  ret (dual_capacity_constrained_projection E pi X (cost G) (budget normalization)
         (forward_idx G) (backward_idx G) (coupling2adversarial E)).

(** Line 77: [pi.grad /= (tensor_norm(pi.grad, p='inf').view(batch_size, 1, 1, 1) + 1e-8)].
    Exact over the rationals: in [float32] a norm of 1 absorbs the
    added 1e-8 and the sum of line 78 is rounded, so the equations
    below say which operations are applied to which operands, not
    what the rounded results are. *)
Definition grad_divisor (grad : tensor) : list Q :=
  Tensor.shift_vec (tensor_norm grad) 0.00000001%Q.

Definition normalize_grad (grad : tensor) : tensor :=
  Tensor.div_batch grad (grad_divisor grad).

(** Line 78: [pi += self.lr * pi.grad] *)
Definition ascent (pi grad : tensor) : tensor :=
  Tensor.add pi (Tensor.scale (lr cfg) (normalize_grad grad)).

(** Lines 63-78: score the clamped decode, record loss and accuracy,
    take the ascent step. *)
Definition gradient_step (X : tensor) (y : labels) (pi : tensor)
  : M (tensor * Q * scores) :=
  let adv_example := coupling2adversarial E pi X in
  sc <- call_predict (Tensor.clamp (clip_min cfg) (clip_max cfg) adv_example) ;;
  let loss := loss_fn E sc y in
  let grad := backward E pi X y in
  update (record_loss loss (count_correct sc y)) ;;;
  ret (ascent pi grad, loss, sc).

(** Lines 85-102.  The local [num_iter] is assigned in both branches
    and left as it was when neither is taken; [%] raises on a zero
    modulus. *)
Definition project (t : nat) (X : tensor) (G : geometry cost_t idx_t)
    (normalization : list Q) (pi : tensor) (num_iter : option Z)
  : M (tensor * option Z) :=
  if (capacity_proj_mod cfg =? -1)%Z then
    r <- call_dual_projection pi X G normalization ;;
    ret (fst r, Some (snd r))
  else if (capacity_proj_mod cfg =? 0)%Z then
    raise ZeroDivisionError
  else if ((Z.of_nat t + 1) mod capacity_proj_mod cfg =? 0)%Z then
    pi' <- call_capacity_projection pi X G normalization ;;
    ret (pi', Some 3000%Z)
  else
    ret (pi, num_iter).

(** Lines 108-110: the counters of [self]. *)
Definition account (t : nat) (num_iter : option Z) : M Z :=
  update (add_run_time (elapsed_time E t)) ;;;
  match num_iter with
  | None => raise (UnboundLocalError "num_iter")
  | Some n => update (add_num_iter n) ;;; update incr_func_calls ;;; ret n
  end.

(** Lines 112-117: the progress line, every tenth iteration.  It
    divides by [batch_size] and by [num_iter], both Python numbers. *)
Definition report (t : nat) (batch_size : nat) (loss : Q) (correct : Z) (n : Z) : M unit :=
  if verbose cfg && ((Z.of_nat t + 1) mod 10 =? 0)%Z then
    if (batch_size =? 0)%nat || (n =? 0)%Z then raise ZeroDivisionError
    else emit (PrintProgress (Z.of_nat t + 1) loss correct n (elapsed_time E t))
  else ret tt.

(** The three checks on the normalized coupling. *)
Definition constraint_check (s : stage) (X : tensor) (normalization : list Q)
    (pi : tensor) (tol_nonneg tol_marginal tol_cost : Q) (verb : bool) : M unit :=
  check_nonnegativity V s (Tensor.div_batch pi normalization) tol_nonneg verb ;;;
  check_marginal_constraint V s (Tensor.div_batch pi normalization)
    (Tensor.div_batch X normalization) tol_marginal verb ;;;
  check_transport_cost V s (Tensor.div_batch pi normalization) tol_cost verb ;;;
  ret tt.

(** Lines 63-123: one pass of the loop body.  The pair carries the
    locals [pi] and [num_iter] from one pass to the next. *)
Definition iteration (X : tensor) (y : labels) (G : geometry cost_t idx_t)
    (normalization : list Q) (t : nat) (loc : tensor * option Z)
  : M (tensor * option Z) :=
  g <- gradient_step X y (fst loc) ;;
  p <- project t X G normalization (fst (fst g)) (snd loc) ;;
  n <- account t (snd p) ;;
  report t (Tensor.batch_size X) (snd (fst g)) (count_correct (snd g) y) n ;;;
  constraint_check InLoop X normalization (fst p)
    0.000001%Q 0.000001%Q 0.001%Q false ;;;
  ret (fst p, snd p).

(** Lines 59-123 *)
Definition attack_loop (X : tensor) (y : labels) (G : geometry cost_t idx_t)
    (normalization : list Q) : M (tensor * option Z) :=
  for_each (seq 0 (nb_iter cfg)) (iteration X y G normalization)
           (initialize_coupling E X, None).

(** Lines 126-130 *)
Definition final_check (X : tensor) (normalization : list Q) (pi : tensor) : M tensor :=
  let adv_example := coupling2adversarial E pi X in
  check_hypercube V FinalCheck adv_example None (verbose cfg) ;;;
  constraint_check FinalCheck X normalization pi
    0.00001%Q 0.00001%Q (eps cfg * 0.001)%Q (verbose cfg) ;;;
  ret adv_example.

(** Lines 132-149: returns the locals [pi] and [adv_example]. *)
Definition postprocess_step (X : tensor) (G : geometry cost_t idx_t)
    (normalization : list Q) (pi adv_example : tensor) : M (tensor * tensor) :=
  if postprocess cfg then
    (if verbose cfg then emit PrintPostprocess else ret tt) ;;;
    pi' <- call_capacity_projection pi X G normalization ;;
    let adv_example' := coupling2adversarial E pi' X in
    check_hypercube V PostProcess adv_example' (Some (eps cfg * 0.05)%Q) (verbose cfg) ;;;
    constraint_check PostProcess X normalization pi'
      0.000001%Q 0.000001%Q (eps cfg * 0.001)%Q (verbose cfg) ;;;
    ret (pi', adv_example')
  else ret (pi, adv_example).

(** Lines 151-154 *)
Definition output (adv_example : tensor) : tensor :=
  if clipping cfg then Tensor.clamp (clip_min cfg) (clip_max cfg) adv_example
  else adv_example.

Definition perturb (X : tensor) (y : labels) : M tensor :=
  let G := initialize_cost E X (inf cfg) in
  let normalization := Tensor.sum_dims X in
  loc <- attack_loop X y G normalization ;;
  adv_example <- final_check X normalization (fst loc) ;;
  r <- postprocess_step X G normalization (fst loc) adv_example ;;
  ret (output (snd r)).

End Perturb.


(** ** [ProjectedGradient.__init__] *)

(** Modelled from the spec: [WassersteinAttack.__init__], the
    constructor of the base class, is not part of this file.  The spec
    has a "malformed configuration (negative budget, non-positive
    kernel size) rejected at initialization" and the counters "reset at
    construction". *)
Definition WassersteinAttack_init (eps : Q) (kernel_size : Z) : outcome attack :=
  if negb (Qle_bool 0 eps) || (kernel_size <=? 0)%Z
  then Raise ConfigurationError
  else Return (Attack [] [] 0%Q 0%Z 0%Z).

(** Lines 22-53: the base-class constructor runs first, then the fields
    of the subclass are stored; [self.inf] is the constant 1000000. *)
Definition ProjectedGradient_init
    (eps : Q) (kernel_size : Z) (lr : Q) (nb_iter : nat) (dual_max_iter : Z)
    (grad_tol int_tol : option Q) (clip_min clip_max : Q)
    (clipping postprocess verbose : bool) (capacity_proj_mod : Z)
  : outcome (config * attack) :=
  match WassersteinAttack_init eps kernel_size with
  | Raise e => Raise e
  | Return a =>
      Return (Config eps kernel_size lr nb_iter dual_max_iter grad_tol int_tol
                clip_min clip_max clipping postprocess verbose capacity_proj_mod
                1000000,
              a)
  end.
(** ** The run in explicit terms

    What a call of [perturb] is expected to compute and record,
    written out with sums, quotients, minima and maxima of rationals
    and with the collaborators, independently of the tensor operations
    the embedding of the code uses.  The theorems compare the two. *)

(** The sum of a batch element over channels, height and width. *)
Definition total_mass (image : list Q) : Q := fold_right Qplus 0%Q image.

(** [T] with every entry of batch element [b] divided by the total
    mass of [X[b]]. *)
Definition normalized (X T : tensor) : tensor :=
  zip_with (fun row image => map (fun v => v / total_mass image)%Q row) T X.

(** [T] with every entry brought into [[lo, hi]]: raised to [lo] when
    below, then lowered to [hi] when above. *)
Definition clamped (lo hi : Q) (T : tensor) : tensor :=
  map (map (fun v => Qmin (Qmax v lo) hi)) T.

(** The largest absolute value of a batch element, 0 when it is empty. *)
Definition largest_abs (row : list Q) : Q :=
  fold_right (fun v m => Qmax (Qabs v) m) 0%Q row.

(** The coupling after the ascent step: every entry [p] of batch
    element [b] becomes [p + lr * g / (n + 1e-8)], where [g] is the
    entry of the gradient at the same place and [n] the largest
    absolute value of the gradient of [b]. *)
Definition stepped (lr : Q) (pi grad : tensor) : tensor :=
  zip_with
    (fun prow grow =>
       zip_with (fun p g => p + lr * (g / (largest_abs grow + 0.00000001)))%Q prow grow)
    pi grad.

(** The label is the position of the first largest score. *)
Definition hits (row : list Q) (label : Z) : bool :=
  (0 <=? label)%Z &&
  match row !! Z.to_nat label with
  | Some v =>
      forallb (fun u => Qle_bool u v) row &&
      forallb (fun u => negb (Qle_bool v u)) (take (Z.to_nat label) row)
  | None => false
  end.

(** [i] is the position of the first largest entry of [row]. *)
Definition first_largest (row : list Q) (i : nat) : Prop :=
  exists v, row !! i = Some v /\
            Forall (fun u => u <= v)%Q row /\ Forall (fun u => u < v)%Q (take i row).

(** The number of batch elements whose label is the position of the
    first largest score. *)
Definition correct_predictions (sc : scores) (y : labels) : Z :=
  Z.of_nat (length (List.filter (fun p => hits (fst p) (snd p)) (zip sc y))).

(** *** Reading a trace *)

(** What a check found; [true] for the other events. *)
Definition finding (e : event) : bool :=
  match e with
  | CheckNonnegativity _ _ _ ok | CheckMarginal _ _ _ _ ok
  | CheckTransportCost _ _ _ ok | CheckHypercube _ _ _ ok => ok
  | _ => true
  end.


(** The events up to the first violation found, that one included. *)
Fixpoint until_failure (evs : list event) : list event :=
  match evs with
  | [] => []
  | e :: evs' => e :: if finding e then until_failure evs' else []
  end.

(** What is recorded of the planned events [evs], and whether the run
    goes on after them, when a violation is fatal ([strict]) or not. *)
Definition recorded (strict : bool) (evs : list event) : list event :=
  if strict then until_failure evs else evs.

Definition accepted (strict : bool) (evs : list event) : bool :=
  negb strict || forallb finding evs.

(** The images given to [predict], in order. *)
Definition scored_images (tr : list event) : list tensor :=
  flat_map (fun e => match e with CallPredict image => [image] | _ => [] end) tr.

(** The couplings given to the two projections, in order. *)
Definition projection_inputs (tr : list event) : list tensor :=
  flat_map (fun e => match e with
                     | CallDualProjection pi _ _ _ | CallCapacityProjection pi _ _ => [pi]
                     | _ => []
                     end) tr.

(** The source images and the budgets given to the two projections,
    in order. *)
Definition projection_budgets (tr : list event) : list (tensor * list Q) :=
  flat_map (fun e => match e with
                     | CallDualProjection _ X b _ | CallCapacityProjection _ X b => [(X, b)]
                     | _ => []
                     end) tr.

(** The tensors given to the three checks of the coupling, in order:
    one for non-negativity, two for the marginal, one for the cost. *)
Definition check_subjects (tr : list event) : list tensor :=
  flat_map (fun e => match e with
                     | CheckNonnegativity T _ _ _ | CheckTransportCost T _ _ _ => [T]
                     | CheckMarginal T U _ _ _ => [T; U]
                     | _ => []
                     end) tr.

(** The images given to [check_hypercube] with their tolerances, in order. *)
Definition hypercube_checks (tr : list event) : list (tensor * option Q) :=
  flat_map (fun e => match e with
                     | CheckHypercube image tol _ _ => [(image, tol)]
                     | _ => []
                     end) tr.

(** The three checks on the coupling [pi] of a run on [X]. *)
Definition checks_on (V : verdicts) (X pi : tensor) (tol_nonneg tol_marginal tol_cost : Q)
    (verb : bool) : list event :=
  [CheckNonnegativity (normalized X pi) tol_nonneg verb
     (nonnegativity_ok V (normalized X pi) tol_nonneg);
   CheckMarginal (normalized X pi) (normalized X X) tol_marginal verb
     (marginal_ok V (normalized X pi) (normalized X X) tol_marginal);
   CheckTransportCost (normalized X pi) tol_cost verb
     (transport_cost_ok V (normalized X pi) tol_cost)].

Section Expected.
Context {cost_t idx_t : Type}.
Variable E : collaborators cost_t idx_t.
Variable cfg : config.
Variable X : tensor.
Variable y : labels.

(** One budget per batch element: [eps] times its total mass. *)
Definition mass_budget : list Q := map (fun image => eps cfg * total_mass image)%Q X.

(** Every pass of the loop runs a projection: the period is -1 or 1. *)
Definition steady : bool :=
  (capacity_proj_mod cfg =? -1)%Z || (capacity_proj_mod cfg =? 1)%Z.

(** What the projection of a pass returns for the coupling [pi] the
    pass starts from, and the call recorded. *)
Definition projected (pi : tensor) : tensor * Z :=
  let G := initialize_cost E X (inf cfg) in
  let moved := stepped (lr cfg) pi (backward E pi X y) in
  if (capacity_proj_mod cfg =? -1)%Z
  then dual_projection E moved X (cost G) mass_budget
         (dual_max_iter cfg) (grad_tol cfg) (int_tol cfg)
  else (dual_capacity_constrained_projection E moved X (cost G) mass_budget
          (forward_idx G) (backward_idx G) (coupling2adversarial E), 3000%Z).

Definition projection_call (pi : tensor) : event :=
  let moved := stepped (lr cfg) pi (backward E pi X y) in
  if (capacity_proj_mod cfg =? -1)%Z
  then CallDualProjection moved X mass_budget (snd (projected pi))
  else CallCapacityProjection moved X mass_budget.

(** The coupling pass [t] starts from. *)
Definition coupling_at (t : nat) : tensor :=
  Nat.iter t (fun pi => fst (projected pi)) (initialize_coupling E X).

(** The image pass [t] gives to [predict]. *)
Definition scored_at (t : nat) : tensor :=
  clamped (clip_min cfg) (clip_max cfg) (coupling2adversarial E (coupling_at t) X).

(** The progress line of pass [t]: due when [verbose] is on and
    [t + 1] is a multiple of ten; it divides by the batch size and by
    the reported count of inner iterations. *)
Definition line_due (t : nat) : bool :=
  verbose cfg && ((Z.of_nat t + 1) mod 10 =? 0)%Z.

Definition line_fails (t : nat) : bool :=
  line_due t && ((length X =? 0)%nat || (snd (projected (coupling_at t)) =? 0)%Z).

Definition progress_line (t : nat) : list event :=
  if line_due t
  then [PrintProgress (Z.of_nat t + 1)
          (loss_fn E (predict E (scored_at t)) y)
          (correct_predictions (predict E (scored_at t)) y)
          (snd (projected (coupling_at t))) (elapsed_time E t)]
  else [].

(** The passes that get to their checks: those before the first
    progress line that fails, when every pass projects; none
    otherwise. *)
Fixpoint passes_before_failure (n t : nat) : nat :=
  match n with
  | O => O
  | S n' => if line_fails t then O else S (passes_before_failure n' (S t))
  end.

Definition completed_passes : nat :=
  if steady then passes_before_failure (nb_iter cfg) 0 else 0%nat.

(** The loop ran all of its passes. *)
Definition loop_completed : bool := (completed_passes =? nb_iter cfg)%nat.

(** The passes that started. *)
Definition started_passes : nat :=
  if loop_completed then nb_iter cfg else S completed_passes.

(** The pass that did not get to its checks: what it recorded and
    what it raised. *)
Definition interrupted_pass : list event :=
  CallPredict (scored_at completed_passes)
  :: if steady then [projection_call (coupling_at completed_passes)] else [].

Definition interruption : exn :=
  if steady then ZeroDivisionError
  else if (capacity_proj_mod cfg =? 0)%Z then ZeroDivisionError
  else UnboundLocalError "num_iter".

(** The coupling that is decoded for the caller. *)
Definition last_coupling : tensor :=
  let G := initialize_cost E X (inf cfg) in
  if postprocess cfg
  then dual_capacity_constrained_projection E (coupling_at (nb_iter cfg)) X (cost G)
         mass_budget (forward_idx G) (backward_idx G) (coupling2adversarial E)
  else coupling_at (nb_iter cfg).

(** The image handed back. *)
Definition returned_image : tensor :=
  if clipping cfg
  then clamped (clip_min cfg) (clip_max cfg) (coupling2adversarial E last_coupling X)
  else coupling2adversarial E last_coupling X.

Variable V : verdicts.

(** The events of pass [t] when it gets to its checks. *)
Definition pass_at (t : nat) : list event :=
  [CallPredict (scored_at t); projection_call (coupling_at t)] ++
  progress_line t ++
  checks_on V X (coupling_at (S t)) 0.000001%Q 0.000001%Q 0.001%Q false.

(** The checks planned after the loop, and the post-processing. *)
Definition final_checks : list event :=
  CheckHypercube (coupling2adversarial E (coupling_at (nb_iter cfg)) X) None (verbose cfg)
    (hypercube_ok V (coupling2adversarial E (coupling_at (nb_iter cfg)) X) None)
  :: checks_on V X (coupling_at (nb_iter cfg))
       0.00001%Q 0.00001%Q (eps cfg * 0.001)%Q (verbose cfg).

Definition postprocess_pass : list event :=
  if postprocess cfg then
    (if verbose cfg then [PrintPostprocess] else []) ++
    CallCapacityProjection (coupling_at (nb_iter cfg)) X mass_budget
    :: CheckHypercube (coupling2adversarial E last_coupling X)
         (Some (eps cfg * 0.05)%Q) (verbose cfg)
         (hypercube_ok V (coupling2adversarial E last_coupling X)
            (Some (eps cfg * 0.05)%Q))
    :: checks_on V X last_coupling 0.000001%Q 0.000001%Q (eps cfg * 0.001)%Q (verbose cfg)
  else [].

(** No check after the loop stops the run. *)
Definition validated : bool :=
  forallb finding final_checks && accepted (strict_postprocess V) postprocess_pass.

(** What is recorded after a loop that ran all of its passes. *)
Definition closing : list event :=
  if forallb finding final_checks
  then final_checks ++ recorded (strict_postprocess V) postprocess_pass
  else until_failure final_checks.

(** The whole run: what it records and how it ends. *)
Definition expected_trace : list event :=
  flat_map pass_at (seq 0 completed_passes) ++
  (if loop_completed then closing else interrupted_pass).

Definition expected_outcome : outcome tensor :=
  if loop_completed
  then if validated then Return returned_image else Raise ConstraintViolation
  else Raise interruption.

End Expected.

(** ** Names for what a run leaves behind

    Shorthands used to state what [perturb] did: the image it scored,
    the fields it wrote, the events of a group of checks. *)

Section Shapes.
Context {cost_t idx_t : Type}.
Variable E : collaborators cost_t idx_t.
Variable V : verdicts.
Variable cfg : config.

(** The image [predict] is given in an iteration that starts from [pi]. *)
Definition scored_image (X pi : tensor) : tensor :=
  Tensor.clamp (clip_min cfg) (clip_max cfg) (coupling2adversarial E pi X).

(** [self] after lines 70-71. *)
Definition after_scoring (X : tensor) (y : labels) (pi : tensor) (a : attack) : attack :=
  record_loss (loss_fn E (predict E (scored_image X pi)) y)
              (count_correct (predict E (scored_image X pi)) y) a.

(** The events of the three checks run on [pi]. *)
Definition check_events (X : tensor) (nz : list Q) (pi : tensor)
    (tol_nonneg tol_marginal tol_cost : Q) (verb : bool) : list event :=
  [CheckNonnegativity (Tensor.div_batch pi nz) tol_nonneg verb
     (nonnegativity_ok V (Tensor.div_batch pi nz) tol_nonneg);
   CheckMarginal (Tensor.div_batch pi nz) (Tensor.div_batch X nz) tol_marginal verb
     (marginal_ok V (Tensor.div_batch pi nz) (Tensor.div_batch X nz) tol_marginal);
   CheckTransportCost (Tensor.div_batch pi nz) tol_cost verb
     (transport_cost_ok V (Tensor.div_batch pi nz) tol_cost)].

(** The events of lines 126-130, run on the coupling [pi]. *)
Definition final_events (X : tensor) (nz : list Q) (pi : tensor) : list event :=
  CheckHypercube (coupling2adversarial E pi X) None (verbose cfg)
    (hypercube_ok V (coupling2adversarial E pi X) None)
  :: check_events X nz pi 0.00001%Q 0.00001%Q (eps cfg * 0.001)%Q (verbose cfg).

(** The coupling the capacity-constrained projection makes of [pi]. *)
Definition capacity_projected (X : tensor) (G : geometry cost_t idx_t) (nz : list Q)
    (pi : tensor) : tensor :=
  dual_capacity_constrained_projection E pi X (cost G) (budget cfg nz)
    (forward_idx G) (backward_idx G) (coupling2adversarial E).

(** The coupling that is decoded for the caller. *)
Definition final_coupling (X : tensor) (G : geometry cost_t idx_t) (nz : list Q)
    (pi : tensor) : tensor :=
  if postprocess cfg then capacity_projected X G nz pi else pi.

(** The events of lines 132-149, run on the coupling [pi]. *)
Definition postprocess_events (X : tensor) (G : geometry cost_t idx_t) (nz : list Q)
    (pi : tensor) : list event :=
  if postprocess cfg then
    (if verbose cfg then [PrintPostprocess] else []) ++
    CallCapacityProjection pi X (budget cfg nz)
    :: CheckHypercube (coupling2adversarial E (capacity_projected X G nz pi) X)
         (Some (eps cfg * 0.05)%Q) (verbose cfg)
         (hypercube_ok V (coupling2adversarial E (capacity_projected X G nz pi) X)
            (Some (eps cfg * 0.05)%Q))
    :: check_events X nz (capacity_projected X G nz pi)
         0.000001%Q 0.000001%Q (eps cfg * 0.001)%Q (verbose cfg)
  else [].

(** What every recorded call of a run on the source image [X] looks
    like: what was scored, which image and budget a projection was
    handed, and what the checks were run on. *)
Definition event_shape (X : tensor) (e : event) : Prop :=
  match e with
  | CallPredict image => exists pi, image = scored_image X pi
  | CallDualProjection _ X' b _ => X' = X /\ b = mass_budget cfg X
  | CallCapacityProjection _ X' b => X' = X /\ b = mass_budget cfg X
  | CheckNonnegativity p _ _ _ => exists pi, p = normalized X pi
  | CheckMarginal p Xn _ _ _ => (exists pi, p = normalized X pi) /\ Xn = normalized X X
  | CheckTransportCost p _ _ _ => exists pi, p = normalized X pi
  | CheckHypercube image _ _ _ => exists pi, image = coupling2adversarial E pi X
  | PrintProgress _ _ _ _ _ => True
  | PrintPostprocess => True
  end.

End Shapes.

(** The inner iterations a recorded call adds to [self.num_iter]: what
    [dual_projection] reported, and 3000 for the capacity-constrained
    projection. *)
Definition inner_iterations (e : event) : Z :=
  match e with
  | CallDualProjection _ _ _ n => n
  | CallCapacityProjection _ _ _ => 3000
  | _ => 0
  end.

Definition accumulated (tr : list event) : Z :=
  fold_right (fun e acc => (inner_iterations e + acc)%Z) 0%Z tr.

Definition is_projection (e : event) : bool :=
  match e with
  | CallDualProjection _ _ _ _ | CallCapacityProjection _ _ _ => true
  | _ => false
  end.

(** A computation [emits P] when every event it records satisfies [P]. *)
Definition emits (P : event -> Prop) {A : Type} (m : M A) : Prop :=
  forall w, exists new, trace (snd (m w)) = trace w ++ new /\ Forall P new.

(** ** The same code over a store of tensors

    [perturb] updates tensors in place ([pi.grad /= ...], [pi += ...]),
    and Python variables are references: what a collaborator returns
    may be the very object it was given.  To talk about the effect of
    those updates on the caller's [X], this second embedding keeps
    every tensor object in a cell of a store and the variables of
    [perturb] as locations.

    Collaborators are arbitrary functions on the store.  The tensors
    torch itself creates ([clone], [clamp], [/], the gradient left in
    [pi.grad] by autograd) are new objects, so they get new cells. *)

Module Store.

Definition loc : Type := nat.
Abbreviation heap := (list tensor).

(** A collaborator called on the store: the store it leaves and its result. *)
Definition foreign (A : Type) : Type := heap -> heap * A.

Record state : Type := State {
  cells : heap;
  self : attack;
  (** what [X] held each time [perturb] read it or handed it to a collaborator *)
  seen : list (option tensor);
  (** the locations [perturb] updated in place *)
  written : list loc
}.

Record collaborators (cost_t idx_t : Type) : Type := Collaborators {
  predict : loc -> foreign scores;
  loss_fn : scores -> labels -> Q;
  (** the gradient autograd computes for [pi], given [pi], [X] and [y] *)
  backward : loc -> loc -> labels -> foreign tensor;
  elapsed_time : nat -> Q;
  initialize_cost : loc -> Z -> foreign (geometry cost_t idx_t);
  initialize_coupling : loc -> foreign loc;
  coupling2adversarial : loc -> loc -> foreign loc;
  dual_projection :
    loc -> loc -> cost_t -> list Q -> Z -> option Q -> option Q -> foreign (loc * Z);
  dual_capacity_constrained_projection :
    loc -> loc -> cost_t -> list Q -> idx_t -> idx_t -> foreign loc;
  check_nonnegativity : loc -> Q -> bool -> foreign bool;
  check_marginal_constraint : loc -> loc -> Q -> bool -> foreign bool;
  check_transport_cost : loc -> Q -> bool -> foreign bool;
  check_hypercube : loc -> option Q -> bool -> foreign bool;
  (** whether a violation found after the post-processing is fatal *)
  strict_postprocess : bool
}.
Arguments predict {cost_t idx_t}.
Arguments loss_fn {cost_t idx_t}.
Arguments backward {cost_t idx_t}.
Arguments elapsed_time {cost_t idx_t}.
Arguments initialize_cost {cost_t idx_t}.
Arguments initialize_coupling {cost_t idx_t}.
Arguments coupling2adversarial {cost_t idx_t}.
Arguments dual_projection {cost_t idx_t}.
Arguments dual_capacity_constrained_projection {cost_t idx_t}.
Arguments check_nonnegativity {cost_t idx_t}.
Arguments check_marginal_constraint {cost_t idx_t}.
Arguments check_transport_cost {cost_t idx_t}.
Arguments check_hypercube {cost_t idx_t}.
Arguments strict_postprocess {cost_t idx_t}.

(** A collaborator [keeps] a location when it leaves the tensor
    stored there as it found it. *)
Definition keeps (l : loc) {A : Type} (f : foreign A) : Prop :=
  forall (h : heap) (v : tensor), h !! l = Some v -> fst (f h) !! l = Some v.

(** No collaborator writes to the tensor at [l]. *)
Record respects {cost_t idx_t : Type} (l : loc) (F : collaborators cost_t idx_t)
  : Prop := Respects {
  keeps_predict : forall a, keeps l (predict F a);
  keeps_backward : forall a b c, keeps l (backward F a b c);
  keeps_initialize_cost : forall a b, keeps l (initialize_cost F a b);
  keeps_initialize_coupling : forall a, keeps l (initialize_coupling F a);
  keeps_coupling2adversarial : forall a b, keeps l (coupling2adversarial F a b);
  keeps_dual_projection :
    forall a b c d e f g, keeps l (dual_projection F a b c d e f g);
  keeps_capacity_projection :
    forall a b c d e f, keeps l (dual_capacity_constrained_projection F a b c d e f);
  keeps_check_nonnegativity : forall a b c, keeps l (check_nonnegativity F a b c);
  keeps_check_marginal : forall a b c d, keeps l (check_marginal_constraint F a b c d);
  keeps_check_transport_cost : forall a b c, keeps l (check_transport_cost F a b c);
  keeps_check_hypercube : forall a b c, keeps l (check_hypercube F a b c)
}.

Definition SM (A : Type) : Type := ST state A.

(** *** Operations on the store *)

Definition call {A} (f : foreign A) : SM A :=
  fun s => (Return (snd (f (cells s))),
            State (fst (f (cells s))) (self s) (seen s) (written s)).

(** The tensor at [l]; a variable of [perturb] never dangles, the
    empty tensor stands for a location outside the store. *)
Definition load (l : loc) : SM tensor :=
  fun s => (Return (default [] (cells s !! l)), s).

(** A new tensor object. *)
Definition alloc (v : tensor) : SM loc :=
  fun s => (Return (length (cells s)),
            State (cells s ++ [v]) (self s) (seen s) (written s)).

(** An in-place update of the object at [l]. *)
Definition store (l : loc) (v : tensor) : SM unit :=
  fun s => (Return tt,
            State (<[l := v]> (cells s)) (self s) (seen s) (written s ++ [l])).

(** [X] is about to be read, by [perturb] or by the collaborator it
    is handed to. *)
Definition observe (lX : loc) : SM unit :=
  fun s => (Return tt,
            State (cells s) (self s) (seen s ++ [cells s !! lX]) (written s)).

Definition update (f : attack -> attack) : SM unit :=
  fun s => (Return tt, State (cells s) (f (self s)) (seen s) (written s)).

(** A check, as [conclude] has it: the finding is handed back unless
    it is a violation and violations are fatal ([strict]). *)
Definition checked (strict : bool) (f : foreign bool) : SM bool :=
  ok <- call f ;;
  if ok then ret true
  else if strict then raise ConstraintViolation
  else ret false.

(** [l.clone().detach()] *)
Definition clone (l : loc) : SM loc :=
  v <- load l ;; alloc v.

Section Perturb.
Context {cost_t idx_t : Type}.
Variable F : collaborators cost_t idx_t.
Variable cfg : config.

(** Lines 63-78.  [pi.grad] is a tensor of its own; lines 77 and 78
    update [pi.grad] and [pi] in place. *)
Definition gradient_step (lX : loc) (y : labels) (pi : loc) : SM (Q * scores) :=
  observe lX ;;;
  adv_example <- call (coupling2adversarial F pi lX) ;;
  adv <- load adv_example ;;
  clamped <- alloc (Tensor.clamp (clip_min cfg) (clip_max cfg) adv) ;;
  sc <- call (predict F clamped) ;;
  let loss := loss_fn F sc y in
  observe lX ;;;
  g <- call (backward F pi lX y) ;;
  grad <- alloc g ;;
  update (record_loss loss (count_correct sc y)) ;;;
  g0 <- load grad ;;
  store grad (normalize_grad g0) ;;;
  p <- load pi ;;
  g1 <- load grad ;;
  store pi (Tensor.add p (Tensor.scale (lr cfg) g1)) ;;;
  ret (loss, sc).

(** Lines 85-102 *)
Definition project (t : nat) (lX : loc) (G : geometry cost_t idx_t)
    (normalization : list Q) (pi : loc) (num_iter : option Z)
  : SM (loc * option Z) :=
  if (capacity_proj_mod cfg =? -1)%Z then
    observe lX ;;;
    r <- call (dual_projection F pi lX (cost G) (budget cfg normalization)
                 (dual_max_iter cfg) (grad_tol cfg) (int_tol cfg)) ;;
    ret (fst r, Some (snd r))
  else if (capacity_proj_mod cfg =? 0)%Z then
    raise ZeroDivisionError
  else if ((Z.of_nat t + 1) mod capacity_proj_mod cfg =? 0)%Z then
    observe lX ;;;
    pi' <- call (dual_capacity_constrained_projection F pi lX (cost G)
                   (budget cfg normalization) (forward_idx G) (backward_idx G)) ;;
    ret (pi', Some 3000%Z)
  else
    ret (pi, num_iter).

(** Lines 108-110 *)
Definition account (t : nat) (num_iter : option Z) : SM Z :=
  update (add_run_time (elapsed_time F t)) ;;;
  match num_iter with
  | None => raise (UnboundLocalError "num_iter")
  | Some n => update (add_num_iter n) ;;; update incr_func_calls ;;; ret n
  end.

(** Lines 112-117 *)
Definition report (t : nat) (batch_size : nat) (n : Z) : SM unit :=
  if verbose cfg && ((Z.of_nat t + 1) mod 10 =? 0)%Z then
    if (batch_size =? 0)%nat || (n =? 0)%Z then raise ZeroDivisionError
    else ret tt
  else ret tt.

(** Whether a violation found at stage [s] is fatal. *)
Definition fatal_at (s : stage) : bool :=
  match s with
  | InLoop => false
  | FinalCheck => true
  | PostProcess => strict_postprocess F
  end.

(** The three checks; [pi / normalization] and [X / normalization]
    are new tensors. *)
Definition constraint_check (s : stage) (lX : loc) (normalization : list Q) (pi : loc)
    (tol_nonneg tol_marginal tol_cost : Q) (verb : bool) : SM unit :=
  p <- load pi ;;
  pn <- alloc (Tensor.div_batch p normalization) ;;
  checked (fatal_at s) (check_nonnegativity F pn tol_nonneg verb) ;;;
  p <- load pi ;;
  pn <- alloc (Tensor.div_batch p normalization) ;;
  observe lX ;;;
  x <- load lX ;;
  xn <- alloc (Tensor.div_batch x normalization) ;;
  checked (fatal_at s) (check_marginal_constraint F pn xn tol_marginal verb) ;;;
  p <- load pi ;;
  pn <- alloc (Tensor.div_batch p normalization) ;;
  checked (fatal_at s) (check_transport_cost F pn tol_cost verb) ;;;
  ret tt.

(** Lines 63-123; line 123 rebinds [pi] to a clone. *)
Definition iteration (lX : loc) (y : labels) (batch_size : nat)
    (G : geometry cost_t idx_t) (normalization : list Q)
    (t : nat) (vars : loc * option Z) : SM (loc * option Z) :=
  g <- gradient_step lX y (fst vars) ;;
  p <- project t lX G normalization (fst vars) (snd vars) ;;
  n <- account t (snd p) ;;
  report t batch_size n ;;;
  constraint_check InLoop lX normalization (fst p)
    0.000001%Q 0.000001%Q 0.001%Q false ;;;
  pi' <- clone (fst p) ;;
  ret (pi', snd p).

(** Lines 126-130 *)
Definition final_check (lX : loc) (normalization : list Q) (pi : loc) : SM loc :=
  observe lX ;;;
  adv_example <- call (coupling2adversarial F pi lX) ;;
  checked (fatal_at FinalCheck) (check_hypercube F adv_example None (verbose cfg)) ;;;
  constraint_check FinalCheck lX normalization pi
    0.00001%Q 0.00001%Q (eps cfg * 0.001)%Q (verbose cfg) ;;;
  ret adv_example.

(** Lines 132-149 *)
Definition postprocess_step (lX : loc) (G : geometry cost_t idx_t)
    (normalization : list Q) (pi adv_example : loc) : SM (loc * loc) :=
  if postprocess cfg then
    observe lX ;;;
    pi' <- call (dual_capacity_constrained_projection F pi lX (cost G)
                   (budget cfg normalization) (forward_idx G) (backward_idx G)) ;;
    observe lX ;;;
    adv_example' <- call (coupling2adversarial F pi' lX) ;;
    checked (fatal_at PostProcess)
      (check_hypercube F adv_example' (Some (eps cfg * 0.05)%Q) (verbose cfg)) ;;;
    constraint_check PostProcess lX normalization pi'
      0.000001%Q 0.000001%Q (eps cfg * 0.001)%Q (verbose cfg) ;;;
    ret (pi', adv_example')
  else ret (pi, adv_example).

(** Lines 151-154: [clamp] makes a new tensor. *)
Definition output (adv_example : loc) : SM loc :=
  if clipping cfg then
    adv <- load adv_example ;;
    alloc (Tensor.clamp (clip_min cfg) (clip_max cfg) adv)
  else ret adv_example.

(** [perturb(X, y)] with [X] at location [lX]; the result is the
    location of the returned image. *)
Definition perturb (lX : loc) (y : labels) : SM loc :=
  observe lX ;;;
  x <- load lX ;;
  let batch_size := Tensor.batch_size x in
  observe lX ;;;
  G <- call (initialize_cost F lX (inf cfg)) ;;
  observe lX ;;;
  p0 <- call (initialize_coupling F lX) ;;
  pi <- clone p0 ;;
  observe lX ;;;
  x <- load lX ;;
  let normalization := Tensor.sum_dims x in
  vars <- for_each (seq 0 (nb_iter cfg))
            (iteration lX y batch_size G normalization) (pi, None) ;;
  adv_example <- final_check lX normalization (fst vars) ;;
  r <- postprocess_step lX G normalization (fst vars) adv_example ;;
  output (snd r).

End Perturb.

(** *** Hoare triples for the store

    [triple P m Q R]: from a state in [P], [m] either returns [a] in
    a state in [Q a], or raises in a state in [R]. *)
Definition triple {A : Type} (P : state -> Prop) (m : SM A)
    (Q : A -> state -> Prop) (R : state -> Prop) : Prop :=
  forall s, P s ->
    match m s with
    | (Return a, s') => Q a s'
    | (Raise _, s') => R s'
    end.

(** The caller's tensor is intact: the cell of [lX] holds [x0], every
    observation of [X] so far saw [x0], and no in-place update went
    to [lX]. *)
Definition intact (lX : loc) (x0 : tensor) (s : state) : Prop :=
  cells s !! lX = Some x0 /\
  Forall (fun o => o = Some x0) (seen s) /\
  Forall (fun l => l <> lX) (written s).

(** A step that leaves [X] intact, whatever it returns or raises. *)
Definition harmless (lX : loc) (x0 : tensor) {A : Type} (m : SM A) : Prop :=
  triple (intact lX x0) m (fun _ => intact lX x0) (intact lX x0).

(** A step that leaves [X] intact and returns a location other than
    that of [X]. *)
Definition makes_new (lX : loc) (x0 : tensor) (m : SM loc) : Prop :=
  triple (intact lX x0) m (fun l s => l <> lX /\ intact lX x0 s) (intact lX x0).

End Store.

(** *** Pure collaborators as collaborators on the store

    The collaborators of the first embedding, acting on the store: each
    reads its arguments from their cells and puts the tensor it returns
    in a new cell. *)

Section Lift.
Context {cost_t idx_t : Type}.
Variable E : collaborators cost_t idx_t.
Variable V : verdicts.

Definition fetch (h : list tensor) (l : Store.loc) : tensor := default [] (h !! l).

Definition lift : Store.collaborators cost_t idx_t :=
  Store.Collaborators cost_t idx_t
    (fun l h => (h, predict E (fetch h l)))
    (loss_fn E)
    (fun pi lX y h => (h, backward E (fetch h pi) (fetch h lX) y))
    (elapsed_time E)
    (fun lX big h => (h, initialize_cost E (fetch h lX) big))
    (fun lX h => (h ++ [initialize_coupling E (fetch h lX)], length h))
    (fun pi lX h => (h ++ [coupling2adversarial E (fetch h pi) (fetch h lX)], length h))
    (fun pi lX c b k g i h =>
       let r := dual_projection E (fetch h pi) (fetch h lX) c b k g i in
       (h ++ [fst r], (length h, snd r)))
    (fun pi lX c b f bk h =>
       (h ++ [dual_capacity_constrained_projection E (fetch h pi) (fetch h lX) c b f bk
                (coupling2adversarial E)],
        length h))
    (fun p tol _ h => (h, nonnegativity_ok V (fetch h p) tol))
    (fun p xn tol _ h => (h, marginal_ok V (fetch h p) (fetch h xn) tol))
    (fun p tol _ h => (h, transport_cost_ok V (fetch h p) tol))
    (fun image tol _ h => (h, hypercube_ok V (fetch h image) tol))
    (strict_postprocess V).
End Lift.

(** *** Running a store-level computation

    [wp m s Q]: the outcome of [m] from [s], and the state it leaves,
    satisfy [Q]. *)
Definition wp {A : Type} (m : Store.SM A) (s : Store.state)
    (Q : outcome A -> Store.state -> Prop) : Prop :=
  Q (fst (m s)) (snd (m s)).

(** The state [s'] has the cells of [s] and one more, [l], holding [v]. *)
Definition grown (s s' : Store.state) (l : Store.loc) (v : tensor) : Prop :=
  Store.cells s' !! l = Some v /\
  forall l0 x, Store.cells s !! l0 = Some x -> Store.cells s' !! l0 = Some x /\ l0 <> l.

(** The result of a store-level run matches the value-level result [r]:
    the same fields in [self], and either both returned, with related
    values, or both raised the same exception. *)
Definition refines {A B : Type} (rel : A -> B -> Store.state -> Prop)
    (r : outcome A * world) (o : outcome B) (s' : Store.state) : Prop :=
  Store.self s' = self (snd r) /\
  match fst r, o with
  | Return a, Return b => rel a b s'
  | Raise e, Raise e' => e = e'
  | _, _ => False
  end.
(** ** A small instance

    Concrete collaborators on which the embedding can be run: the decode
    triples the coupling (so it leaves the unit interval), the gradient
    is the source image, the dual projection reports 7 inner
    iterations. *)

Module Demo.
Definition E : collaborators unit unit :=
  Collaborators
    (fun image => image)
    (fun _ _ => 1%Q)
    (fun _ X _ => X)
    (fun _ => 2%Q)
    (fun _ _ => Geometry tt tt tt)
    (fun X => X)
    (fun pi _ => Tensor.scale 3%Q pi)
    (fun pi _ _ _ _ _ _ => (pi, 7%Z))
    (fun pi _ _ _ _ _ _ => pi).

Definition V : verdicts :=
  Verdicts (fun _ _ => true) (fun _ _ _ => true) (fun _ _ => true) (fun _ _ => true) true.

(** A verdict record that finds every constraint violated. *)
Definition V_fail : verdicts :=
  Verdicts (fun _ _ => false) (fun _ _ _ => false) (fun _ _ => false) (fun _ _ => false)
           true.

Definition X : tensor := [[1; 0; 0.5]%Q].
Definition y : labels := [0%Z].

Definition cfg (iters : nat) (period : Z) (clip post : bool) : config :=
  Config 0.5%Q 3 0.1%Q iters 15 (Some 0.0001%Q) (Some 0.0001%Q)
         0%Q 1%Q clip post false period 1000000.

Definition fresh : world := World (Attack [] [] 0%Q 0 0) [].

(** The image a finished run handed back (empty if it raised). *)
Definition returned (r : outcome tensor * world) : tensor :=
  match fst r with
  | Return image => image
  | Raise _ => []
  end.

(** Collaborators on the store that hand back the objects they were
    given: the initial coupling and every projected coupling are [X]
    itself, the decode is the coupling itself. *)
Definition F : Store.collaborators unit unit :=
  Store.Collaborators unit unit
    (fun l h => (h, fetch h l))
    (fun _ _ => 1%Q)
    (fun _ lX _ h => (h, fetch h lX))
    (fun _ => 2%Q)
    (fun _ _ h => (h, Geometry tt tt tt))
    (fun lX h => (h, lX))
    (fun pi _ h => (h, pi))
    (fun _ lX _ _ _ _ _ h => (h, (lX, 7%Z)))
    (fun _ lX _ _ _ _ h => (h, lX))
    (fun _ _ _ h => (h, true))
    (fun _ _ _ _ h => (h, true))
    (fun _ _ _ h => (h, true))
    (fun _ _ _ h => (h, true))
    true.

(** A store holding [X] alone, at location 0. *)
Definition start : Store.state := Store.State [X] (Attack [] [] 0%Q 0 0) [] [].
End Demo.


(** ** Reading a trace *)

Definition is_predict (e : event) : bool :=
  match e with CallPredict _ => true | _ => false end.

Definition is_dual_projection (e : event) : bool :=
  match e with CallDualProjection _ _ _ _ => true | _ => false end.

Definition is_capacity_projection (e : event) : bool :=
  match e with CallCapacityProjection _ _ _ => true | _ => false end.

(** How many recorded events satisfy [p]. *)
Definition calls (p : event -> bool) (tr : list event) : nat :=
  length (List.filter p tr).

(** The iteration numbers of the progress lines printed, in order. *)
Definition progress_lines (tr : list event) : list Z :=
  flat_map (fun e => match e with PrintProgress iters _ _ _ _ => [iters] | _ => [] end) tr.

(** Every entry of a tensor lies in [[lo, hi]]. *)
Definition within (lo hi : Q) (T : tensor) : Prop :=
  Forall (Forall (fun v => lo <= v /\ v <= hi)%Q) T.

(** ** One round of the loop

    With period -1 or 1 every pass of the loop body does the same
    thing to the coupling: the ascent step, then the projection of the
    period. *)

Section Rounds.
Context {cost_t idx_t : Type}.
Variable E : collaborators cost_t idx_t.
Variable cfg : config.

(** The progress line is due in iteration [t]. *)
Definition prints (t : nat) : bool :=
  verbose cfg && ((Z.of_nat t + 1) mod 10 =? 0)%Z.

(** The progress line of iteration [t] divides by zero. *)
Definition report_fails (t : nat) (batch_size : nat) (n : Z) : bool :=
  prints t && ((batch_size =? 0)%nat || (n =? 0)%Z).

(** The coupling and the inner-iteration count one pass makes of [pi]. *)
Definition round (X : tensor) (y : labels) (G : geometry cost_t idx_t) (nz : list Q)
    (pi : tensor) : tensor * Z :=
  let stepped := ascent cfg pi (backward E pi X y) in
  if (capacity_proj_mod cfg =? -1)%Z
  then dual_projection E stepped X (cost G) (budget cfg nz)
         (dual_max_iter cfg) (grad_tol cfg) (int_tol cfg)
  else (capacity_projected E cfg X G nz stepped, 3000%Z).

(** The projection call one pass records. *)
Definition round_call (X : tensor) (y : labels) (G : geometry cost_t idx_t)
    (nz : list Q) (pi : tensor) : event :=
  let stepped := ascent cfg pi (backward E pi X y) in
  if (capacity_proj_mod cfg =? -1)%Z
  then CallDualProjection stepped X (budget cfg nz) (snd (round X y G nz pi))
  else CallCapacityProjection stepped X (budget cfg nz).

(** [self] after a pass from [pi] that got beyond line 110. *)
Definition counted (X : tensor) (y : labels) (G : geometry cost_t idx_t) (nz : list Q)
    (t : nat) (pi : tensor) (a : attack) : attack :=
  incr_func_calls
    (add_num_iter (snd (round X y G nz pi))
       (add_run_time (elapsed_time E t) (after_scoring E cfg X y pi a))).

(** The progress line of iteration [t], when it is due. *)
Definition progress_event (X : tensor) (y : labels) (G : geometry cost_t idx_t)
    (nz : list Q) (t : nat) (pi : tensor) : list event :=
  if prints t
  then [PrintProgress (Z.of_nat t + 1)
          (loss_fn E (predict E (scored_image E cfg X pi)) y)
          (count_correct (predict E (scored_image E cfg X pi)) y)
          (snd (round X y G nz pi)) (elapsed_time E t)]
  else [].

(** Everything a pass from [pi] records when it runs to its end. *)
Definition pass_events (V : verdicts) (X : tensor) (y : labels)
    (G : geometry cost_t idx_t) (nz : list Q) (t : nat) (pi : tensor) : list event :=
  [CallPredict (scored_image E cfg X pi); round_call X y G nz pi] ++
  progress_event X y G nz t pi ++
  check_events V X nz (fst (round X y G nz pi)) 0.000001%Q 0.000001%Q 0.001%Q false.

(** The loop over the iterations [ts] from the coupling [pi], when
    every pass runs to its end: the coupling it ends with, what it
    records, what it leaves in [self]; and whether every pass does run
    to its end, for a batch of [b] elements. *)
Fixpoint loop_coupling (X : tensor) (y : labels) (G : geometry cost_t idx_t)
    (nz : list Q) (ts : list nat) (pi : tensor) : tensor :=
  match ts with
  | [] => pi
  | _ :: ts' => loop_coupling X y G nz ts' (fst (round X y G nz pi))
  end.

Fixpoint loop_events (V : verdicts) (X : tensor) (y : labels)
    (G : geometry cost_t idx_t) (nz : list Q) (ts : list nat) (pi : tensor)
  : list event :=
  match ts with
  | [] => []
  | t :: ts' =>
      pass_events V X y G nz t pi ++
      loop_events V X y G nz ts' (fst (round X y G nz pi))
  end.

Fixpoint loop_self (X : tensor) (y : labels) (G : geometry cost_t idx_t)
    (nz : list Q) (ts : list nat) (pi : tensor) (a : attack) : attack :=
  match ts with
  | [] => a
  | t :: ts' =>
      loop_self X y G nz ts' (fst (round X y G nz pi)) (counted X y G nz t pi a)
  end.

Fixpoint loop_ok (X : tensor) (y : labels) (G : geometry cost_t idx_t)
    (nz : list Q) (b : nat) (ts : list nat) (pi : tensor) : bool :=
  match ts with
  | [] => true
  | t :: ts' =>
      negb (report_fails t b (snd (round X y G nz pi))) &&
      loop_ok X y G nz b ts' (fst (round X y G nz pi))
  end.

End Rounds.

(** The same collaborators with another device clock. *)
Definition with_clock {cost_t idx_t : Type} (clock : nat -> Q)
    (E : collaborators cost_t idx_t) : collaborators cost_t idx_t :=
  Collaborators (predict E) (loss_fn E) (backward E) clock
    (initialize_cost E) (initialize_coupling E) (coupling2adversarial E)
    (dual_projection E) (dual_capacity_constrained_projection E).

(** An event without the time it reports. *)
Definition forget_clock (e : event) : event :=
  match e with
  | PrintProgress iters loss correct n _ => PrintProgress iters loss correct n 0%Q
  | _ => e
  end.

(** The fields of [self] other than [run_time]. *)
Definition forget_run_time (a : attack) : attack :=
  Attack (lst_loss a) (lst_acc a) 0%Q (num_iter a) (func_calls a).

(** ** Relations between worlds

    [advances R m]: [m] takes every world to one related to it by [R].
    [related R m1 m2]: from worlds related by [R], [m1] and [m2] end
    the same way, in worlds related by [R]. *)

Definition advances (R : world -> world -> Prop) {A : Type} (m : M A) : Prop :=
  forall w, R w (snd (m w)).

Definition related (R : world -> world -> Prop) {A : Type} (m1 m2 : M A) : Prop :=
  forall w1 w2, R w1 w2 ->
    fst (m1 w1) = fst (m2 w2) /\ R (snd (m1 w1)) (snd (m2 w2)).


(** The two worlds differ at most in the times measured. *)
Definition same_but_clock (w1 w2 : world) : Prop :=
  forget_run_time (self w1) = forget_run_time (self w2) /\
  map forget_clock (trace w1) = map forget_clock (trace w2).

(** ** Tensors of the caller on the store *)

(** The cell [l] holds [v]. *)
Definition held (l : Store.loc) (v : tensor) (s : Store.state) : Prop :=
  Store.cells s !! l = Some v.

(** A step that leaves the tensor at [l] as it is, whatever it returns
    or raises. *)
Definition preserves (l : Store.loc) (v : tensor) {A : Type} (m : Store.SM A) : Prop :=
  Store.triple (held l v) m (fun _ => held l v) (held l v).

(** A step that leaves the tensor at [l] as it is and returns another
    location. *)
Definition allocates (l : Store.loc) (v : tensor) (m : Store.SM Store.loc) : Prop :=
  Store.triple (held l v) m (fun l' s => l' <> l /\ held l v s) (held l v).

(** ** The script

    Lines 157-214 run when the file is executed.  The options come
    from the command line; the script builds one attacker from them
    and hands it to [utils.test]. *)

Record options : Type := Options {
  opt_eps : Q;
  opt_kernel_size : Z;
  opt_lr : Q;
  opt_nb_iter : nat;
  opt_dual_max_iter : Z;
  opt_grad_tol : option Q;
  opt_int_tol : option Q;
  opt_postprocess : bool;
  opt_capacity_proj_mod : Z
}.

(** Lines 186-201: the attacker of the script; the clipping range, the
    [clipping] flag and the [verbose] flag are fixed. *)
Definition script_attacker (args : options) : outcome (config * attack) :=
  ProjectedGradient_init (opt_eps args) (opt_kernel_size args) (opt_lr args)
    (opt_nb_iter args) (opt_dual_max_iter args) (opt_grad_tol args) (opt_int_tol args)
    0%Q 1%Q false (opt_postprocess args) true (opt_capacity_proj_mod args).

(** A second small instance: [verbose] is on and the dual projection
    reports no inner iteration. *)
Module Sample.
Definition E : collaborators unit unit :=
  Collaborators
    (fun image => image)
    (fun _ _ => 1%Q)
    (fun _ X _ => X)
    (fun t => Z.of_nat t # 1)
    (fun _ _ => Geometry tt tt tt)
    (fun X => X)
    (fun pi _ => Tensor.scale 3%Q pi)
    (fun pi _ _ _ _ _ _ => (pi, 0%Z))
    (fun pi _ _ _ _ _ _ => pi).

Definition cfg (iters : nat) (period : Z) (verb : bool) : config :=
  Config 0.5%Q 3 0.1%Q iters 15 (Some 0.0001%Q) (Some 0.0001%Q)
         0%Q 1%Q false false verb period 1000000.
End Sample.
(** ** How the steps of one iteration run *)

Section Steps.
Context {cost_t idx_t : Type}.
Variable E : collaborators cost_t idx_t.
Variable V : verdicts.
Variable cfg : config.

Lemma gradient_step_run X y pi w :
  gradient_step E cfg X y pi w =
    (Return (ascent cfg pi (backward E pi X y),
             loss_fn E (predict E (scored_image E cfg X pi)) y,
             predict E (scored_image E cfg X pi)),
     World (after_scoring E cfg X y pi (self w)) (trace w ++ [CallPredict (scored_image E cfg X pi)])).
Proof. reflexivity. Qed.

Lemma project_dual t X G nz pi n w :
  capacity_proj_mod cfg = (-1)%Z ->
  project E cfg t X G nz pi n w =
    (let r := dual_projection E pi X (cost G) (budget cfg nz)
                (dual_max_iter cfg) (grad_tol cfg) (int_tol cfg) in
     (Return (fst r, Some (snd r)),
      World (self w) (trace w ++ [CallDualProjection pi X (budget cfg nz) (snd r)]))).
Proof. intros Hm. unfold project. rewrite Hm. reflexivity. Qed.

Lemma project_zero t X G nz pi n w :
  capacity_proj_mod cfg = 0%Z ->
  project E cfg t X G nz pi n w = (Raise ZeroDivisionError, w).
Proof. intros Hm. unfold project. rewrite Hm. reflexivity. Qed.

Lemma project_capacity t X G nz pi n w :
  capacity_proj_mod cfg <> (-1)%Z ->
  capacity_proj_mod cfg <> 0%Z ->
  ((Z.of_nat t + 1) mod capacity_proj_mod cfg = 0)%Z ->
  project E cfg t X G nz pi n w =
    (Return (dual_capacity_constrained_projection E pi X (cost G) (budget cfg nz)
               (forward_idx G) (backward_idx G) (coupling2adversarial E),
             Some 3000%Z),
     World (self w) (trace w ++ [CallCapacityProjection pi X (budget cfg nz)])).
Proof.
  intros Hm1 Hm0 Hmod. unfold project.
  destruct (Z.eqb_spec (capacity_proj_mod cfg) (-1)) as [|_]; [contradiction|].
  destruct (Z.eqb_spec (capacity_proj_mod cfg) 0) as [|_]; [contradiction|].
  rewrite Hmod. reflexivity.
Qed.

(** Neither branch taken: no projection is called, and the coupling
    and the local [num_iter] stay as they were. *)
Lemma project_skip t X G nz pi n w :
  capacity_proj_mod cfg <> (-1)%Z ->
  capacity_proj_mod cfg <> 0%Z ->
  ((Z.of_nat t + 1) mod capacity_proj_mod cfg <> 0)%Z ->
  project E cfg t X G nz pi n w = (Return (pi, n), w).
Proof.
  intros Hm1 Hm0 Hmod. unfold project.
  destruct (Z.eqb_spec (capacity_proj_mod cfg) (-1)) as [|_]; [contradiction|].
  destruct (Z.eqb_spec (capacity_proj_mod cfg) 0) as [|_]; [contradiction|].
  destruct (Z.eqb_spec ((Z.of_nat t + 1) mod capacity_proj_mod cfg) 0) as [|_];
    [contradiction|].
  reflexivity.
Qed.

Lemma account_bound t n w :
  account E t (Some n) w =
    (Return n,
     World (incr_func_calls (add_num_iter n (add_run_time (elapsed_time E t) (self w))))
           (trace w)).
Proof. reflexivity. Qed.

Lemma account_unbound t w :
  account E t None w =
    (Raise (UnboundLocalError "num_iter"),
     World (add_run_time (elapsed_time E t) (self w)) (trace w)).
Proof. reflexivity. Qed.

Lemma constraint_check_run s X nz pi tn tm tc verb w :
  constraint_check V s X nz pi tn tm tc verb w =
    (if accepted (fatal V s) (check_events V X nz pi tn tm tc verb)
     then Return tt else Raise ConstraintViolation,
     World (self w)
           (trace w ++ recorded (fatal V s) (check_events V X nz pi tn tm tc verb))).
Proof.
  unfold constraint_check, check_events, check_nonnegativity,
    check_marginal_constraint, check_transport_cost, conclude, recorded, accepted.
  cbv zeta. cbn [forallb finding until_failure].
  destruct (nonnegativity_ok V _ _), (marginal_ok V _ _ _), (transport_cost_ok V _ _),
    (fatal V s);
    unfold bind, emit, ret, raise; cbn; rewrite <- ?app_assoc; reflexivity.
Qed.

(** In the loop the three checks report and return. *)
Lemma constraint_check_loop X nz pi tn tm tc verb w :
  constraint_check V InLoop X nz pi tn tm tc verb w =
    (Return tt, World (self w) (trace w ++ check_events V X nz pi tn tm tc verb)).
Proof. rewrite constraint_check_run. reflexivity. Qed.

(** The progress line either prints once, or is skipped, or fails on a
    division; it never touches [self]. *)
Lemma report_run t b loss correct n w :
  report E cfg t b loss correct n w = (Raise ZeroDivisionError, w) \/
  report E cfg t b loss correct n w = (Return tt, w) \/
  report E cfg t b loss correct n w =
    (Return tt,
     World (self w)
           (trace w ++ [PrintProgress (Z.of_nat t + 1) loss correct n (elapsed_time E t)])).
Proof.
  unfold report.
  destruct (verbose cfg && _); [|right; left; destruct w; reflexivity].
  destruct (_ || _); [left; reflexivity | right; right; reflexivity].
Qed.

Lemma until_failure_all evs : forallb finding evs = true -> until_failure evs = evs.
Proof.
  induction evs as [|e evs IH]; [reflexivity|]. cbn [forallb until_failure].
  intros H. apply andb_true_iff in H. destruct H as [He Hevs].
  rewrite He, IH by exact Hevs. reflexivity.
Qed.

Lemma until_failure_app evs1 evs2 :
  until_failure (evs1 ++ evs2) =
    if forallb finding evs1 then evs1 ++ until_failure evs2 else until_failure evs1.
Proof.
  induction evs1 as [|e evs1 IH]; [reflexivity|].
  cbn [app until_failure forallb]. destruct (finding e); cbn [andb]; [|reflexivity].
  rewrite IH. destruct (forallb finding evs1); reflexivity.
Qed.

Lemma recorded_accepted strict evs : accepted strict evs = true -> recorded strict evs = evs.
Proof.
  unfold accepted, recorded. destruct strict; [|reflexivity].
  cbn [negb orb]. apply until_failure_all.
Qed.

Lemma final_check_run X nz pi w :
  final_check E V cfg X nz pi w =
    (if forallb finding (final_events E V cfg X nz pi)
     then Return (coupling2adversarial E pi X) else Raise ConstraintViolation,
     World (self w) (trace w ++ until_failure (final_events E V cfg X nz pi))).
Proof.
  unfold final_check, final_events, check_hypercube, constraint_check, check_events,
    check_nonnegativity, check_marginal_constraint, check_transport_cost, conclude.
  cbv zeta. cbn [forallb finding until_failure fatal].
  destruct (hypercube_ok V _ _), (nonnegativity_ok V _ _), (marginal_ok V _ _ _),
    (transport_cost_ok V _ _);
    unfold bind, emit, ret, raise; cbn; rewrite <- ?app_assoc; reflexivity.
Qed.

Lemma postprocess_step_run X G nz pi adv w :
  postprocess_step E V cfg X G nz pi adv w =
    (if accepted (strict_postprocess V) (postprocess_events E V cfg X G nz pi)
     then Return (final_coupling E cfg X G nz pi,
                  if postprocess cfg
                  then coupling2adversarial E (capacity_projected E cfg X G nz pi) X
                  else adv)
     else Raise ConstraintViolation,
     World (self w)
           (trace w ++ recorded (strict_postprocess V)
                         (postprocess_events E V cfg X G nz pi))).
Proof.
  unfold postprocess_step, final_coupling, postprocess_events.
  destruct (postprocess cfg).
  2:{ unfold accepted, recorded. cbn [forallb until_failure].
      rewrite orb_true_r. destruct (strict_postprocess V); rewrite app_nil_r;
        destruct w; reflexivity. }
  unfold call_capacity_projection, check_hypercube, capacity_projected,
    constraint_check, check_events, check_nonnegativity, check_marginal_constraint,
    check_transport_cost, conclude, accepted, recorded.
  cbv zeta. cbn [fatal].
  destruct (verbose cfg), (strict_postprocess V);
    cbn [app forallb finding until_failure andb negb orb];
    unfold bind, emit, ret, raise; cbn;
    repeat (match goal with
            | |- context [hypercube_ok ?v ?a ?b] => destruct (hypercube_ok v a b)
            | |- context [nonnegativity_ok ?v ?a ?b] => destruct (nonnegativity_ok v a b)
            | |- context [marginal_ok ?v ?a ?b ?c] => destruct (marginal_ok v a b c)
            | |- context [transport_cost_ok ?v ?a ?b] => destruct (transport_cost_ok v a b)
            end; cbn);
    rewrite <- ?app_assoc; reflexivity.
Qed.

(** [perturb] is the loop followed by the final checks, the optional
    post-processing and the decode; a violation found by the final
    checks, or by those of the post-processing when they are strict,
    ends the call. *)
Lemma perturb_run X y w :
  perturb E V cfg X y w =
    (let G := initialize_cost E X (inf cfg) in
     let nz := Tensor.sum_dims X in
     match attack_loop E V cfg X y G nz w with
     | (Raise e, w1) => (Raise e, w1)
     | (Return loc, w1) =>
         if forallb finding (final_events E V cfg X nz (fst loc))
         then
           (if accepted (strict_postprocess V)
                 (postprocess_events E V cfg X G nz (fst loc))
            then Return (output cfg
                           (coupling2adversarial E
                              (final_coupling E cfg X G nz (fst loc)) X))
            else Raise ConstraintViolation,
            World (self w1)
                  (trace w1 ++ final_events E V cfg X nz (fst loc)
                            ++ recorded (strict_postprocess V)
                                 (postprocess_events E V cfg X G nz (fst loc))))
         else
           (Raise ConstraintViolation,
            World (self w1)
                  (trace w1 ++ until_failure (final_events E V cfg X nz (fst loc))))
     end).
Proof.
  unfold perturb. cbv zeta. unfold bind at 1.
  destruct (attack_loop _ _ _ _ _ _ _ _) as [[loc|e] w1]; [|reflexivity].
  unfold bind at 1. rewrite final_check_run.
  destruct (forallb finding _) eqn:Hfinal; [|reflexivity].
  rewrite (until_failure_all _ Hfinal).
  unfold bind at 1. rewrite postprocess_step_run.
  destruct (accepted _ _); [|cbn [self trace]; rewrite <- app_assoc; reflexivity].
  unfold ret, final_coupling. cbn [fst snd self trace].
  rewrite <- app_assoc.
  destruct (postprocess cfg); reflexivity.
Qed.

(** A call that returns got through the loop and through every
    check that follows it. *)
Lemma perturb_returns X y w image w' :
  perturb E V cfg X y w = (Return image, w') ->
  let G := initialize_cost E X (inf cfg) in
  let nz := Tensor.sum_dims X in
  exists loc w1,
    attack_loop E V cfg X y G nz w = (Return loc, w1) /\
    forallb finding (final_events E V cfg X nz (fst loc)) = true /\
    accepted (strict_postprocess V) (postprocess_events E V cfg X G nz (fst loc)) = true /\
    image = output cfg (coupling2adversarial E (final_coupling E cfg X G nz (fst loc)) X) /\
    self w' = self w1 /\
    trace w' = trace w1 ++ final_events E V cfg X nz (fst loc)
                        ++ postprocess_events E V cfg X G nz (fst loc).
Proof.
  intros Hrun G nz. rewrite perturb_run in Hrun. cbv zeta in Hrun. fold G nz in Hrun.
  destruct (attack_loop E V cfg X y G nz w) as [[loc|e] w1]; [|discriminate].
  destruct (forallb finding _) eqn:Hfinal; [|discriminate].
  destruct (accepted _ _) eqn:Hpost; [|discriminate].
  injection Hrun as <- <-. exists loc, w1. cbn [self trace].
  rewrite (recorded_accepted _ _ Hpost). repeat split; solve [reflexivity | assumption].
Qed.

(** One is a multiple of the period only when the period is 1 or -1. *)
Lemma first_iteration_not_multiple :
  capacity_proj_mod cfg <> (-1)%Z ->
  capacity_proj_mod cfg <> 0%Z ->
  capacity_proj_mod cfg <> 1%Z ->
  ((Z.of_nat 0 + 1) mod capacity_proj_mod cfg <> 0)%Z.
Proof.
  intros Hm1 Hm0 Hp1 Hmod. simpl in Hmod.
  apply Z.mod_divide in Hmod; [|assumption].
  apply Z.divide_1_r in Hmod. destruct Hmod; contradiction.
Qed.

(** The first pass through the loop body when neither branch of the
    projection is taken. *)
Lemma iteration_first_unbound X y G nz pi w :
  capacity_proj_mod cfg <> (-1)%Z ->
  capacity_proj_mod cfg <> 0%Z ->
  capacity_proj_mod cfg <> 1%Z ->
  iteration E V cfg X y G nz 0 (pi, None) w =
    (Raise (UnboundLocalError "num_iter"),
     World (add_run_time (elapsed_time E 0) (after_scoring E cfg X y pi (self w)))
           (trace w ++ [CallPredict (scored_image E cfg X pi)])).
Proof.
  intros Hm1 Hm0 Hp1.
  unfold iteration, bind at 1. rewrite gradient_step_run. cbn [fst snd].
  unfold bind at 1.
  rewrite project_skip by auto using first_iteration_not_multiple.
  reflexivity.
Qed.

End Steps.

(** ** The tensor operations in explicit terms

    What the tensor operations of the embedding compute, entry by
    entry. *)

Lemma clamp_clamped lo hi T : Tensor.clamp lo hi T = clamped lo hi T.
Proof. reflexivity. Qed.

Lemma total_total_mass row : Tensor.total row = total_mass row.
Proof. reflexivity. Qed.

Lemma div_batch_normalized X T : Tensor.div_batch T (Tensor.sum_dims X) = normalized X T.
Proof.
  unfold Tensor.div_batch, Tensor.sum_dims, normalized.
  revert X. induction T as [|row T IH]; intros [|image X]; cbn [map zip_with];
    try reflexivity.
  rewrite IH, total_total_mass. reflexivity.
Qed.

Lemma linf_largest_abs row : Tensor.linf row = largest_abs row.
Proof. reflexivity. Qed.

Lemma add_scaled_row (lr d : Q) prow grow :
  zip_with Qplus prow (map (Qmult lr) (map (fun v => v / d)%Q grow)) =
  zip_with (fun p g => p + lr * (g / d))%Q prow grow.
Proof.
  revert grow. induction prow as [|p prow IH]; intros [|g grow]; cbn [map zip_with];
    try reflexivity.
  rewrite IH. reflexivity.
Qed.

Lemma normalize_grad_rows grad :
  normalize_grad grad =
  map (fun row => map (fun v => v / (largest_abs row + 0.00000001))%Q row) grad.
Proof.
  unfold normalize_grad, grad_divisor, Tensor.div_batch, Tensor.shift_vec, tensor_norm.
  induction grad as [|row grad IH]; [reflexivity|].
  cbn [map zip_with]. rewrite IH, linf_largest_abs. reflexivity.
Qed.

Lemma ascent_stepped cfg pi grad : ascent cfg pi grad = stepped (lr cfg) pi grad.
Proof.
  unfold ascent, Tensor.add, Tensor.scale, stepped. rewrite normalize_grad_rows.
  revert grad. induction pi as [|prow pi IH]; intros [|grow grad]; cbn [map zip_with];
    try reflexivity.
  rewrite IH, add_scaled_row. reflexivity.
Qed.

Lemma budget_mass cfg X : budget cfg (Tensor.sum_dims X) = mass_budget cfg X.
Proof.
  unfold budget, mass_budget, Tensor.scale_vec, Tensor.sum_dims.
  rewrite map_map. reflexivity.
Qed.

(** The count of line 71: the maximum of each row of scores is taken at
    the first place that holds the largest score. *)

Lemma forallb_le v row :
  forallb (fun u => Qle_bool u v) row = true <-> Forall (fun u => u <= v)%Q row.
Proof.
  rewrite forallb_forall, List.Forall_forall.
  split; intros H u Hu; apply Qle_bool_iff, H, Hu.
Qed.

Lemma forallb_lt v row :
  forallb (fun u => negb (Qle_bool v u)) row = true <-> Forall (fun u => u < v)%Q row.
Proof.
  rewrite forallb_forall, List.Forall_forall.
  split; intros H u Hu; specialize (H u Hu).
  - apply negb_true_iff in H. apply Qnot_le_lt. intros Hle.
    apply Qle_bool_iff in Hle. congruence.
  - apply negb_true_iff. destruct (Qle_bool v u) eqn:Hle; [|reflexivity].
    apply Qle_bool_iff in Hle. exfalso. exact (Qlt_not_le _ _ H Hle).
Qed.

Lemma argmax_from_first_largest rest : forall pre best best_at,
  pre !! best_at = Some best ->
  Forall (fun u => u <= best)%Q pre ->
  Forall (fun u => u < best)%Q (take best_at pre) ->
  first_largest (pre ++ rest) (argmax_from best best_at (length pre) rest).
Proof.
  induction rest as [|v rest IH]; intros pre best best_at Hat Hmax Hfirst;
    cbn [argmax_from].
  - rewrite app_nil_r. exists best. auto.
  - pose proof (lookup_lt_Some _ _ _ Hat) as Hlt.
    replace (pre ++ v :: rest) with ((pre ++ [v]) ++ rest)
      by (rewrite <- app_assoc; reflexivity).
    replace (S (length pre)) with (length (pre ++ [v]))
      by (rewrite length_app; cbn; lia).
    destruct (Qle_bool v best) eqn:Hle.
    + apply Qle_bool_iff in Hle. apply IH.
      * rewrite lookup_app_l by exact Hlt. exact Hat.
      * apply Forall_app. split; [exact Hmax | constructor; [exact Hle | constructor]].
      * rewrite take_app_le by lia. exact Hfirst.
    + assert (Hbest : (best < v)%Q).
      { apply Qnot_le_lt. intros H. apply Qle_bool_iff in H. congruence. }
      rewrite length_app. cbn [length]. rewrite Nat.add_1_r.
      replace (S (length pre)) with (length (pre ++ [v]))
        by (rewrite length_app; cbn; lia).
      apply IH.
      * rewrite lookup_app_r by lia. rewrite Nat.sub_diag. reflexivity.
      * apply Forall_app. split; [|constructor; [apply Qle_refl | constructor]].
        eapply Forall_impl; [exact Hmax|]. cbn. intros u Hu.
        apply Qlt_le_weak. eapply Qle_lt_trans; eassumption.
      * rewrite take_app_le by lia. rewrite take_ge by lia.
        eapply Forall_impl; [exact Hmax|]. cbn. intros u Hu.
        eapply Qle_lt_trans; eassumption.
Qed.

Lemma first_largest_unique row i j : first_largest row i -> first_largest row j -> i = j.
Proof.
  assert (Hlt : forall a b, first_largest row a -> first_largest row b -> ~ (a < b)%nat).
  { intros a b (va & Ha & Hamax & _) (vb & Hb & _ & Hbfirst) Hab.
    assert (Hin : take b row !! a = Some va) by (rewrite lookup_take_lt by exact Hab; exact Ha).
    pose proof (proj1 (Forall_lookup _ _) Hbfirst a va Hin) as H1. cbn in H1.
    pose proof (proj1 (Forall_lookup _ _) Hamax b vb Hb) as H2. cbn in H2.
    exact (Qlt_not_le _ _ H1 H2). }
  intros Hi Hj. pose proof (Hlt i j Hi Hj). pose proof (Hlt j i Hj Hi). lia.
Qed.

Lemma hits_first_largest row label :
  hits row label = true <-> (0 <= label)%Z /\ first_largest row (Z.to_nat label).
Proof.
  unfold hits, first_largest. rewrite andb_true_iff, Z.leb_le.
  destruct (row !! Z.to_nat label) as [v|].
  - rewrite andb_true_iff, forallb_le, forallb_lt. split.
    + intros (H0 & H1 & H2). split; [exact H0|]. exists v. auto.
    + intros (H0 & v' & [= <-] & H1 & H2). auto.
  - split; [intros [_ H]; discriminate | intros (_ & v & H & _); discriminate].
Qed.

Lemma predicted_hits row label : predicted row label = hits row label.
Proof.
  unfold predicted, argmax. destruct row as [|v row].
  { unfold hits. rewrite lookup_nil. apply eq_sym, andb_false_r. }
  pose proof (argmax_from_first_largest row [v] v 0 eq_refl
                ltac:(constructor; [apply Qle_refl | constructor])
                ltac:(constructor)) as Hfirst.
  cbn [length app] in Hfirst.
  set (i := argmax_from v 0 1 row) in *.
  destruct (Z.eqb_spec (Z.of_nat i) label) as [<-|Hne].
  - symmetry. apply hits_first_largest. rewrite Nat2Z.id. split; [lia | exact Hfirst].
  - symmetry. apply not_true_is_false. intros Hhits.
    apply hits_first_largest in Hhits. destruct Hhits as [H0 Hlabel].
    apply Hne. rewrite (first_largest_unique _ _ _ Hfirst Hlabel). lia.
Qed.

Lemma count_correct_predictions sc y : count_correct sc y = correct_predictions sc y.
Proof.
  unfold count_correct, correct_predictions. do 2 f_equal.
  apply List.filter_ext. intros p. apply predicted_hits.
Qed.

(** ** Reasoning rules for the monad *)

Section Emits.
Variable P : event -> Prop.

Lemma emits_ret {A} (a : A) : emits P (ret a).
Proof. intros w. exists []. rewrite app_nil_r. auto. Qed.

Lemma emits_raise {A} (e : exn) : emits P (@raise world A e).
Proof. intros w. exists []. rewrite app_nil_r. auto. Qed.

Lemma emits_update f : emits P (update f).
Proof. intros w. exists []. simpl. rewrite app_nil_r. auto. Qed.

Lemma emits_emit e : P e -> emits P (emit e).
Proof. intros He w. exists [e]. simpl. auto. Qed.

Lemma emits_bind {A B} (m : M A) (k : A -> M B) :
  emits P m -> (forall a, emits P (k a)) -> emits P (bind m k).
Proof.
  intros Hm Hk w. unfold bind.
  destruct (Hm w) as (new1 & Ht1 & HP1).
  destruct (m w) as [[a|e] w1]; simpl in *.
  - destruct (Hk a w1) as (new2 & Ht2 & HP2).
    exists (new1 ++ new2). rewrite Ht2, Ht1, app_assoc.
    split; [reflexivity | apply Forall_app; auto].
  - exists new1. auto.
Qed.

Lemma emits_for_each {S} (body : nat -> S -> M S) ts :
  (forall t s, emits P (body t s)) -> forall s, emits P (for_each ts body s).
Proof.
  intros Hbody. induction ts as [|t ts IH]; intros s; simpl.
  - apply emits_ret.
  - apply emits_bind; auto.
Qed.
End Emits.

(** ** What holds of every call a run records *)

Ltac emits_step :=
  first [ apply emits_ret | apply emits_raise | apply emits_update
        | apply emits_bind; [|intros ?] ].

Section Whole.
Context {cost_t idx_t : Type}.
Variable E : collaborators cost_t idx_t.
Variable cfg : config.

Section Shape.
Variable V : verdicts.
Variable X : tensor.
Let P := event_shape E cfg X.
Let nz := Tensor.sum_dims X.

Lemma gradient_step_shape y pi : emits P (gradient_step E cfg X y pi).
Proof.
  unfold gradient_step, call_predict. repeat emits_step.
  apply emits_emit. exists pi. reflexivity.
Qed.

Lemma dual_projection_shape pi G : emits P (call_dual_projection E cfg pi X G nz).
Proof.
  unfold call_dual_projection. repeat emits_step.
  apply emits_emit. split; [reflexivity | apply budget_mass].
Qed.

Lemma capacity_projection_shape pi G : emits P (call_capacity_projection E cfg pi X G nz).
Proof.
  unfold call_capacity_projection. repeat emits_step.
  apply emits_emit. split; [reflexivity | apply budget_mass].
Qed.

Lemma project_shape t G pi n : emits P (project E cfg t X G nz pi n).
Proof.
  unfold project.
  destruct (_ =? -1)%Z.
  { emits_step; [apply dual_projection_shape | emits_step]. }
  destruct (_ =? 0)%Z; [emits_step|].
  destruct (_ =? 0)%Z; [|emits_step].
  emits_step; [apply capacity_projection_shape | emits_step].
Qed.

Lemma account_shape t n : emits P (account E t n).
Proof. unfold account. destruct n; repeat emits_step. Qed.

Lemma report_shape t b loss correct n : emits P (report E cfg t b loss correct n).
Proof.
  unfold report. destruct (_ && _); [|emits_step].
  destruct (_ || _); [emits_step|]. apply emits_emit. exact I.
Qed.

Lemma conclude_shape s ok : emits P (conclude V s ok).
Proof. unfold conclude. destruct ok; [|destruct (fatal V s)]; emits_step. Qed.

Lemma constraint_check_shape s pi tn tm tc verb :
  emits P (constraint_check V s X nz pi tn tm tc verb).
Proof.
  unfold constraint_check, check_nonnegativity, check_marginal_constraint,
    check_transport_cost. unfold nz. rewrite !div_batch_normalized. cbv zeta.
  repeat (apply emits_bind; [apply emits_bind; [|intros ?; apply conclude_shape]|intros ?]);
    try apply emits_ret; apply emits_emit; simpl; eauto.
Qed.

Lemma iteration_shape y G t loc : emits P (iteration E V cfg X y G nz t loc).
Proof.
  unfold iteration.
  emits_step; [apply gradient_step_shape|].
  emits_step; [apply project_shape|].
  emits_step; [apply account_shape|].
  emits_step; [apply report_shape|].
  emits_step; [apply constraint_check_shape|].
  emits_step.
Qed.

Lemma final_check_shape pi : emits P (final_check E V cfg X nz pi).
Proof.
  unfold final_check, check_hypercube. cbv zeta.
  emits_step.
  { apply emits_bind; [|intros ?; apply conclude_shape]. apply emits_emit. simpl. eauto. }
  emits_step; [apply constraint_check_shape | emits_step].
Qed.

Lemma postprocess_step_shape G pi adv :
  emits P (postprocess_step E V cfg X G nz pi adv).
Proof.
  unfold postprocess_step, check_hypercube.
  destruct (postprocess cfg); [|emits_step].
  emits_step.
  { destruct (verbose cfg); [apply emits_emit; exact I | emits_step]. }
  emits_step; [apply capacity_projection_shape|]. cbv zeta.
  emits_step.
  { apply emits_bind; [|intros ?; apply conclude_shape]. apply emits_emit. simpl. eauto. }
  emits_step; [apply constraint_check_shape | emits_step].
Qed.

(** Every call recorded by [perturb] on [X] has the expected shape. *)
Lemma perturb_shape y : emits P (perturb E V cfg X y).
Proof.
  unfold perturb, attack_loop.
  emits_step.
  { apply emits_for_each. intros t s. apply iteration_shape. }
  emits_step; [apply final_check_shape|].
  emits_step; [apply postprocess_step_shape | emits_step].
Qed.
End Shape.

End Whole.

(** ** Iterations that complete *)

Section Completed.
Context {cost_t idx_t : Type}.
Variable E : collaborators cost_t idx_t.
Variable V : verdicts.
Variable cfg : config.

(** The three ways [project] can return. *)
Lemma project_returns t X G nz pi n w pi' n' w' :
  project E cfg t X G nz pi n w = (Return (pi', n'), w') ->
  self w' = self w /\
  ((capacity_proj_mod cfg = (-1)%Z /\
    (pi', n') = (let r := dual_projection E pi X (cost G) (budget cfg nz)
                            (dual_max_iter cfg) (grad_tol cfg) (int_tol cfg) in
                 (fst r, Some (snd r))) /\
    exists reported, n' = Some reported /\
      trace w' = trace w ++ [CallDualProjection pi X (budget cfg nz) reported]) \/
   (capacity_proj_mod cfg <> (-1)%Z /\ capacity_proj_mod cfg <> 0%Z /\
    ((Z.of_nat t + 1) mod capacity_proj_mod cfg = 0)%Z /\
    pi' = capacity_projected E cfg X G nz pi /\ n' = Some 3000%Z /\
    trace w' = trace w ++ [CallCapacityProjection pi X (budget cfg nz)]) \/
   (capacity_proj_mod cfg <> (-1)%Z /\ capacity_proj_mod cfg <> 0%Z /\
    ((Z.of_nat t + 1) mod capacity_proj_mod cfg <> 0)%Z /\
    pi' = pi /\ n' = n /\ trace w' = trace w)).
Proof.
  intros Hrun.
  destruct (Z.eq_dec (capacity_proj_mod cfg) (-1)%Z) as [Hm1|Hm1].
  { rewrite project_dual in Hrun by assumption. cbv zeta in Hrun.
    injection Hrun as <- <- <-. split; [reflexivity|]. left.
    split; [assumption|]. split; [reflexivity|]. eexists. split; reflexivity. }
  destruct (Z.eq_dec (capacity_proj_mod cfg) 0%Z) as [Hm0|Hm0].
  { rewrite project_zero in Hrun by assumption. discriminate. }
  destruct (Z.eq_dec ((Z.of_nat t + 1) mod capacity_proj_mod cfg)%Z 0%Z) as [Hmod|Hmod].
  - rewrite project_capacity in Hrun by assumption.
    injection Hrun as <- <- <-. split; [reflexivity|]. right; left.
    repeat split; assumption.
  - rewrite project_skip in Hrun by assumption.
    injection Hrun as <- <- <-. split; [reflexivity|]. right; right.
    repeat split; assumption.
Qed.

(** The anatomy of an iteration that runs to its end: the ascent
    step, a projection step that leaves [num_iter] bound, the
    counters, at most one progress line, and the three checks on the
    coupling carried to the next iteration. *)
Lemma iteration_returns X y G nz t loc w loc' w' :
  iteration E V cfg X y G nz t loc w = (Return loc', w') ->
  exists w2 n printed,
    project E cfg t X G nz (ascent cfg (fst loc) (backward E (fst loc) X y)) (snd loc)
      (World (after_scoring E cfg X y (fst loc) (self w))
             (trace w ++ [CallPredict (scored_image E cfg X (fst loc))]))
      = (Return (fst loc', Some n), w2) /\
    snd loc' = Some n /\
    self w' = incr_func_calls (add_num_iter n (add_run_time (elapsed_time E t) (self w2))) /\
    trace w' = trace w2 ++ printed ++
               check_events V X nz (fst loc') 0.000001%Q 0.000001%Q 0.001%Q false /\
    Forall (fun e => is_projection e = false) printed.
Proof.
  unfold iteration. unfold bind at 1. rewrite gradient_step_run. cbn [fst snd].
  unfold bind at 1.
  destruct (project _ _ _ _ _ _ _ _ _) as [[[pi' n']|e] w2] eqn:Hproj; [|discriminate].
  cbn [fst snd]. unfold bind at 1.
  destruct n' as [n|]; [|rewrite account_unbound; discriminate].
  rewrite account_bound. unfold bind at 1.
  match goal with |- context [report ?e ?c ?t ?b ?l ?k ?m ?w] =>
    destruct (report_run e c t b l k m w) as [Hr|[Hr|Hr]]; rewrite Hr; clear Hr
  end; [discriminate| |].
  - unfold bind. rewrite constraint_check_loop. unfold ret. cbn [fst snd self trace].
    intros Hrun. injection Hrun as <- <-.
    exists w2, n, []. cbn [fst snd self trace].
    repeat split; auto.
  - unfold bind. rewrite constraint_check_loop. unfold ret. cbn [fst snd self trace].
    intros Hrun. injection Hrun as <- <-.
    eexists w2, n, [_]. cbn [fst snd self trace].
    repeat split; [rewrite <- app_assoc; reflexivity|].
    constructor; [reflexivity | constructor].
Qed.

Lemma accumulated_app tr1 tr2 :
  accumulated (tr1 ++ tr2) = (accumulated tr1 + accumulated tr2)%Z.
Proof.
  unfold accumulated. induction tr1 as [|e tr1 IH]; simpl; [reflexivity|].
  rewrite IH. lia.
Qed.

Lemma accumulated_no_projection tr :
  Forall (fun e => is_projection e = false) tr -> accumulated tr = 0%Z.
Proof.
  induction 1 as [|e tr He _ IH]; [reflexivity|].
  unfold accumulated in *. simpl. rewrite IH.
  destruct e; simpl in *; try discriminate; reflexivity.
Qed.

Lemma accumulated_checks X nz pi tn tm tc verb :
  accumulated (check_events V X nz pi tn tm tc verb) = 0%Z.
Proof. reflexivity. Qed.

(** What one completed iteration does to the counters. *)
Lemma iteration_counters X y G nz t loc w loc' w' :
  iteration E V cfg X y G nz t loc w = (Return loc', w') ->
  exists n,
    snd loc' = Some n /\
    func_calls (self w') = (func_calls (self w) + 1)%Z /\
    num_iter (self w') = (num_iter (self w) + n)%Z /\
    (capacity_proj_mod cfg = (-1)%Z ->
       n = snd (dual_projection E (ascent cfg (fst loc) (backward E (fst loc) X y)) X
                  (cost G) (budget cfg nz) (dual_max_iter cfg) (grad_tol cfg)
                  (int_tol cfg))) /\
    (capacity_proj_mod cfg <> (-1)%Z ->
     ((Z.of_nat t + 1) mod capacity_proj_mod cfg = 0)%Z -> n = 3000%Z).
Proof.
  intros Hrun.
  destruct (iteration_returns _ _ _ _ _ _ _ _ _ Hrun)
    as (w2 & n & printed & Hproj & Hloc & Hself & _ & _).
  destruct (project_returns _ _ _ _ _ _ _ _ _ _ Hproj) as [Hs Hcases].
  exists n. rewrite Hself, Hs. cbn.
  repeat split; try assumption.
  - intros Hm.
    destruct Hcases as [(_ & Heq & _)|[(Hne & _)|(Hne & _)]]; try contradiction.
    cbv zeta in Heq. injection Heq as _ Heq. exact Heq.
  - intros Hne Hmod.
    destruct Hcases as [(Hm & _)|[(_ & _ & _ & _ & Heq & _)|(_ & _ & Hmod' & _)]];
      try contradiction.
    injection Heq as Heq. exact Heq.
Qed.

(** With period -1 or 1 every completed iteration runs a projection,
    and [num_iter] grows by what its recorded calls account for. *)
Lemma iteration_accumulates X y G nz t loc w loc' w' :
  capacity_proj_mod cfg = (-1)%Z \/ capacity_proj_mod cfg = 1%Z ->
  iteration E V cfg X y G nz t loc w = (Return loc', w') ->
  exists new,
    trace w' = trace w ++ new /\
    num_iter (self w') = (num_iter (self w) + accumulated new)%Z /\
    (capacity_proj_mod cfg = 1%Z ->
       num_iter (self w') = (num_iter (self w) + 3000)%Z).
Proof.
  intros Hperiod Hrun.
  destruct (iteration_returns _ _ _ _ _ _ _ _ _ Hrun)
    as (w2 & n & printed & Hproj & Hloc & Hself & Htrace & Hprinted).
  destruct (project_returns _ _ _ _ _ _ _ _ _ _ Hproj) as [Hs Hcases].
  cbn [self trace] in Hs, Hcases.
  destruct Hcases as [(Hm & _ & r & Hn & Ht2)
                     |[(Hm1 & Hm0 & Hmod & _ & Hn & Ht2)|(Hm1 & Hm0 & Hmod & _)]].
  - injection Hn as ->.
    eexists. split; [rewrite Htrace, Ht2, <- !app_assoc; reflexivity|].
    rewrite Hself, Hs. cbn.
    rewrite !accumulated_app, accumulated_checks,
      (accumulated_no_projection _ Hprinted).
    split; [cbn; lia | intros H1; rewrite H1 in Hm; discriminate].
  - injection Hn as ->.
    eexists. split; [rewrite Htrace, Ht2, <- !app_assoc; reflexivity|].
    rewrite Hself, Hs. cbn.
    rewrite !accumulated_app, accumulated_checks,
      (accumulated_no_projection _ Hprinted).
    split; [cbn; lia | reflexivity].
  - exfalso. destruct Hperiod as [H|H]; [contradiction|].
    rewrite H, Z.mod_1_r in Hmod. contradiction.
Qed.

Lemma loop_func_calls X y G nz ts : forall loc w loc' w',
  for_each ts (iteration E V cfg X y G nz) loc w = (Return loc', w') ->
  func_calls (self w') = (func_calls (self w) + Z.of_nat (length ts))%Z.
Proof.
  induction ts as [|t ts IH]; intros loc w loc' w' Hrun.
  - injection Hrun as _ <-. simpl. lia.
  - cbn [for_each] in Hrun. unfold bind in Hrun.
    destruct (iteration _ _ _ _ _ _ _ _ _ _) as [[loc1|e] w1] eqn:Hit; [|discriminate].
    destruct (iteration_counters _ _ _ _ _ _ _ _ _ Hit) as (n & _ & Hf & _).
    rewrite (IH _ _ _ _ Hrun), Hf. cbn [length]. lia.
Qed.

Lemma loop_accumulates X y G nz ts :
  capacity_proj_mod cfg = (-1)%Z \/ capacity_proj_mod cfg = 1%Z ->
  forall loc w loc' w',
  for_each ts (iteration E V cfg X y G nz) loc w = (Return loc', w') ->
  exists new,
    trace w' = trace w ++ new /\
    num_iter (self w') = (num_iter (self w) + accumulated new)%Z /\
    (capacity_proj_mod cfg = 1%Z ->
       num_iter (self w') = (num_iter (self w) + 3000 * Z.of_nat (length ts))%Z).
Proof.
  intros Hperiod.
  induction ts as [|t ts IH]; intros loc w loc' w' Hrun.
  - injection Hrun as _ <-. exists []. rewrite app_nil_r. cbn.
    repeat split; lia.
  - cbn [for_each] in Hrun. unfold bind in Hrun.
    destruct (iteration _ _ _ _ _ _ _ _ _ _) as [[loc1|e] w1] eqn:Hit; [|discriminate].
    destruct (iteration_accumulates _ _ _ _ _ _ _ _ _ Hperiod Hit)
      as (new1 & Ht1 & Hn1 & Hc1).
    destruct (IH _ _ _ _ Hrun) as (new2 & Ht2 & Hn2 & Hc2).
    exists (new1 ++ new2).
    split; [rewrite Ht2, Ht1, app_assoc; reflexivity|].
    split; [rewrite Hn2, Hn1, accumulated_app; lia|].
    intros H1. rewrite (Hc2 H1), (Hc1 H1). cbn [length]. lia.
Qed.

(** A loop of at least one iteration only completes with period -1 or 1. *)
Lemma loop_completes_period X y G nz w loc w' :
  (1 <= nb_iter cfg)%nat ->
  attack_loop E V cfg X y G nz w = (Return loc, w') ->
  capacity_proj_mod cfg = (-1)%Z \/ capacity_proj_mod cfg = 1%Z.
Proof.
  intros Hn Hrun. unfold attack_loop in Hrun.
  destruct (nb_iter cfg) as [|k]; [lia|].
  cbn [seq for_each] in Hrun. unfold bind in Hrun.
  destruct (Z.eq_dec (capacity_proj_mod cfg) (-1)%Z) as [|Hm1]; [left; assumption|].
  destruct (Z.eq_dec (capacity_proj_mod cfg) 1%Z) as [|Hp1]; [right; assumption|].
  exfalso.
  destruct (Z.eq_dec (capacity_proj_mod cfg) 0%Z) as [Hm0|Hm0].
  - unfold iteration, bind at 1 in Hrun. rewrite gradient_step_run in Hrun.
    unfold bind at 1 in Hrun. rewrite project_zero in Hrun by assumption.
    discriminate.
  - rewrite iteration_first_unbound in Hrun by assumption. discriminate.
Qed.

End Completed.

(** ** Which projection an iteration runs *)

(** C1: the spec has every iteration project the coupling, with
    [dual_projection] on the iterations that are not a multiple of the
    period.  With period 2 the first iteration ([t = 0]) takes neither
    branch: [project] hands the coupling back untouched and records no
    call, the local [num_iter] stays unbound, and [perturb] stops with
    an exception after a single [predict] call. *)
Theorem period_two_first_iteration_projects_nothing :
  let c := Demo.cfg 1 2 false false in
  let G := initialize_cost Demo.E Demo.X (inf c) in
  let nz := Tensor.sum_dims Demo.X in
  let stepped := ascent c (initialize_coupling Demo.E Demo.X)
                   (backward Demo.E (initialize_coupling Demo.E Demo.X) Demo.X Demo.y) in
  project Demo.E c 0 Demo.X G nz stepped None Demo.fresh
    = (Return (stepped, None), Demo.fresh) /\
  fst (perturb Demo.E Demo.V c Demo.X Demo.y Demo.fresh)
    = Raise (UnboundLocalError "num_iter") /\
  trace (snd (perturb Demo.E Demo.V c Demo.X Demo.y Demo.fresh))
    = [CallPredict (scored_image Demo.E c Demo.X (initialize_coupling Demo.E Demo.X))].
Proof. repeat split. Qed.

(** C2 (amended): with at least one iteration and a period other than
    -1, 0 and 1, the first iteration calls [predict], runs no
    projection, and [perturb] raises the unbound-local error for
    [num_iter] at line 109; [func_calls] and [num_iter] are not
    updated and no image is returned. *)
Theorem perturb_unbound_num_iter {cost_t idx_t : Type}
    (E : collaborators cost_t idx_t) (V : verdicts) (cfg : config)
    (X : tensor) (y : labels) (w : world) :
  (1 <= nb_iter cfg)%nat ->
  capacity_proj_mod cfg <> (-1)%Z ->
  capacity_proj_mod cfg <> 0%Z ->
  capacity_proj_mod cfg <> 1%Z ->
  perturb E V cfg X y w =
    (Raise (UnboundLocalError "num_iter"),
     World (add_run_time (elapsed_time E 0)
              (after_scoring E cfg X y (initialize_coupling E X) (self w)))
           (trace w ++ [CallPredict (scored_image E cfg X (initialize_coupling E X))])).
Proof.
  intros Hn Hm1 Hm0 Hp1.
  unfold perturb, attack_loop.
  destruct (nb_iter cfg) as [|n]; [lia|].
  cbn [seq for_each]. unfold bind.
  rewrite iteration_first_unbound by assumption.
  reflexivity.
Qed.

Lemma perturb_unbound_num_iter_witness :
  let c := Demo.cfg 3 2 false false in
  ((1 <= nb_iter c)%nat /\ capacity_proj_mod c <> (-1)%Z /\
   capacity_proj_mod c <> 0%Z /\ capacity_proj_mod c <> 1%Z) /\
  perturb Demo.E Demo.V c Demo.X Demo.y Demo.fresh =
    (Raise (UnboundLocalError "num_iter"),
     World (add_run_time (elapsed_time Demo.E 0)
              (after_scoring Demo.E c Demo.X Demo.y (initialize_coupling Demo.E Demo.X)
                 (self Demo.fresh)))
           (trace Demo.fresh ++
              [CallPredict (scored_image Demo.E c Demo.X (initialize_coupling Demo.E Demo.X))])).
Proof.
  intro c.
  assert (H1 : (1 <= nb_iter c)%nat) by (simpl; lia).
  assert (H2 : capacity_proj_mod c <> (-1)%Z) by discriminate.
  assert (H3 : capacity_proj_mod c <> 0%Z) by discriminate.
  assert (H4 : capacity_proj_mod c <> 1%Z) by discriminate.
  split; [repeat split; assumption|].
  exact (perturb_unbound_num_iter Demo.E Demo.V c Demo.X Demo.y Demo.fresh H1 H2 H3 H4).
Defined.

(** C2 as stated fails for period 0, which is neither -1 nor 1: the
    test [(t + 1) % 0] raises the division error before [num_iter] is
    ever read. *)
Lemma period_zero_raises_division_error :
  let c := Demo.cfg 1 0 false false in
  (1 <= nb_iter c)%nat /\
  capacity_proj_mod c <> (-1)%Z /\ capacity_proj_mod c <> 1%Z /\
  fst (perturb Demo.E Demo.V c Demo.X Demo.y Demo.fresh) = Raise ZeroDivisionError /\
  fst (perturb Demo.E Demo.V c Demo.X Demo.y Demo.fresh)
    <> Raise (UnboundLocalError "num_iter").
Proof.
  intro c. split; [simpl; lia|].
  split; [discriminate|]. split; [discriminate|].
  split; [reflexivity | discriminate].
Qed.

(** ** The counters of [self] *)

(** C8: in a call of [perturb] that returns, [func_calls] has grown by
    [nb_iter], one per iteration; [num_iter] has grown by the inner
    iterations of the projections the loop called, which is what
    [dual_projection] reported for each of its calls and the constant
    3000 for each call of the capacity-constrained projection; and each
    single iteration that completes adds one to [func_calls] and the
    count left in its local [num_iter] to the field [num_iter]. *)
Theorem perturb_counters {cost_t idx_t : Type}
    (E : collaborators cost_t idx_t) (V : verdicts) (cfg : config)
    (X : tensor) (y : labels) (w : world) (image : tensor) (w' : world) :
  perturb E V cfg X y w = (Return image, w') ->
  func_calls (self w') = (func_calls (self w) + Z.of_nat (nb_iter cfg))%Z /\
  (exists loc w1 new,
     attack_loop E V cfg X y (initialize_cost E X (inf cfg)) (Tensor.sum_dims X) w
       = (Return loc, w1) /\
     trace w1 = trace w ++ new /\
     num_iter (self w') = (num_iter (self w) + accumulated new)%Z) /\
  (capacity_proj_mod cfg <> (-1)%Z ->
     num_iter (self w') = (num_iter (self w) + 3000 * Z.of_nat (nb_iter cfg))%Z) /\
  (forall G nz t loc wa loc' wb,
     iteration E V cfg X y G nz t loc wa = (Return loc', wb) ->
     exists n,
       snd loc' = Some n /\
       func_calls (self wb) = (func_calls (self wa) + 1)%Z /\
       num_iter (self wb) = (num_iter (self wa) + n)%Z /\
       (capacity_proj_mod cfg = (-1)%Z ->
          n = snd (dual_projection E (ascent cfg (fst loc) (backward E (fst loc) X y)) X
                     (cost G) (budget cfg nz) (dual_max_iter cfg) (grad_tol cfg)
                     (int_tol cfg))) /\
       (capacity_proj_mod cfg <> (-1)%Z ->
        ((Z.of_nat t + 1) mod capacity_proj_mod cfg = 0)%Z -> n = 3000%Z)).
Proof.
  intros Hrun.
  destruct (perturb_returns E V cfg X y w image w' Hrun)
    as (loc & w1 & Hloop & _ & _ & _ & Hself & _).
  cbv zeta in Hloop. rewrite Hself. clear Hrun Hself.
  assert (Hcalls : func_calls (self w1)
                   = (func_calls (self w) + Z.of_nat (nb_iter cfg))%Z).
  { unfold attack_loop in Hloop.
    rewrite (loop_func_calls _ _ _ _ _ _ _ _ _ _ _ _ Hloop), length_seq. reflexivity. }
  split; [exact Hcalls|].
  destruct (Nat.eq_dec (nb_iter cfg) 0) as [Hz|Hz].
  - pose proof Hloop as Hloop0. unfold attack_loop in Hloop0.
    rewrite Hz in Hloop0. injection Hloop0 as _ <-.
    split; [|split].
    + exists loc, w, []. rewrite app_nil_r. cbn.
      repeat split; first [exact Hloop | lia].
    + intros _. rewrite Hz. cbn. lia.
    + intros. eapply iteration_counters; eassumption.
  - assert (Hperiod : capacity_proj_mod cfg = (-1)%Z \/ capacity_proj_mod cfg = 1%Z).
    { eapply loop_completes_period; [|exact Hloop]. lia. }
    pose proof Hloop as Hloop1. unfold attack_loop in Hloop1.
    destruct (loop_accumulates _ _ _ _ _ _ _ _ Hperiod _ _ _ _ Hloop1)
      as (new & Ht & Hn & Hc).
    rewrite length_seq in Hc.
    split; [|split].
    + exists loc, w1, new. auto.
    + intros Hne. apply Hc. destruct Hperiod; [contradiction | assumption].
    + intros. eapply iteration_counters; eassumption.
Qed.

Lemma perturb_counters_witness :
  let c := Demo.cfg 2 1 false true in
  let r := perturb Demo.E Demo.V c Demo.X Demo.y Demo.fresh in
  r = (Return (Demo.returned r), snd r) /\
  func_calls (self (snd r)) = (func_calls (self Demo.fresh) + Z.of_nat (nb_iter c))%Z /\
  num_iter (self (snd r)) = (num_iter (self Demo.fresh) + 3000 * Z.of_nat (nb_iter c))%Z.
Proof.
  intros c r.
  assert (Hrun : r = (Return (Demo.returned r), snd r)) by (vm_compute; reflexivity).
  split; [exact Hrun|].
  destruct (perturb_counters Demo.E Demo.V c Demo.X Demo.y Demo.fresh
              (Demo.returned r) (snd r) Hrun) as (Hcalls & _ & Hcap & _).
  split; [exact Hcalls | apply Hcap; discriminate].
Defined.

(** ** The largest absolute value *)

Lemma linf_nonneg row : (0 <= Tensor.linf row)%Q.
Proof.
  induction row as [|v row IH]; simpl.
  - apply Qle_refl.
  - eapply Qle_trans; [exact IH | apply Q.le_max_r].
Qed.

Lemma linf_zero row : Forall (fun v => v == 0)%Q row -> (Tensor.linf row == 0)%Q.
Proof.
  induction 1 as [|v row Hv _ IH]; simpl; [reflexivity|].
  rewrite IH, Hv. reflexivity.
Qed.

Lemma grad_divisor_positive grad : Forall (fun d => 0 < d)%Q (grad_divisor grad).
Proof.
  unfold grad_divisor, Tensor.shift_vec, tensor_norm.
  apply Forall_map, Forall_map. apply Forall_forall. intros row _. simpl.
  pose proof (linf_nonneg row). lra.
Qed.

(** ** The caller's image is never written *)

Module StoreFacts.
Import Store.

Section Rules.
Context {A B : Type}.

Lemma triple_ret (P : state -> Prop) (a : A) (Q : A -> state -> Prop) R :
  (forall s, P s -> Q a s) -> triple P (ret a) Q R.
Proof. intros H s Hs. simpl. auto. Qed.

Lemma triple_raise (P : state -> Prop) e (Q : A -> state -> Prop) (R : state -> Prop) :
  (forall s, P s -> R s) -> triple P (raise e) Q R.
Proof. intros H s Hs. simpl. auto. Qed.

Lemma triple_bind (P : state -> Prop) (m : SM A) (k : A -> SM B)
    (Q : A -> state -> Prop) (Q' : B -> state -> Prop) R :
  triple P m Q R -> (forall a, triple (Q a) (k a) Q' R) -> triple P (bind m k) Q' R.
Proof.
  intros Hm Hk s Hs. unfold bind. specialize (Hm s Hs).
  destruct (m s) as [[a|e] s1]; [|exact Hm].
  apply Hk, Hm.
Qed.

Lemma triple_weaken (P P' : state -> Prop) (m : SM A) (Q Q' : A -> state -> Prop) R :
  triple P' m Q' R -> (forall s, P s -> P' s) -> (forall a s, Q' a s -> Q a s) ->
  triple P m Q R.
Proof.
  intros Hm HP HQ s Hs. specialize (Hm s (HP s Hs)).
  destruct (m s) as [[a|e] s1]; auto.
Qed.

(** A fact about the variables, carried in the precondition. *)
Lemma triple_pure (fact : Prop) (P : state -> Prop) (m : SM A) Q R :
  (fact -> triple P m Q R) -> triple (fun s => fact /\ P s) m Q R.
Proof. intros H s [Hf Hs]. exact (H Hf s Hs). Qed.
End Rules.

Lemma triple_for_each {S : Type} (Inv : S -> state -> Prop) R
    (body : nat -> S -> SM S) ts :
  (forall t v, triple (Inv v) (body t v) Inv R) ->
  forall v, triple (Inv v) (for_each ts body v) Inv R.
Proof.
  intros Hbody. induction ts as [|t ts IH]; intros v; simpl.
  - apply triple_ret. auto.
  - eapply triple_bind; [apply Hbody | exact IH].
Qed.

Section Intact.
Variable lX : loc.
Variable x0 : tensor.

Local Abbreviation harmless := (Store.harmless lX x0).
Local Abbreviation makes_new := (Store.makes_new lX x0).

Lemma harmless_bind {A B} (m : SM A) (k : A -> SM B) :
  harmless m -> (forall a, harmless (k a)) -> harmless (bind m k).
Proof. intros Hm Hk. eapply triple_bind; [exact Hm | exact Hk]. Qed.

Lemma harmless_bind_new {B} (m : SM loc) (k : loc -> SM B) :
  makes_new m -> (forall l, l <> lX -> harmless (k l)) -> harmless (bind m k).
Proof.
  intros Hm Hk. eapply triple_bind; [exact Hm|].
  intros l. apply triple_pure. apply Hk.
Qed.

Lemma harmless_ret {A} (a : A) : harmless (ret a).
Proof. apply triple_ret. auto. Qed.

Lemma harmless_raise {A} e : harmless (@raise state A e).
Proof. apply triple_raise. auto. Qed.

Lemma harmless_call {A} (f : foreign A) : keeps lX f -> harmless (call f).
Proof.
  intros Hf s (Hcell & Hseen & Hwritten). unfold call.
  split; [apply Hf, Hcell | split; assumption].
Qed.

Lemma harmless_checked strict (f : foreign bool) :
  keeps lX f -> harmless (checked strict f).
Proof.
  intros Hf. unfold checked.
  apply harmless_bind; [apply harmless_call, Hf|].
  intros ok. destruct ok; [apply harmless_ret|].
  destruct strict; [apply harmless_raise | apply harmless_ret].
Qed.

Lemma harmless_load l : harmless (load l).
Proof. intros s Hs. exact Hs. Qed.

Lemma harmless_update f : harmless (update f).
Proof. intros s Hs. exact Hs. Qed.

Lemma harmless_observe : harmless (observe lX).
Proof.
  intros s (Hcell & Hseen & Hwritten). unfold observe.
  split; [exact Hcell | split; [|exact Hwritten]].
  apply Forall_app. split; [exact Hseen|]. constructor; [exact Hcell | constructor].
Qed.

(** A new cell lies past every cell in use, that of [X] included. *)
Lemma makes_new_alloc v : makes_new (alloc v).
Proof.
  intros s (Hcell & Hseen & Hwritten). unfold alloc.
  pose proof (lookup_lt_Some _ _ _ Hcell) as Hlt.
  split; [lia|]. split; [|split; assumption].
  cbn [cells]. rewrite lookup_app_l by exact Hlt. exact Hcell.
Qed.

Lemma makes_new_clone l : makes_new (clone l).
Proof.
  unfold clone. eapply triple_bind; [apply harmless_load|].
  intros v. apply makes_new_alloc.
Qed.

(** An in-place update anywhere but at [lX]. *)
Lemma harmless_store l v : l <> lX -> harmless (store l v).
Proof.
  intros Hne s (Hcell & Hseen & Hwritten). unfold store.
  split; [|split; [exact Hseen|]].
  - cbn [cells]. rewrite list_lookup_insert_ne by exact Hne. exact Hcell.
  - apply Forall_app. split; [exact Hwritten|]. constructor; [exact Hne | constructor].
Qed.

Lemma harmless_of_new (m : SM loc) : makes_new m -> harmless m.
Proof.
  intros Hm. eapply triple_weaken; [exact Hm | auto |].
  intros l s [_ Hs]. exact Hs.
Qed.

(** *** The steps of [perturb] *)

Context {cost_t idx_t : Type}.
Variable F : collaborators cost_t idx_t.
Variable cfg : config.
Hypothesis HF : respects lX F.

Ltac harmless_step :=
  lazymatch goal with
  | |- Store.harmless _ _ (bind (alloc _) _) =>
      apply harmless_bind; [apply harmless_of_new; apply makes_new_alloc | intros ?]
  | |- Store.harmless _ _ (bind _ _) => apply harmless_bind; [|intros ?]
  | |- Store.harmless _ _ (ret _) => apply harmless_ret
  | |- Store.harmless _ _ (raise _) => apply harmless_raise
  | |- Store.harmless _ _ (load _) => apply harmless_load
  | |- Store.harmless _ _ (update _) => apply harmless_update
  | |- Store.harmless _ _ (observe _) => apply harmless_observe
  | |- Store.harmless _ _ (call _) => apply harmless_call; apply HF
  | |- Store.harmless _ _ (checked _ _) => apply harmless_checked; apply HF
  | |- Store.harmless _ _ (alloc _) => apply harmless_of_new; apply makes_new_alloc
  end.

(** The two in-place updates go to [pi.grad], a new tensor, and to
    [pi], which is not [X]. *)
Lemma gradient_step_harmless y pi :
  pi <> lX -> harmless (gradient_step F cfg lX y pi).
Proof using HF.
  intros Hpi. unfold gradient_step.
  harmless_step; [harmless_step|].
  harmless_step; [harmless_step|].
  harmless_step; [harmless_step|].
  harmless_step.
  harmless_step; [harmless_step|].
  harmless_step; [harmless_step|].
  harmless_step; [harmless_step|].
  apply harmless_bind_new; [apply makes_new_alloc|]. intros grad Hgrad.
  harmless_step; [harmless_step|].
  harmless_step; [harmless_step|].
  harmless_step; [apply harmless_store, Hgrad|].
  harmless_step; [harmless_step|].
  harmless_step; [harmless_step|].
  harmless_step; [apply harmless_store, Hpi|].
  harmless_step.
Qed.

Lemma project_harmless t G nz pi n : harmless (project F cfg t lX G nz pi n).
Proof using HF.
  unfold project.
  destruct (_ =? -1)%Z; [repeat harmless_step|].
  destruct (_ =? 0)%Z; [harmless_step|].
  destruct (_ =? 0)%Z; repeat harmless_step.
Qed.

Lemma account_harmless t n : harmless (account F t n).
Proof. unfold account. destruct n; repeat harmless_step. Qed.

Lemma report_harmless t b n : harmless (report cfg t b n).
Proof.
  unfold report. destruct (_ && _); [|harmless_step].
  destruct (_ || _); harmless_step.
Qed.

Lemma constraint_check_harmless s nz pi tn tm tc verb :
  harmless (constraint_check F s lX nz pi tn tm tc verb).
Proof using HF. unfold constraint_check. repeat harmless_step. Qed.

(** The coupling an iteration starts from is not [X], and neither is
    the one it hands to the next: line 123 clones whatever the
    projection returned. *)
Lemma iteration_keeps_apart y b G nz t vars :
  triple (fun s => fst vars <> lX /\ intact lX x0 s)
         (iteration F cfg lX y b G nz t vars)
         (fun vars' s => fst vars' <> lX /\ intact lX x0 s)
         (intact lX x0).
Proof using HF.
  apply triple_pure. intros Hpi. unfold iteration.
  eapply triple_bind; [apply gradient_step_harmless, Hpi | intros g].
  eapply triple_bind; [apply project_harmless | intros p].
  eapply triple_bind; [apply account_harmless | intros n].
  eapply triple_bind; [apply report_harmless | intros ?].
  eapply triple_bind; [apply constraint_check_harmless | intros ?].
  eapply triple_bind; [apply makes_new_clone | intros pi'].
  apply triple_ret. auto.
Qed.

Lemma final_check_harmless nz pi : harmless (final_check F cfg lX nz pi).
Proof using HF.
  unfold final_check.
  harmless_step; [harmless_step|].
  harmless_step; [harmless_step|].
  harmless_step; [harmless_step|].
  harmless_step; [apply constraint_check_harmless | harmless_step].
Qed.

Lemma postprocess_step_harmless G nz pi adv :
  harmless (postprocess_step F cfg lX G nz pi adv).
Proof using HF.
  unfold postprocess_step. destruct (postprocess cfg); [|harmless_step].
  harmless_step; [harmless_step|].
  harmless_step; [harmless_step|].
  harmless_step; [harmless_step|].
  harmless_step; [harmless_step|].
  harmless_step; [harmless_step|].
  harmless_step; [apply constraint_check_harmless | harmless_step].
Qed.

Lemma output_harmless adv : harmless (output cfg adv).
Proof. unfold output. destruct (clipping cfg); repeat harmless_step. Qed.

Lemma perturb_harmless y : harmless (perturb F cfg lX y).
Proof using HF.
  unfold perturb.
  harmless_step; [harmless_step|].
  harmless_step; [harmless_step|].
  harmless_step; [harmless_step|].
  harmless_step; [harmless_step|].
  harmless_step; [harmless_step|].
  harmless_step; [harmless_step|].
  apply harmless_bind_new; [apply makes_new_clone | intros pi Hpi].
  harmless_step; [harmless_step|].
  harmless_step; [harmless_step|].
  apply (triple_bind _ _ _ (fun _ => intact lX x0)).
  { eapply triple_weaken.
    - apply (triple_for_each
               (fun (vars : loc * option Z) s => fst vars <> lX /\ intact lX x0 s)).
      intros t v. apply iteration_keeps_apart.
    - intros s Hs. split; [exact Hpi | exact Hs].
    - intros v s [_ Hs]. exact Hs. }
  intros vars.
  apply harmless_bind; [apply final_check_harmless | intros adv].
  apply harmless_bind; [apply postprocess_step_harmless | intros r].
  apply output_harmless.
Qed.
End Intact.
End StoreFacts.

Lemma demo_collaborators_respect (l : Store.loc) : Store.respects l Demo.F.
Proof. constructor; intros; intros h v Hv; exact Hv. Qed.

(** C10: [perturb] never updates [X].  Whatever the collaborators do on
    the store short of writing to [X] themselves, and whichever of the
    objects they were given they hand back, after the call (returned or
    raised) the cell of [X] holds what it held at entry, every read of
    [X] made during the call saw that same tensor, and none of the
    in-place updates of [perturb] (those of [pi.grad] and of [pi]) went
    to [X]. *)
Theorem perturb_leaves_X_intact {cost_t idx_t : Type}
    (F : Store.collaborators cost_t idx_t) (cfg : config)
    (lX : Store.loc) (x0 : tensor) (y : labels) (s : Store.state) :
  Store.respects lX F ->
  Store.cells s !! lX = Some x0 ->
  Store.seen s = [] ->
  Store.written s = [] ->
  Store.cells (snd (Store.perturb F cfg lX y s)) !! lX = Some x0 /\
  Forall (fun o => o = Some x0) (Store.seen (snd (Store.perturb F cfg lX y s))) /\
  Forall (fun l => l <> lX) (Store.written (snd (Store.perturb F cfg lX y s))).
Proof.
  intros HF Hcell Hseen Hwritten.
  assert (Hstart : Store.intact lX x0 s).
  { split; [exact Hcell|]. rewrite Hseen, Hwritten. split; constructor. }
  pose proof (StoreFacts.perturb_harmless lX x0 F cfg HF y s Hstart) as Hend.
  destruct (Store.perturb F cfg lX y s) as [[l|e] s']; exact Hend.
Qed.

Lemma perturb_leaves_X_intact_witness :
  let c := Demo.cfg 2 (-1) true true in
  let s' := snd (Store.perturb Demo.F c 0 Demo.y Demo.start) in
  Store.written s' = [3; 1; 10; 8]%nat /\
  Store.cells s' !! 0%nat = Some Demo.X /\
  Forall (fun o => o = Some Demo.X) (Store.seen s') /\
  Forall (fun l => l <> 0%nat) (Store.written s').
Proof.
  intros c s'.
  split; [vm_compute; reflexivity|].
  exact (perturb_leaves_X_intact Demo.F c 0%nat Demo.X Demo.y Demo.start
           (demo_collaborators_respect 0%nat) eq_refl eq_refl eq_refl).
Defined.

(** On the small instance the two embeddings agree: with the pure
    collaborators acting on the store, the store-level [perturb]
    returns the location of the image the value-level [perturb]
    returns, and leaves the same fields in [self]. *)
Lemma demo_embeddings_agree :
  let c := Demo.cfg 2 1 true true in
  let r := Store.perturb (lift Demo.E Demo.V) c 0 Demo.y Demo.start in
  let r' := perturb Demo.E Demo.V c Demo.X Demo.y Demo.fresh in
  match fst r, fst r' with
  | Return l, Return image => Store.cells (snd r) !! l = Some image
  | _, _ => False
  end /\
  Store.self (snd r) = self (snd r').
Proof. vm_compute. split; reflexivity. Qed.

(** ** The two embeddings agree

    Rules to run a store-level computation step by step, each step
    handing on what is known of the cells in use. *)

Lemma wp_bind {A B} (m : Store.SM A) (k : A -> Store.SM B) s Q :
  wp m s (fun o s' => match o with
                      | Return a => wp (k a) s' Q
                      | Raise e => Q (Raise e) s'
                      end) ->
  wp (bind m k) s Q.
Proof. unfold wp, bind. destruct (m s) as [[a|e] s']; auto. Qed.

Lemma wp_ret {A} (a : A) s (Q : outcome A -> Store.state -> Prop) :
  Q (Return a) s -> wp (ret a) s Q.
Proof. auto. Qed.

Lemma wp_raise {A} e s (Q : outcome A -> Store.state -> Prop) :
  Q (Raise e) s -> wp (raise e) s Q.
Proof. auto. Qed.

Lemma wp_load l v s (Q : outcome tensor -> Store.state -> Prop) :
  Store.cells s !! l = Some v -> Q (Return v) s -> wp (Store.load l) s Q.
Proof. intros H HQ. unfold wp, Store.load. cbn [fst snd]. rewrite H. exact HQ. Qed.

Lemma wp_observe lX s (Q : outcome unit -> Store.state -> Prop) :
  (forall s', Store.cells s' = Store.cells s -> Store.self s' = Store.self s ->
              Q (Return tt) s') ->
  wp (Store.observe lX) s Q.
Proof. intros H. apply H; reflexivity. Qed.

Lemma wp_update f s (Q : outcome unit -> Store.state -> Prop) :
  (forall s', Store.cells s' = Store.cells s -> Store.self s' = f (Store.self s) ->
              Q (Return tt) s') ->
  wp (Store.update f) s Q.
Proof. intros H. apply H; reflexivity. Qed.

Lemma wp_alloc v s (Q : outcome Store.loc -> Store.state -> Prop) :
  (forall l s', grown s s' l v -> Store.self s' = Store.self s -> Q (Return l) s') ->
  wp (Store.alloc v) s Q.
Proof.
  intros H. unfold wp, Store.alloc. cbn [fst snd].
  apply H; [|reflexivity]. split.
  - cbn [Store.cells]. apply list_lookup_middle. reflexivity.
  - intros l0 x Hx. cbn [Store.cells]. split.
    + apply lookup_app_l_Some, Hx.
    + apply lookup_lt_Some in Hx. lia.
Qed.

Lemma wp_store l v old s (Q : outcome unit -> Store.state -> Prop) :
  Store.cells s !! l = Some old ->
  (forall s', Store.cells s' !! l = Some v ->
              (forall l0 x, l0 <> l -> Store.cells s !! l0 = Some x ->
                            Store.cells s' !! l0 = Some x) ->
              Store.self s' = Store.self s -> Q (Return tt) s') ->
  wp (Store.store l v) s Q.
Proof.
  intros Hold H. unfold wp, Store.store. cbn [fst snd]. apply H; [| |reflexivity].
  - cbn [Store.cells]. apply list_lookup_insert_eq. eapply lookup_lt_Some, Hold.
  - intros l0 x Hne Hx. cbn [Store.cells].
    rewrite list_lookup_insert_ne by auto. exact Hx.
Qed.

(** A collaborator that leaves the store alone. *)
Lemma wp_call_pure {A} (f : Store.foreign A) (r : A) s
    (Q : outcome A -> Store.state -> Prop) :
  f (Store.cells s) = (Store.cells s, r) ->
  (forall s', Store.cells s' = Store.cells s -> Store.self s' = Store.self s ->
              Q (Return r) s') ->
  wp (Store.call f) s Q.
Proof. intros Hf H. unfold wp, Store.call. rewrite Hf. apply H; reflexivity. Qed.

(** A collaborator that puts its result in a new cell. *)
Lemma wp_call_new (f : Store.foreign Store.loc) (v : tensor) s
    (Q : outcome Store.loc -> Store.state -> Prop) :
  f (Store.cells s) = (Store.cells s ++ [v], length (Store.cells s)) ->
  (forall l s', grown s s' l v -> Store.self s' = Store.self s -> Q (Return l) s') ->
  wp (Store.call f) s Q.
Proof.
  intros Hf H. unfold wp, Store.call. rewrite Hf. cbn [fst snd].
  apply H; [|reflexivity]. split.
  - cbn [fst Store.cells]. apply list_lookup_middle. reflexivity.
  - intros l0 x Hx. cbn [fst Store.cells]. split.
    + apply lookup_app_l_Some, Hx.
    + apply lookup_lt_Some in Hx. lia.
Qed.

(** The same, for a collaborator that also returns a number. *)
Lemma wp_call_new_with {A} (f : Store.foreign (Store.loc * A)) (v : tensor) (n : A) s
    (Q : outcome (Store.loc * A) -> Store.state -> Prop) :
  f (Store.cells s) = (Store.cells s ++ [v], (length (Store.cells s), n)) ->
  (forall l s', grown s s' l v -> Store.self s' = Store.self s -> Q (Return (l, n)) s') ->
  wp (Store.call f) s Q.
Proof.
  intros Hf H. unfold wp, Store.call. rewrite Hf. cbn [fst snd].
  apply H; [|reflexivity]. split.
  - cbn [fst Store.cells]. apply list_lookup_middle. reflexivity.
  - intros l0 x Hx. cbn [fst Store.cells]. split.
    + apply lookup_app_l_Some, Hx.
    + apply lookup_lt_Some in Hx. lia.
Qed.

(** A check by a collaborator that leaves the store alone. *)
Lemma wp_checked strict (f : Store.foreign bool) (r : bool) s
    (Q : outcome bool -> Store.state -> Prop) :
  f (Store.cells s) = (Store.cells s, r) ->
  (forall s', Store.cells s' = Store.cells s -> Store.self s' = Store.self s ->
              Q (if r || negb strict then Return r else Raise ConstraintViolation) s') ->
  wp (Store.checked strict f) s Q.
Proof.
  intros Hf H. unfold wp, Store.checked, bind, Store.call, ret, raise. rewrite Hf.
  destruct r, strict; cbn; apply H; reflexivity.
Qed.

Lemma wp_mono {A} (m : Store.SM A) s (Q1 Q2 : outcome A -> Store.state -> Prop) :
  wp m s Q1 -> (forall o s', Q1 o s' -> Q2 o s') -> wp m s Q2.
Proof. unfold wp. auto. Qed.

Lemma fetch_holds (h : list tensor) l v : h !! l = Some v -> fetch h l = v.
Proof. intros H. unfold fetch. rewrite H. reflexivity. Qed.

(** Carrying what is known of the cells of [s] over to the next state:
    across a step that leaves the cells alone, across a step that adds
    a cell, and across an in-place update of [l]. *)

Ltac same_cells s s' Hc :=
  repeat match goal with
         | H : Store.cells s !! _ = Some _ |- _ => rewrite <- Hc in H
         end;
  clear Hc.

Ltac same_self s s' Hs :=
  match goal with
  | Hself : Store.self s = _ |- _ => rewrite Hself in Hs; clear Hself
  end.

Ltac grow s Hg :=
  repeat match goal with
         | H : Store.cells s !! _ = Some _ |- _ =>
             let Hne := fresh "Hfresh" in
             let H' := fresh H in
             destruct (proj2 Hg _ _ H) as [H' Hne]; clear H
         end.

(** Two locations known to differ, in either order. *)
Ltac differ := first [assumption | apply not_eq_sym; assumption].

Ltac overwrite s l Hframe :=
  repeat match goal with
         | H : Store.cells s !! l = Some _ |- _ => clear H
         | H : Store.cells s !! ?l0 = Some _ |- _ =>
             apply (Hframe l0 _ ltac:(differ)) in H
         end.

(** What a lifted collaborator reads from cells whose content is known. *)
Ltac fetches :=
  repeat match goal with
         | H : Store.cells ?s !! ?l = Some ?v |- context [fetch (Store.cells ?s) ?l] =>
             rewrite (fetch_holds _ _ _ H)
         end.

(** One step of the run: the rule for the operation at the head, then
    the bookkeeping for the state it leaves. *)
Ltac wp_step :=
  lazymatch goal with
  | |- wp (bind _ _) _ _ => apply wp_bind; wp_step
  | |- wp (ret _) _ _ => apply wp_ret
  | |- wp (raise _) _ _ => apply wp_raise
  | |- wp (Store.observe _) ?s _ =>
      let s' := fresh "s" in let Hc := fresh "Hc" in let Hs := fresh "Hs" in
      apply wp_observe; intros s' Hc Hs; same_self s s' Hs; same_cells s s' Hc
  | |- wp (Store.update _) ?s _ =>
      let s' := fresh "s" in let Hc := fresh "Hc" in let Hs := fresh "Hs" in
      apply wp_update; intros s' Hc Hs; same_self s s' Hs; same_cells s s' Hc
  | |- wp (Store.load _) _ _ => eapply wp_load; [eassumption|]
  | |- wp (Store.alloc _) ?s _ =>
      let s' := fresh "s" in let l := fresh "l" in
      let Hg := fresh "Hg" in let Hs := fresh "Hs" in
      apply wp_alloc; intros l s' Hg Hs; same_self s s' Hs;
      grow s Hg; destruct Hg as [Hg _]
  | |- wp (Store.store ?l _) ?s _ =>
      let s' := fresh "s" in let Hn := fresh "Hnew" in
      let Hf := fresh "Hframe" in let Hs := fresh "Hs" in
      eapply wp_store; [eassumption|]; intros s' Hn Hf Hs; same_self s s' Hs;
      overwrite s l Hf; clear Hf
  | |- wp (Store.checked _ _) ?s _ =>
      let s' := fresh "s" in let Hc := fresh "Hc" in let Hs := fresh "Hs" in
      eapply wp_checked; [cbn; fetches; reflexivity|];
      intros s' Hc Hs; same_self s s' Hs; same_cells s s' Hc
  | |- wp (Store.call _) ?s _ =>
      first
        [ let s' := fresh "s" in let Hc := fresh "Hc" in let Hs := fresh "Hs" in
          eapply wp_call_pure; [cbn; fetches; reflexivity|];
          intros s' Hc Hs; same_self s s' Hs; same_cells s s' Hc
        | let s' := fresh "s" in let l := fresh "l" in
          let Hg := fresh "Hg" in let Hs := fresh "Hs" in
          eapply wp_call_new; [cbn; fetches; reflexivity|];
          intros l s' Hg Hs; same_self s s' Hs; grow s Hg; destruct Hg as [Hg _]
        | let s' := fresh "s" in let l := fresh "l" in
          let Hg := fresh "Hg" in let Hs := fresh "Hs" in
          eapply wp_call_new_with; [cbn; fetches; reflexivity|];
          intros l s' Hg Hs; same_self s s' Hs; grow s Hg; destruct Hg as [Hg _] ]
  end.

Section Refine.
Context {cost_t idx_t : Type}.
Variable E : collaborators cost_t idx_t.
Variable V : verdicts.
Variable cfg : config.
Variable lX : Store.loc.
Variable X : tensor.

Let F := lift E V.

Lemma wp_gradient_step y pi vpi a s Q :
  Store.cells s !! lX = Some X -> Store.cells s !! pi = Some vpi -> pi <> lX ->
  Store.self s = a ->
  (forall s',
      Store.cells s' !! lX = Some X ->
      Store.cells s' !! pi = Some (ascent cfg vpi (backward E vpi X y)) ->
      Store.self s' = after_scoring E cfg X y vpi a ->
      Q (Return (loss_fn E (predict E (scored_image E cfg X vpi)) y,
                 predict E (scored_image E cfg X vpi))) s') ->
  wp (Store.gradient_step F cfg lX y pi) s Q.
Proof.
  intros HX Hpi Hne Hself HQ. unfold Store.gradient_step.
  do 15 wp_step.
  apply HQ; assumption.
Qed.

Lemma wp_project t G nz pi vpi n a s Q (w : world) :
  Store.cells s !! lX = Some X -> Store.cells s !! pi = Some vpi -> Store.self s = a ->
  match project E cfg t X G nz vpi n w with
  | (Return (vpi', n'), _) =>
      forall pi' s',
        Store.cells s' !! lX = Some X -> Store.cells s' !! pi' = Some vpi' -> Store.self s' = a ->
        Q (Return (pi', n')) s'
  | (Raise e, _) => forall s', Store.self s' = a -> Q (Raise e) s'
  end ->
  wp (Store.project F cfg t lX G nz pi n) s Q.
Proof.
  intros HX Hpi Hself. unfold project, Store.project.
  destruct (_ =? -1)%Z.
  { cbn. intros HQ. do 3 wp_step. apply HQ; assumption. }
  destruct (_ =? 0)%Z.
  { cbn. intros HQ. wp_step. apply HQ; assumption. }
  destruct (_ =? 0)%Z.
  - cbn. intros HQ. do 3 wp_step. apply HQ; assumption.
  - cbn. intros HQ. wp_step. apply HQ; assumption.
Qed.

Lemma wp_account t n a s Q :
  Store.self s = a ->
  match n with
  | Some k =>
      forall s', Store.cells s' = Store.cells s ->
        Store.self s' = incr_func_calls
                    (add_num_iter k (add_run_time (elapsed_time E t) a)) ->
        Q (Return k) s'
  | None =>
      forall s', Store.self s' = add_run_time (elapsed_time E t) a ->
        Q (Raise (UnboundLocalError "num_iter")) s'
  end ->
  wp (Store.account F t n) s Q.
Proof.
  intros Hself HQ. unfold Store.account, wp, bind, Store.update, ret, raise.
  destruct n as [k|]; cbn; apply HQ; cbn; rewrite ?Hself; reflexivity.
Qed.

Lemma wp_report t b loss correct n s Q (w : world) :
  match report E cfg t b loss correct n w with
  | (Return _, _) => Q (Return tt) s
  | (Raise e, _) => Q (Raise e) s
  end ->
  wp (Store.report cfg t b n) s Q.
Proof.
  unfold report, Store.report, wp.
  destruct (_ && _); [|auto].
  destruct (_ || _); auto.
Qed.

(** A check that is run: what it found. *)
Ltac wp_check :=
  apply wp_bind; wp_step;
  lazymatch goal with
  | |- match (if ?r || _ then _ else _) with _ => _ end =>
      destruct r; cbn [orb negb andb] in *
  end.

Lemma wp_constraint_check st nz pi vpi other vother tn tm tc verb a s Q :
  Store.cells s !! lX = Some X -> Store.cells s !! pi = Some vpi ->
  Store.cells s !! other = Some vother -> Store.self s = a ->
  (if accepted (fatal V st) (check_events V X nz vpi tn tm tc verb)
   then forall s', Store.cells s' !! lX = Some X -> Store.cells s' !! pi = Some vpi ->
                   Store.cells s' !! other = Some vother -> Store.self s' = a ->
                   Q (Return tt) s'
   else forall s', Store.self s' = a -> Q (Raise ConstraintViolation) s') ->
  wp (Store.constraint_check F st lX nz pi tn tm tc verb) s Q.
Proof.
  intros HX Hpi Hother Hself. unfold Store.constraint_check, check_events, accepted.
  change (Store.fatal_at F st) with (fatal V st).
  cbn [forallb finding]. intros HQ.
  destruct (fatal V st); cbn [negb orb] in HQ.
  - do 2 wp_step. wp_check; [|apply HQ; assumption].
    do 5 wp_step. wp_check; [|apply HQ; assumption].
    do 2 wp_step. wp_check; [|apply HQ; assumption].
    apply wp_ret. apply HQ; assumption.
  - do 2 wp_step.
    wp_check; (do 5 wp_step; wp_check;
               (do 2 wp_step; wp_check; apply wp_ret; apply HQ; assumption)).
Qed.

Lemma wp_clone pi vpi a s Q :
  Store.cells s !! lX = Some X -> Store.cells s !! pi = Some vpi -> Store.self s = a ->
  (forall pi' s', Store.cells s' !! lX = Some X -> Store.cells s' !! pi' = Some vpi ->
                  pi' <> lX -> Store.self s' = a -> Q (Return pi') s') ->
  wp (Store.clone pi) s Q.
Proof.
  intros HX Hpi Hself HQ. unfold Store.clone.
  do 2 wp_step.
  apply HQ; try assumption. apply not_eq_sym. assumption.
Qed.

Lemma project_self t G nz vpi n (w : world) :
  self (snd (project E cfg t X G nz vpi n w)) = self w.
Proof.
  unfold project.
  destruct (_ =? -1)%Z; [reflexivity|].
  destruct (_ =? 0)%Z; [reflexivity|].
  destruct (_ =? 0)%Z; reflexivity.
Qed.

Lemma report_self t b loss correct n (w : world) :
  self (snd (report E cfg t b loss correct n w)) = self w.
Proof.
  destruct (report_run E cfg t b loss correct n w) as [Hr|[Hr|Hr]]; rewrite Hr; reflexivity.
Qed.

(** The value-level iteration, case by case. *)
Lemma iteration_cases y G nz t vpi n (w : world) :
  iteration E V cfg X y G nz t (vpi, n) w =
    (let sc := predict E (scored_image E cfg X vpi) in
     let w1 := World (after_scoring E cfg X y vpi (self w))
                     (trace w ++ [CallPredict (scored_image E cfg X vpi)]) in
     match project E cfg t X G nz
             (ascent cfg vpi (backward E vpi X y)) n w1 with
     | (Raise e, w2) => (Raise e, w2)
     | (Return (vpi', None), w2) =>
         (Raise (UnboundLocalError "num_iter"),
          World (add_run_time (elapsed_time E t) (self w2)) (trace w2))
     | (Return (vpi', Some k), w2) =>
         match report E cfg t (Tensor.batch_size X)
                 (loss_fn E sc y) (count_correct sc y) k
                 (World (incr_func_calls
                           (add_num_iter k
                              (add_run_time (elapsed_time E t)
                                 (self w2))))
                        (trace w2)) with
         | (Raise e, w3) => (Raise e, w3)
         | (Return _, w3) =>
             (Return (vpi', Some k),
              World (self w3)
                    (trace w3 ++ check_events V X nz vpi'
                                   0.000001%Q 0.000001%Q 0.001%Q false))
         end
     end).
Proof.
  unfold iteration. unfold bind at 1. rewrite gradient_step_run.
  cbn [fst snd]. cbv zeta. unfold bind at 1.
  destruct (project _ _ _ _ _ _ _ _ _) as [[[vpi' [k|]]|e] w2];
    cbn [fst snd]; try reflexivity.
  unfold bind at 1. rewrite account_bound. unfold bind at 1.
  destruct (report _ _ _ _ _ _ _ _) as [[[]|e] w3]; [|reflexivity].
  unfold bind. rewrite constraint_check_loop. reflexivity.
Qed.

(** One iteration on the store does what the value-level iteration
    does, and hands on a coupling that is not [X]. *)
Lemma iteration_refines y G nz t vpi n pi (w : world) s :
  Store.cells s !! lX = Some X -> Store.cells s !! pi = Some vpi -> pi <> lX ->
  Store.self s = self w ->
  wp (Store.iteration F cfg lX y (Tensor.batch_size X) G nz t (pi, n)) s
     (refines (fun vals vars s' =>
                 snd vars = snd vals /\ Store.cells s' !! lX = Some X /\
                 Store.cells s' !! fst vars = Some (fst vals) /\ fst vars <> lX)
              (iteration E V cfg X y G nz t (vpi, n) w)).
Proof.
  intros HX Hpi Hne Hself.
  rewrite iteration_cases. cbv zeta.
  unfold Store.iteration. cbn [fst snd].
  apply wp_bind. eapply wp_gradient_step; [eassumption..|].
  intros s1 HX1 Hpi1 Hs1.
  apply wp_bind.
  match goal with |- context [project E cfg t X G nz ?v n ?w1] =>
    eapply (wp_project t G nz pi v n _ s1 _ w1); [eassumption..|];
    pose proof (project_self t G nz v n w1) as Hps;
    destruct (project E cfg t X G nz v n w1) as [[[vpi' n']|e] w2]
  end; cbn [fst snd self] in Hps.
  - intros pi' s2 HX2 Hpi2 Hs2. cbn [fst snd].
    apply wp_bind. eapply wp_account; [eassumption|].
    destruct n' as [k|].
    + intros s3 Hc3 Hs3. rewrite <- Hc3 in HX2, Hpi2.
      apply wp_bind.
      match goal with |- context [report E cfg t ?b ?l ?c k ?w3] =>
        eapply (wp_report t b l c k s3 _ w3);
        pose proof (report_self t b l c k w3) as Hrs;
        destruct (report E cfg t b l c k w3) as [[[]|e] w4]
      end; cbn [fst snd self] in Hrs.
      * apply wp_bind.
        eapply (wp_constraint_check InLoop nz pi' vpi' lX X); [eassumption..|].
        cbn [accepted fatal negb orb].
        intros s4 HX4 Hpi4 _ Hs4.
        apply wp_bind. eapply wp_clone; [eassumption..|].
        intros pi'' s5 HX5 Hpi5 Hne5 Hs5.
        apply wp_ret. split; [|cbn; auto].
        cbn. rewrite Hs5, Hrs, Hps. reflexivity.
      * split; [|reflexivity]. cbn. rewrite Hs3, Hrs, Hps. reflexivity.
    + intros s3 Hs3. split; [|reflexivity]. cbn. rewrite Hs3, Hps. reflexivity.
  - intros s2 Hs2. split; [|reflexivity]. cbn. rewrite Hs2, Hps. reflexivity.
Qed.

Lemma loop_refines y G nz ts : forall vpi n pi (w : world) s,
  Store.cells s !! lX = Some X -> Store.cells s !! pi = Some vpi -> pi <> lX ->
  Store.self s = self w ->
  wp (for_each ts (Store.iteration F cfg lX y (Tensor.batch_size X) G nz) (pi, n)) s
     (refines (fun vals vars s' =>
                 snd vars = snd vals /\ Store.cells s' !! lX = Some X /\
                 Store.cells s' !! fst vars = Some (fst vals) /\ fst vars <> lX)
              (for_each ts (iteration E V cfg X y G nz) (vpi, n) w)).
Proof.
  induction ts as [|t ts IH]; intros vpi n pi w s HX Hpi Hne Hself.
  - apply wp_ret. split; [exact Hself|]. cbn. auto.
  - cbn [for_each]. apply wp_bind.
    eapply wp_mono; [apply (iteration_refines y G nz t vpi n pi w s); assumption|].
    intros o s1 [Hs1 Hrel]. unfold bind.
    destruct (iteration E V cfg X y G nz t (vpi, n) w) as [[[vpi' n']|e] w1];
      cbn [fst snd] in *.
    + destruct o as [[pi' n'']|e']; [|contradiction].
      cbn [fst snd] in Hrel. destruct Hrel as (-> & HX1 & Hpi1 & Hne1).
      apply IH; assumption.
    + destruct o as [vars|e']; [contradiction|]. subst e'.
      split; [exact Hs1 | reflexivity].
Qed.

Lemma wp_final_check nz pi vpi a s Q :
  Store.cells s !! lX = Some X -> Store.cells s !! pi = Some vpi -> Store.self s = a ->
  (if forallb finding (final_events E V cfg X nz vpi)
   then forall adv s',
          Store.cells s' !! lX = Some X -> Store.cells s' !! pi = Some vpi ->
          Store.cells s' !! adv = Some (coupling2adversarial E vpi X) ->
          Store.self s' = a -> Q (Return adv) s'
   else forall s', Store.self s' = a -> Q (Raise ConstraintViolation) s') ->
  wp (Store.final_check F cfg lX nz pi) s Q.
Proof.
  intros HX Hpi Hself. unfold Store.final_check, final_events.
  cbn [forallb finding Store.fatal_at]. intros HQ.
  do 2 wp_step. wp_check; [|apply HQ; assumption].
  apply wp_bind.
  match goal with
  | H : Store.cells _ !! ?adv = Some (coupling2adversarial _ _ _) |- _ =>
      eapply (wp_constraint_check FinalCheck nz pi vpi adv); [eassumption..|]
  end.
  unfold accepted. cbn [fatal negb orb andb] in *.
  destruct (forallb finding _).
  - intros s' HX' Hpi' Hadv' Hs'. apply wp_ret. apply HQ; assumption.
  - exact HQ.
Qed.

Lemma wp_postprocess_step G nz pi vpi adv vadv a s Q :
  Store.cells s !! lX = Some X -> Store.cells s !! pi = Some vpi ->
  Store.cells s !! adv = Some vadv -> Store.self s = a ->
  (if accepted (strict_postprocess V) (postprocess_events E V cfg X G nz vpi)
   then forall r s',
          Store.cells s' !! lX = Some X ->
          Store.cells s' !! snd r =
            Some (if postprocess cfg
                  then coupling2adversarial E
                         (capacity_projected E cfg X G nz vpi) X
                  else vadv) ->
          Store.self s' = a -> Q (Return r) s'
   else forall s', Store.self s' = a -> Q (Raise ConstraintViolation) s') ->
  wp (Store.postprocess_step F cfg lX G nz pi adv) s Q.
Proof.
  intros HX Hpi Hadv Hself.
  unfold Store.postprocess_step, postprocess_events, accepted, capacity_projected.
  destruct (postprocess cfg).
  2:{ cbn [forallb]. rewrite orb_true_r. intros HQ.
      apply wp_ret. apply HQ; cbn [snd]; assumption. }
  rewrite forallb_app.
  assert (Hprint : forallb finding (if verbose cfg then [PrintPostprocess] else []) = true)
    by (destruct (verbose cfg); reflexivity).
  rewrite Hprint. cbn [forallb finding andb Store.fatal_at].
  change (Store.strict_postprocess F) with (strict_postprocess V).
  intros HQ.
  destruct (strict_postprocess V) eqn:Hstrict; cbn [negb orb] in HQ.
  - do 4 wp_step. wp_check; [|apply HQ; assumption].
    apply wp_bind.
    match goal with
    | H : Store.cells _ !! ?adv' = Some (coupling2adversarial _ ?v _),
      H' : Store.cells _ !! ?pi' = Some ?v |- _ =>
        eapply (wp_constraint_check PostProcess nz pi' v adv'); [eassumption..|]
    end.
    unfold accepted. cbn [fatal]. rewrite Hstrict. cbn [negb orb]. clear Hprint.
    match goal with |- if ?b then _ else _ => destruct b end.
    + intros s' HX' Hpi' Hadv' Hs'. apply wp_ret. apply HQ; cbn [snd]; assumption.
    + exact HQ.
  - do 4 wp_step.
    wp_check;
      (apply wp_bind;
       match goal with
       | H : Store.cells _ !! ?adv' = Some (coupling2adversarial _ ?v _),
         H' : Store.cells _ !! ?pi' = Some ?v |- _ =>
           eapply (wp_constraint_check PostProcess nz pi' v adv'); [eassumption..|]
       end;
       unfold accepted; cbn [fatal]; rewrite Hstrict; cbn [negb orb];
       intros s' HX' Hpi' Hadv' Hs'; apply wp_ret; apply HQ; cbn [snd]; assumption).
Qed.

Lemma wp_output adv vadv a s Q :
  Store.cells s !! adv = Some vadv -> Store.self s = a ->
  (forall l s', Store.cells s' !! l = Some (output cfg vadv) -> Store.self s' = a ->
                Q (Return l) s') ->
  wp (Store.output cfg adv) s Q.
Proof.
  intros Hadv Hself HQ. unfold Store.output, output in *.
  destruct (clipping cfg).
  - do 2 wp_step. apply HQ; assumption.
  - apply wp_ret. apply HQ; assumption.
Qed.

(** The store-level [perturb], run with the pure collaborators acting
    on the store, ends as the value-level [perturb] does: both raise
    the same exception or both return, the returned location holding
    the returned image; and [self] ends the same. *)
Theorem store_perturb_refines y (w : world) s :
  Store.cells s !! lX = Some X -> Store.self s = self w ->
  wp (Store.perturb F cfg lX y) s
     (refines (fun image l s' => Store.cells s' !! l = Some image)
              (perturb E V cfg X y w)).
Proof.
  intros HX Hself.
  rewrite perturb_run. cbv zeta.
  unfold Store.perturb, attack_loop.
  do 6 wp_step.
  apply wp_bind. eapply wp_clone; [eassumption..|].
  intros pi sa HXa Hpia Hnea Hsa.
  do 2 wp_step.
  apply wp_bind.
  eapply wp_mono; [eapply loop_refines; eassumption|].
  intros o sb [Hsb Hrel].
  destruct (for_each _ _ _ w) as [[[vpi n]|e] w1]; cbn [fst snd] in Hsb, Hrel.
  - destruct o as [[pi' n']|e']; [|contradiction].
    cbn [fst snd] in Hrel. destruct Hrel as (_ & HXb & Hpib & Hneb).
    cbn [fst snd].
    apply wp_bind. eapply wp_final_check; [eassumption..|].
    destruct (forallb finding _).
    2:{ intros sc Hsc. split; [exact Hsc | reflexivity]. }
    intros adv sc HXc Hpic Hadvc Hsc.
    apply wp_bind. eapply wp_postprocess_step; [eassumption..|].
    destruct (accepted _ _).
    2:{ intros sd Hsd. split; [exact Hsd | reflexivity]. }
    intros r sd HXd Hadvd Hsd.
    eapply wp_output; [eassumption..|].
    intros l' se Hle Hse.
    split; [exact Hse|]. cbn [fst snd].
    rewrite Hle. unfold final_coupling.
    destruct (postprocess cfg); reflexivity.
  - destruct o as [vars|e']; [contradiction|]. subst e'.
    split; [exact Hsb | reflexivity].
Qed.
End Refine.

(** ** Construction *)

(** C9: a negative [eps] or a [kernel_size] that is zero or negative
    makes the constructor fail; no instance is produced. *)
Theorem malformed_configuration_rejected
    (eps : Q) (kernel_size : Z) (lr : Q) (nb_iter : nat) (dual_max_iter : Z)
    (grad_tol int_tol : option Q) (clip_min clip_max : Q)
    (clipping postprocess verbose : bool) (capacity_proj_mod : Z) :
  (eps < 0)%Q \/ (kernel_size <= 0)%Z ->
  ProjectedGradient_init eps kernel_size lr nb_iter dual_max_iter grad_tol int_tol
    clip_min clip_max clipping postprocess verbose capacity_proj_mod
  = Raise ConfigurationError.
Proof.
  intros Hbad. unfold ProjectedGradient_init, WassersteinAttack_init.
  destruct Hbad as [Heps|Hk].
  - destruct (Qle_bool 0 eps) eqn:Hle; [|reflexivity].
    apply Qle_bool_iff in Hle. exfalso. apply (Qlt_not_le _ _ Heps Hle).
  - apply Z.leb_le in Hk. rewrite Hk, orb_true_r. reflexivity.
Qed.

Lemma malformed_configuration_rejected_witness :
  ((-0.5 < 0)%Q \/ (3 <= 0)%Z) /\
  ProjectedGradient_init (-0.5)%Q 3 0.1%Q 10 15 (Some 0.0001%Q) (Some 0.0001%Q)
    0%Q 1%Q false false true (-1)
  = Raise ConfigurationError.
Proof.
  assert (H : (-0.5 < 0)%Q \/ (3 <= 0)%Z) by (left; reflexivity).
  split; [exact H|].
  exact (malformed_configuration_rejected (-0.5)%Q 3 0.1%Q 10 15 (Some 0.0001%Q)
           (Some 0.0001%Q) 0%Q 1%Q false false true (-1) H).
Defined.

(** A well-formed configuration is accepted, with the counters at zero. *)
Lemma well_formed_configuration_accepted
    (eps : Q) (kernel_size : Z) (lr : Q) (nb_iter : nat) (dual_max_iter : Z)
    (grad_tol int_tol : option Q) (clip_min clip_max : Q)
    (clipping postprocess verbose : bool) (capacity_proj_mod : Z) :
  (0 <= eps)%Q -> (0 < kernel_size)%Z ->
  ProjectedGradient_init eps kernel_size lr nb_iter dual_max_iter grad_tol int_tol
    clip_min clip_max clipping postprocess verbose capacity_proj_mod
  = Return (Config eps kernel_size lr nb_iter dual_max_iter grad_tol int_tol
              clip_min clip_max clipping postprocess verbose capacity_proj_mod 1000000,
            Attack [] [] 0%Q 0%Z 0%Z).
Proof.
  intros Heps Hk. unfold ProjectedGradient_init, WassersteinAttack_init.
  apply Qle_bool_iff in Heps. rewrite Heps.
  destruct (Z.leb_spec kernel_size 0); [lia | reflexivity].
Qed.

(** ** More on the steps of an iteration *)

Lemma for_each_app {W S : Type} (body : nat -> S -> ST W S) ts1 ts2 (s : S) (w : W) :
  for_each (ts1 ++ ts2) body s w =
    match for_each ts1 body s w with
    | (Return s1, w1) => for_each ts2 body s1 w1
    | (Raise e, w1) => (Raise e, w1)
    end.
Proof.
  revert s w. induction ts1 as [|t ts1 IH]; intros s w; [reflexivity|].
  cbn [app for_each]. unfold bind.
  destruct (body t s w) as [[s1|e] w1]; [apply IH | reflexivity].
Qed.

Section MoreSteps.
Context {cost_t idx_t : Type}.
Variable E : collaborators cost_t idx_t.
Variable V : verdicts.
Variable cfg : config.

(** The three ways the progress line can go. *)
Lemma report_outcome t b loss correct n w :
  report E cfg t b loss correct n w =
    if report_fails cfg t b n then (Raise ZeroDivisionError, w)
    else (Return tt,
          World (self w)
                (trace w ++ if prints cfg t
                            then [PrintProgress (Z.of_nat t + 1) loss correct n
                                    (elapsed_time E t)]
                            else [])).
Proof.
  unfold report, report_fails, prints.
  destruct (verbose cfg && _); cbn [andb].
  - destruct (_ || _); reflexivity.
  - rewrite app_nil_r. destruct w; reflexivity.
Qed.

(** With period -1 or 1, [project] runs the projection of the period. *)
Lemma project_round t X y G nz pi n w :
  capacity_proj_mod cfg = (-1)%Z \/ capacity_proj_mod cfg = 1%Z ->
  project E cfg t X G nz (ascent cfg pi (backward E pi X y)) n w =
    (Return (fst (round E cfg X y G nz pi), Some (snd (round E cfg X y G nz pi))),
     World (self w) (trace w ++ [round_call E cfg X y G nz pi])).
Proof.
  intros [Hm|Hm]; unfold round_call, round.
  - rewrite project_dual by exact Hm. rewrite Hm. cbn [Z.eqb Pos.eqb].
    cbv zeta. reflexivity.
  - rewrite project_capacity.
    + rewrite Hm. cbn [Z.eqb]. reflexivity.
    + rewrite Hm. discriminate.
    + rewrite Hm. discriminate.
    + rewrite Hm. apply Z.mod_1_r.
Qed.

(** A pass of the loop body with period -1 or 1: it either runs to
    its end or stops at the progress line, after the counters. *)
Lemma iteration_round X y G nz t pi n w :
  capacity_proj_mod cfg = (-1)%Z \/ capacity_proj_mod cfg = 1%Z ->
  iteration E V cfg X y G nz t (pi, n) w =
    if report_fails cfg t (Tensor.batch_size X) (snd (round E cfg X y G nz pi))
    then (Raise ZeroDivisionError,
          World (counted E cfg X y G nz t pi (self w))
                (trace w ++ [CallPredict (scored_image E cfg X pi);
                             round_call E cfg X y G nz pi]))
    else (Return (fst (round E cfg X y G nz pi), Some (snd (round E cfg X y G nz pi))),
          World (counted E cfg X y G nz t pi (self w))
                (trace w ++ pass_events E cfg V X y G nz t pi)).
Proof.
  intros Hm. rewrite iteration_cases. cbv zeta.
  rewrite (project_round t X y G nz pi n _ Hm).
  rewrite report_outcome. cbn [self trace].
  destruct (report_fails _ _ _ _).
  - rewrite <- app_assoc. reflexivity.
  - cbn [self trace]. unfold pass_events, progress_event, counted.
    rewrite <- !app_assoc. reflexivity.
Qed.

(** The loop with period -1 or 1 when no progress line fails. *)
Lemma loop_rounds X y G nz ts :
  capacity_proj_mod cfg = (-1)%Z \/ capacity_proj_mod cfg = 1%Z ->
  forall pi n w,
  loop_ok E cfg X y G nz (Tensor.batch_size X) ts pi = true ->
  exists n',
    for_each ts (iteration E V cfg X y G nz) (pi, n) w =
      (Return (loop_coupling E cfg X y G nz ts pi, n'),
       World (loop_self E cfg X y G nz ts pi (self w))
             (trace w ++ loop_events E cfg V X y G nz ts pi)).
Proof.
  intros Hm. induction ts as [|t ts IH]; intros pi n w Hok.
  - exists n. cbn. rewrite app_nil_r. destruct w; reflexivity.
  - cbn [loop_ok] in Hok. apply andb_true_iff in Hok. destruct Hok as [Ht Hok].
    apply negb_true_iff in Ht.
    cbn [for_each]. unfold bind. rewrite (iteration_round X y G nz t pi n w Hm), Ht.
    destruct (IH (fst (round E cfg X y G nz pi))
                 (Some (snd (round E cfg X y G nz pi)))
                 (World (counted E cfg X y G nz t pi (self w))
                        (trace w ++ pass_events E cfg V X y G nz t pi)) Hok)
      as [n' Hrun].
    exists n'. rewrite Hrun. cbn [self trace loop_coupling loop_self loop_events].
    rewrite <- app_assoc. reflexivity.
Qed.

(** The pass that stops at its progress line stops the loop. *)
Lemma loop_stops X y G nz ts1 t ts2 :
  capacity_proj_mod cfg = (-1)%Z \/ capacity_proj_mod cfg = 1%Z ->
  forall pi n w,
  loop_ok E cfg X y G nz (Tensor.batch_size X) ts1 pi = true ->
  report_fails cfg t (Tensor.batch_size X)
    (snd (round E cfg X y G nz (loop_coupling E cfg X y G nz ts1 pi))) = true ->
  for_each (ts1 ++ t :: ts2) (iteration E V cfg X y G nz) (pi, n) w =
    (Raise ZeroDivisionError,
     World (counted E cfg X y G nz t (loop_coupling E cfg X y G nz ts1 pi)
              (loop_self E cfg X y G nz ts1 pi (self w)))
           (trace w ++ loop_events E cfg V X y G nz ts1 pi ++
            [CallPredict (scored_image E cfg X (loop_coupling E cfg X y G nz ts1 pi));
             round_call E cfg X y G nz (loop_coupling E cfg X y G nz ts1 pi)])).
Proof.
  intros Hm pi n w Hok Hfail.
  rewrite for_each_app.
  destruct (loop_rounds X y G nz ts1 Hm pi n w Hok) as [n' Hrun]. rewrite Hrun.
  cbn [for_each]. unfold bind. rewrite (iteration_round _ _ _ _ _ _ _ _ Hm), Hfail.
  cbn [self trace]. rewrite <- app_assoc. reflexivity.
Qed.

(** Facts about what a completed loop records. *)
Lemma calls_app p tr1 tr2 : calls p (tr1 ++ tr2) = (calls p tr1 + calls p tr2)%nat.
Proof. unfold calls. rewrite List.filter_app, length_app. reflexivity. Qed.

Lemma progress_lines_app tr1 tr2 :
  progress_lines (tr1 ++ tr2) = progress_lines tr1 ++ progress_lines tr2.
Proof. unfold progress_lines. apply flat_map_app. Qed.


End MoreSteps.

(** ** What a run with period -1 or 1 amounts to *)

Section MoreLoop.
Context {cost_t idx_t : Type}.
Variable E : collaborators cost_t idx_t.
Variable V : verdicts.
Variable cfg : config.

(** A loop in which some progress line fails raises the division error. *)
Lemma loop_fails X y G nz ts :
  capacity_proj_mod cfg = (-1)%Z \/ capacity_proj_mod cfg = 1%Z ->
  forall pi n w,
  loop_ok E cfg X y G nz (Tensor.batch_size X) ts pi = false ->
  fst (for_each ts (iteration E V cfg X y G nz) (pi, n) w) = Raise ZeroDivisionError.
Proof.
  intros Hm. induction ts as [|t ts IH]; intros pi n w Hok; [discriminate|].
  cbn [loop_ok] in Hok. cbn [for_each]. unfold bind.
  rewrite (iteration_round E V cfg X y G nz t pi n w Hm).
  destruct (report_fails _ _ _ _); [reflexivity|].
  cbn [negb andb] in Hok. apply IH, Hok.
Qed.

(** A call that returned went through every pass, and is described by
    the loop functions. *)
Lemma perturb_returned X y w image w' :
  perturb E V cfg X y w = (Return image, w') ->
  let G := initialize_cost E X (inf cfg) in
  let nz := Tensor.sum_dims X in
  let ts := seq 0 (nb_iter cfg) in
  let last := loop_coupling E cfg X y G nz ts (initialize_coupling E X) in
  (nb_iter cfg = 0%nat \/ capacity_proj_mod cfg = (-1)%Z \/ capacity_proj_mod cfg = 1%Z) /\
  loop_ok E cfg X y G nz (Tensor.batch_size X) ts (initialize_coupling E X) = true /\
  image = output cfg (coupling2adversarial E (final_coupling E cfg X G nz last) X) /\
  self w' = loop_self E cfg X y G nz ts (initialize_coupling E X) (self w) /\
  trace w' = trace w ++ loop_events E cfg V X y G nz ts (initialize_coupling E X)
                     ++ final_events E V cfg X nz last
                     ++ postprocess_events E V cfg X G nz last.
Proof.
  intros Hrun G nz ts last.
  destruct (perturb_returns E V cfg X y w image w' Hrun)
    as (loc & w1 & Hloop & _ & _ & Himage & Hself & Htrace).
  cbv zeta in Hloop, Himage, Htrace. fold G nz in Hloop, Himage, Htrace.
  destruct (Nat.eq_dec (nb_iter cfg) 0) as [Hz|Hz].
  - unfold attack_loop in Hloop. subst ts last. rewrite Hz in *. cbn in Hloop.
    injection Hloop as <- <-.
    cbn [fst loop_coupling loop_ok loop_self loop_events self trace app] in *.
    repeat split; auto.
  - assert (Hm : capacity_proj_mod cfg = (-1)%Z \/ capacity_proj_mod cfg = 1%Z).
    { eapply loop_completes_period; [|exact Hloop]. lia. }
    unfold attack_loop in Hloop. fold ts in Hloop.
    destruct (loop_ok E cfg X y G nz (Tensor.batch_size X) ts (initialize_coupling E X))
      eqn:Hok.
    + destruct (loop_rounds E V cfg X y G nz ts Hm _ None w Hok) as [n' Hrounds].
      rewrite Hrounds in Hloop. injection Hloop as <- <-.
      cbn [fst self trace] in *. rewrite <- !app_assoc in Htrace.
      repeat split; auto.
    + pose proof (loop_fails X y G nz ts Hm _ None w Hok) as Hfail.
      rewrite Hloop in Hfail. discriminate.
Qed.

(** And through every check that follows the loop. *)
Lemma perturb_returned_valid X y w image w' :
  perturb E V cfg X y w = (Return image, w') ->
  let G := initialize_cost E X (inf cfg) in
  let nz := Tensor.sum_dims X in
  let last := loop_coupling E cfg X y G nz (seq 0 (nb_iter cfg)) (initialize_coupling E X) in
  forallb finding (final_events E V cfg X nz last) = true /\
  accepted (strict_postprocess V) (postprocess_events E V cfg X G nz last) = true.
Proof.
  intros Hrun G nz last.
  destruct (perturb_returns E V cfg X y w image w' Hrun)
    as (loc & w1 & Hloop & Hfinal & Hpost & _).
  cbv zeta in Hloop, Hfinal, Hpost. fold G nz in Hloop, Hfinal, Hpost.
  assert (Hlast : fst loc = last); [|rewrite Hlast in *; auto].
  destruct (Nat.eq_dec (nb_iter cfg) 0) as [Hz|Hz].
  - unfold attack_loop in Hloop. subst last. rewrite Hz in *. cbn in Hloop.
    injection Hloop as <- <-. reflexivity.
  - assert (Hm : capacity_proj_mod cfg = (-1)%Z \/ capacity_proj_mod cfg = 1%Z).
    { eapply loop_completes_period; [|exact Hloop]. lia. }
    unfold attack_loop in Hloop.
    destruct (loop_ok E cfg X y G nz (Tensor.batch_size X) (seq 0 (nb_iter cfg))
                (initialize_coupling E X)) eqn:Hok.
    + destruct (loop_rounds E V cfg X y G nz _ Hm _ None w Hok) as [n' Hrounds].
      rewrite Hrounds in Hloop. injection Hloop as <- <-. reflexivity.
    + pose proof (loop_fails X y G nz _ Hm _ None w Hok) as Hfail.
      rewrite Hloop in Hfail. discriminate.
Qed.

(** A call with period -1 or 1, or with no iteration, in which no
    progress line fails, gets to the checks that follow the loop; it
    returns when they let it. *)
Lemma perturb_completes X y w :
  let G := initialize_cost E X (inf cfg) in
  let nz := Tensor.sum_dims X in
  let ts := seq 0 (nb_iter cfg) in
  let pi0 := initialize_coupling E X in
  let last := loop_coupling E cfg X y G nz ts pi0 in
  nb_iter cfg = 0%nat \/ capacity_proj_mod cfg = (-1)%Z \/ capacity_proj_mod cfg = 1%Z ->
  loop_ok E cfg X y G nz (Tensor.batch_size X) ts pi0 = true ->
  perturb E V cfg X y w =
    if forallb finding (final_events E V cfg X nz last)
    then
      (if accepted (strict_postprocess V) (postprocess_events E V cfg X G nz last)
       then Return (output cfg
                      (coupling2adversarial E (final_coupling E cfg X G nz last) X))
       else Raise ConstraintViolation,
       World (loop_self E cfg X y G nz ts pi0 (self w))
             (trace w ++ loop_events E cfg V X y G nz ts pi0
                     ++ final_events E V cfg X nz last
                     ++ recorded (strict_postprocess V)
                          (postprocess_events E V cfg X G nz last)))
    else
      (Raise ConstraintViolation,
       World (loop_self E cfg X y G nz ts pi0 (self w))
             (trace w ++ loop_events E cfg V X y G nz ts pi0
                     ++ until_failure (final_events E V cfg X nz last))).
Proof.
  intros G nz ts pi0 last Hm Hok.
  rewrite perturb_run. cbv zeta. fold G nz. unfold attack_loop. fold ts pi0.
  assert (Hloop : exists n',
            for_each ts (iteration E V cfg X y G nz) (pi0, None) w =
              (Return (last, n'),
               World (loop_self E cfg X y G nz ts pi0 (self w))
                     (trace w ++ loop_events E cfg V X y G nz ts pi0))).
  { destruct Hm as [Hz|Hm].
    - subst ts last. rewrite Hz. cbn. rewrite app_nil_r. exists None.
      destruct w; reflexivity.
    - exact (loop_rounds E V cfg X y G nz ts Hm pi0 None w Hok). }
  destruct Hloop as [n' ->]. cbn [fst self trace].
  rewrite <- !app_assoc. reflexivity.
Qed.

(** *** Counting what the loop records *)

Lemma calls_checks p X nz pi tn tm tc verb :
  (forall e, p e = true -> is_predict e = true \/ is_projection e = true) ->
  calls p (check_events V X nz pi tn tm tc verb) = 0%nat.
Proof.
  intros Hp. unfold calls, check_events. cbn [List.filter].
  repeat match goal with
         | |- context [p ?e] =>
             let H := fresh in
             destruct (p e) eqn:H;
             [destruct (Hp _ H); discriminate|]
         end.
  reflexivity.
Qed.

Lemma calls_progress p X y G nz t pi :
  (forall e, p e = true -> is_predict e = true \/ is_projection e = true) ->
  calls p (progress_event E cfg X y G nz t pi) = 0%nat.
Proof.
  intros Hp. unfold calls, progress_event.
  destruct (prints cfg t); [|reflexivity]. cbn [List.filter].
  match goal with
  | |- context [p ?e] =>
      let H := fresh in
      destruct (p e) eqn:H; [destruct (Hp _ H); discriminate | reflexivity]
  end.
Qed.

Lemma calls_pass p X y G nz t pi :
  (forall e, p e = true -> is_predict e = true \/ is_projection e = true) ->
  calls p (pass_events E cfg V X y G nz t pi) =
    calls p [CallPredict (scored_image E cfg X pi); round_call E cfg X y G nz pi].
Proof.
  intros Hp. unfold pass_events.
  rewrite !calls_app, calls_progress, calls_checks by exact Hp. lia.
Qed.

Lemma calls_loop p k X y G nz ts :
  (forall e, p e = true -> is_predict e = true \/ is_projection e = true) ->
  (forall pi, calls p [CallPredict (scored_image E cfg X pi);
                       round_call E cfg X y G nz pi] = k) ->
  forall pi, calls p (loop_events E cfg V X y G nz ts pi) = (k * length ts)%nat.
Proof.
  intros Hp Hk. induction ts as [|t ts IH]; intros pi; cbn [loop_events length].
  - unfold calls. cbn. lia.
  - rewrite calls_app, calls_pass, Hk, IH by exact Hp. lia.
Qed.

Lemma calls_final p X nz pi :
  (forall e, p e = true -> is_predict e = true \/ is_projection e = true) ->
  calls p (final_events E V cfg X nz pi) = 0%nat.
Proof.
  intros Hp. unfold final_events.
  change (calls p ([CheckHypercube (coupling2adversarial E pi X) None (verbose cfg)
                      (hypercube_ok V (coupling2adversarial E pi X) None)] ++
                   check_events V X nz pi 0.00001%Q 0.00001%Q (eps cfg * 0.001)%Q
                     (verbose cfg)) = 0%nat).
  rewrite calls_app, calls_checks by exact Hp.
  unfold calls. cbn [List.filter].
  match goal with
  | |- context [p ?e] =>
      let H := fresh in
      destruct (p e) eqn:H; [destruct (Hp _ H); discriminate | reflexivity]
  end.
Qed.

Lemma progress_lines_pass X y G nz t pi :
  progress_lines (pass_events E cfg V X y G nz t pi) =
    if prints cfg t then [(Z.of_nat t + 1)%Z] else [].
Proof.
  unfold pass_events. rewrite !progress_lines_app.
  unfold progress_event, round_call.
  destruct (_ =? -1)%Z; destruct (prints cfg t); reflexivity.
Qed.

Lemma progress_lines_loop X y G nz ts : forall pi,
  progress_lines (loop_events E cfg V X y G nz ts pi) =
    map (fun t => (Z.of_nat t + 1)%Z) (List.filter (prints cfg) ts).
Proof.
  induction ts as [|t ts IH]; intros pi; [reflexivity|].
  cbn [loop_events List.filter]. rewrite progress_lines_app, IH, progress_lines_pass.
  destruct (prints cfg t); reflexivity.
Qed.

Lemma loop_coupling_iter X y G nz n : forall a pi,
  loop_coupling E cfg X y G nz (seq a n) pi =
    Nat.iter n (fun p => fst (round E cfg X y G nz p)) pi.
Proof.
  induction n as [|n IH]; intros a pi; [reflexivity|].
  cbn [seq loop_coupling]. rewrite IH.
  symmetry. apply (Nat.iter_succ_r n (fun p => fst (round E cfg X y G nz p)) pi).
Qed.

End MoreLoop.

(** ** The run, in explicit terms

    The embedding of [perturb] records and returns what the explicit
    description of the run says. *)

Section History.
Context {cost_t idx_t : Type}.
Variable E : collaborators cost_t idx_t.
Variable V : verdicts.
Variable cfg : config.
Variable X : tensor.
Variable y : labels.

Let G := initialize_cost E X (inf cfg).
Let nz := Tensor.sum_dims X.
Let pi0 := initialize_coupling E X.

Lemma round_projected pi : round E cfg X y G nz pi = projected E cfg X y pi.
Proof.
  unfold round, projected, capacity_projected, nz. cbv zeta.
  rewrite ascent_stepped, budget_mass. reflexivity.
Qed.

Lemma round_call_projection_call pi :
  round_call E cfg X y G nz pi = projection_call E cfg X y pi.
Proof.
  unfold round_call, projection_call. cbv zeta. rewrite round_projected.
  unfold nz. rewrite ascent_stepped, budget_mass. reflexivity.
Qed.

Lemma scored_image_clamped pi :
  scored_image E cfg X pi =
    clamped (clip_min cfg) (clip_max cfg) (coupling2adversarial E pi X).
Proof. unfold scored_image. apply clamp_clamped. Qed.

Lemma check_events_checks_on pi tn tm tc verb :
  check_events V X nz pi tn tm tc verb = checks_on V X pi tn tm tc verb.
Proof. unfold check_events, checks_on, nz. rewrite !div_batch_normalized. reflexivity. Qed.

Lemma coupling_at_next t :
  coupling_at E cfg X y (S t) = fst (round E cfg X y G nz (coupling_at E cfg X y t)).
Proof. unfold coupling_at. cbn [Nat.iter]. rewrite round_projected. reflexivity. Qed.

Lemma loop_coupling_at n : forall a,
  loop_coupling E cfg X y G nz (seq a n) (coupling_at E cfg X y a) =
    coupling_at E cfg X y (a + n).
Proof.
  induction n as [|n IH]; intros a; cbn [seq loop_coupling].
  - rewrite Nat.add_0_r. reflexivity.
  - rewrite <- coupling_at_next, IH. f_equal. lia.
Qed.

Lemma loop_coupling_from_start n :
  loop_coupling E cfg X y G nz (seq 0 n) pi0 = coupling_at E cfg X y n.
Proof. exact (loop_coupling_at n 0). Qed.

Lemma prints_line_due t : prints cfg t = line_due cfg t.
Proof. reflexivity. Qed.

Lemma report_fails_line_fails t :
  report_fails cfg t (Tensor.batch_size X)
    (snd (round E cfg X y G nz (coupling_at E cfg X y t))) = line_fails E cfg X y t.
Proof. unfold report_fails, line_fails. rewrite round_projected. reflexivity. Qed.

Lemma pass_events_pass_at t :
  pass_events E cfg V X y G nz t (coupling_at E cfg X y t) = pass_at E cfg X y V t.
Proof.
  unfold pass_events, pass_at, progress_event, progress_line.
  rewrite round_call_projection_call, check_events_checks_on, <- coupling_at_next.
  rewrite round_projected, scored_image_clamped, count_correct_predictions. reflexivity.
Qed.

Lemma loop_events_passes n : forall a,
  loop_events E cfg V X y G nz (seq a n) (coupling_at E cfg X y a) =
    flat_map (pass_at E cfg X y V) (seq a n).
Proof.
  induction n as [|n IH]; intros a; cbn [seq loop_events flat_map]; [reflexivity|].
  rewrite pass_events_pass_at, <- coupling_at_next, IH. reflexivity.
Qed.

(** The passes before the first progress line that fails. *)
Lemma passes_before_failure_le n : forall a,
  (passes_before_failure E cfg X y n a <= n)%nat.
Proof.
  induction n as [|n IH]; intros a; cbn [passes_before_failure]; [lia|].
  destruct (line_fails E cfg X y a); [lia|]. specialize (IH (S a)). lia.
Qed.

Lemma loop_ok_prefix n : forall a,
  loop_ok E cfg X y G nz (Tensor.batch_size X)
    (seq a (passes_before_failure E cfg X y n a)) (coupling_at E cfg X y a) = true.
Proof.
  induction n as [|n IH]; intros a; cbn [passes_before_failure]; [reflexivity|].
  destruct (line_fails E cfg X y a) eqn:Hfail; [reflexivity|].
  cbn [seq loop_ok]. rewrite report_fails_line_fails, Hfail, <- coupling_at_next.
  apply IH.
Qed.

Lemma first_failure n : forall a,
  (passes_before_failure E cfg X y n a < n)%nat ->
  line_fails E cfg X y (a + passes_before_failure E cfg X y n a) = true.
Proof.
  induction n as [|n IH]; intros a; cbn [passes_before_failure]; [lia|].
  destruct (line_fails E cfg X y a) eqn:Hfail.
  - intros _. rewrite Nat.add_0_r. exact Hfail.
  - intros Hlt. replace (a + S _)%nat with (S a + passes_before_failure E cfg X y n (S a))%nat
      by lia.
    apply IH. lia.
Qed.

Lemma final_events_final_checks :
  final_events E V cfg X nz (coupling_at E cfg X y (nb_iter cfg)) =
    final_checks E cfg X y V.
Proof.
  unfold final_events, final_checks. rewrite check_events_checks_on. reflexivity.
Qed.

Lemma final_coupling_last :
  final_coupling E cfg X G nz (coupling_at E cfg X y (nb_iter cfg)) =
    last_coupling E cfg X y.
Proof.
  unfold final_coupling, last_coupling, capacity_projected, nz.
  rewrite budget_mass. reflexivity.
Qed.

Lemma postprocess_events_pass :
  postprocess_events E V cfg X G nz (coupling_at E cfg X y (nb_iter cfg)) =
    postprocess_pass E cfg X y V.
Proof.
  unfold postprocess_events, postprocess_pass.
  destruct (postprocess cfg) eqn:Hpost; [|reflexivity].
  rewrite check_events_checks_on.
  pose proof final_coupling_last as Hlast. unfold final_coupling in Hlast.
  rewrite Hpost in Hlast. rewrite Hlast.
  unfold nz. rewrite budget_mass. reflexivity.
Qed.

Lemma output_returned_image :
  output cfg (coupling2adversarial E (last_coupling E cfg X y) X) =
    returned_image E cfg X y.
Proof. unfold output, returned_image. rewrite clamp_clamped. reflexivity. Qed.

Lemma steady_period :
  steady cfg = true <->
  capacity_proj_mod cfg = (-1)%Z \/ capacity_proj_mod cfg = 1%Z.
Proof.
  unfold steady. rewrite orb_true_iff, !Z.eqb_eq. reflexivity.
Qed.

(** A loop that runs all of its passes. *)
Lemma history_completed w :
  loop_completed E cfg X y = true ->
  fst (perturb E V cfg X y w) = expected_outcome E cfg X y V /\
  self (snd (perturb E V cfg X y w)) =
    loop_self E cfg X y G nz (seq 0 (nb_iter cfg)) pi0 (self w) /\
  trace (snd (perturb E V cfg X y w)) = trace w ++ expected_trace E cfg X y V.
Proof.
  intros Hdone. unfold expected_outcome, expected_trace, closing, validated.
  rewrite Hdone. unfold loop_completed in Hdone. apply Nat.eqb_eq in Hdone.
  assert (Hm : nb_iter cfg = 0%nat \/
               capacity_proj_mod cfg = (-1)%Z \/ capacity_proj_mod cfg = 1%Z).
  { unfold completed_passes in Hdone. destruct (steady cfg) eqn:Hs.
    - right. apply steady_period, Hs.
    - left. symmetry. exact Hdone. }
  assert (Hok : loop_ok E cfg X y G nz (Tensor.batch_size X) (seq 0 (nb_iter cfg)) pi0
                = true).
  { unfold completed_passes in Hdone. destruct (steady cfg).
    - rewrite <- Hdone at 1. apply (loop_ok_prefix (nb_iter cfg) 0).
    - rewrite <- Hdone. reflexivity. }
  rewrite (perturb_completes E V cfg X y w Hm Hok).
  fold G nz pi0. rewrite loop_coupling_from_start.
  rewrite final_events_final_checks, postprocess_events_pass, final_coupling_last,
    output_returned_image.
  rewrite Hdone. rewrite <- (loop_events_passes (nb_iter cfg) 0).
  fold pi0.
  change (coupling_at E cfg X y 0) with pi0.
  destruct (forallb finding (final_checks E cfg X y V)); cbn [andb fst snd self trace];
    rewrite <- ?app_assoc; repeat split; reflexivity.
Qed.

(** A loop stopped in its first pass: the period is neither -1 nor 1. *)
Lemma history_unsteady w :
  steady cfg = false -> (1 <= nb_iter cfg)%nat ->
  fst (perturb E V cfg X y w) = expected_outcome E cfg X y V /\
  trace (snd (perturb E V cfg X y w)) = trace w ++ expected_trace E cfg X y V.
Proof.
  intros Hs Hn.
  assert (Hm1 : capacity_proj_mod cfg <> (-1)%Z)
    by (intros H; rewrite (proj2 steady_period (or_introl H)) in Hs; discriminate).
  assert (Hp1 : capacity_proj_mod cfg <> 1%Z)
    by (intros H; rewrite (proj2 steady_period (or_intror H)) in Hs; discriminate).
  unfold expected_outcome, expected_trace, interrupted_pass, interruption,
    loop_completed, completed_passes.
  rewrite Hs. destruct (Nat.eqb_spec 0 (nb_iter cfg)) as [Hz|_]; [lia|].
  cbn [seq flat_map app]. change (coupling_at E cfg X y 0) with pi0.
  unfold scored_at. change (coupling_at E cfg X y 0) with pi0.
  rewrite <- scored_image_clamped.
  unfold perturb, attack_loop. fold G nz pi0.
  destruct (nb_iter cfg) as [|n]; [lia|].
  cbn [seq for_each]. unfold bind.
  destruct (Z.eqb_spec (capacity_proj_mod cfg) 0) as [H0|H0].
  - rewrite iteration_cases. cbv zeta. rewrite project_zero by exact H0.
    split; reflexivity.
  - rewrite iteration_first_unbound by assumption. split; reflexivity.
Qed.

(** A loop stopped at a progress line. *)
Lemma history_stopped w :
  steady cfg = true -> loop_completed E cfg X y = false ->
  fst (perturb E V cfg X y w) = expected_outcome E cfg X y V /\
  trace (snd (perturb E V cfg X y w)) = trace w ++ expected_trace E cfg X y V.
Proof.
  intros Hs Hdone.
  pose proof (proj1 steady_period Hs) as Hm.
  unfold expected_outcome, expected_trace, interrupted_pass, interruption.
  rewrite Hdone, Hs.
  unfold loop_completed in Hdone. apply Nat.eqb_neq in Hdone.
  unfold completed_passes in *. rewrite Hs in *.
  set (k := passes_before_failure E cfg X y (nb_iter cfg) 0) in *.
  pose proof (passes_before_failure_le (nb_iter cfg) 0) as Hle. fold k in Hle.
  assert (Hlt : (k < nb_iter cfg)%nat) by lia.
  pose proof (loop_ok_prefix (nb_iter cfg) 0) as Hok. fold k in Hok.
  pose proof (first_failure (nb_iter cfg) 0 Hlt) as Hfail. fold k in Hfail.
  cbn [Nat.add] in Hfail.
  rewrite perturb_run. cbv zeta. fold G nz. unfold attack_loop. fold pi0.
  replace (seq 0 (nb_iter cfg)) with (seq 0 k ++ k :: seq (S k) (nb_iter cfg - S k)).
  2:{ replace (nb_iter cfg) with (k + S (nb_iter cfg - S k))%nat at 2 by lia.
      rewrite seq_app. reflexivity. }
  change pi0 with (coupling_at E cfg X y 0) in *.
  rewrite (loop_stops E V cfg X y G nz (seq 0 k) k _ Hm _ None w Hok).
  2:{ rewrite (loop_coupling_at k 0). cbn [Nat.add]. rewrite report_fails_line_fails.
      exact Hfail. }
  cbn [fst snd trace].
  rewrite (loop_coupling_at k 0), (loop_events_passes k 0). cbn [Nat.add].
  rewrite round_call_projection_call. unfold scored_at.
  rewrite <- scored_image_clamped. split; reflexivity.
Qed.

(** Every run. *)
Lemma perturb_history w :
  fst (perturb E V cfg X y w) = expected_outcome E cfg X y V /\
  trace (snd (perturb E V cfg X y w)) = trace w ++ expected_trace E cfg X y V.
Proof.
  destruct (loop_completed E cfg X y) eqn:Hdone.
  - destruct (history_completed w Hdone) as (Ho & _ & Ht). auto.
  - destruct (steady cfg) eqn:Hs.
    + apply history_stopped; assumption.
    + apply history_unsteady; [exact Hs|].
      unfold loop_completed, completed_passes in Hdone. rewrite Hs in Hdone.
      apply Nat.eqb_neq in Hdone. lia.
Qed.

End History.

(** ** When a call returns, and what it has done by then *)

Lemma tenth_next n :
  (if ((Z.of_nat n + 1) mod 10 =? 0)%Z
   then S n / 10 = S (n / 10) /\ (Z.of_nat n + 1 = 10 * (Z.of_nat (n / 10) + 1))%Z
   else S n / 10 = n / 10)%nat.
Proof.
  pose proof (Nat.div_mod_eq n 10) as H1.
  pose proof (Nat.mod_upper_bound n 10 ltac:(discriminate)) as H2.
  pose proof (Nat.div_mod_eq (S n) 10) as H3.
  pose proof (Nat.mod_upper_bound (S n) 10 ltac:(discriminate)) as H4.
  pose proof (Z.div_mod (Z.of_nat n + 1) 10 ltac:(discriminate)) as H5.
  pose proof (Z.mod_pos_bound (Z.of_nat n + 1) 10 ltac:(reflexivity)) as H6.
  destruct (Z.eqb_spec ((Z.of_nat n + 1) mod 10) 0) as [Hd|Hd]; lia.
Qed.

(** The iterations whose number is a multiple of ten. *)
Lemma tenths n :
  map (fun t => (Z.of_nat t + 1)%Z)
      (List.filter (fun t => ((Z.of_nat t + 1) mod 10 =? 0)%Z) (seq 0 n)) =
  map (fun k => (10 * (Z.of_nat k + 1))%Z) (seq 0 (n / 10)).
Proof.
  induction n as [|n IH]; [reflexivity|].
  rewrite seq_S, List.filter_app, List.map_app, IH. cbn [seq List.filter Nat.add].
  pose proof (tenth_next n) as Hn.
  destruct ((Z.of_nat n + 1) mod 10 =? 0)%Z.
  - destruct Hn as [-> Hn]. rewrite seq_S, List.map_app. cbn [map Nat.add].
    rewrite Hn. reflexivity.
  - rewrite Hn. cbn [map]. apply app_nil_r.
Qed.

Section Runs.
Context {cost_t idx_t : Type}.
Variable E : collaborators cost_t idx_t.
Variable V : verdicts.
Variable cfg : config.

Lemma loop_ok_silent X y G nz b ts :
  Forall (fun t => prints cfg t = false) ts ->
  forall pi, loop_ok E cfg X y G nz b ts pi = true.
Proof.
  induction 1 as [|t ts Ht _ IH]; intros pi; [reflexivity|].
  cbn [loop_ok]. unfold report_fails. rewrite Ht, IH. reflexivity.
Qed.

Lemma prints_before_tenth t : (t < 9)%nat -> prints cfg t = false.
Proof.
  intros Ht. unfold prints.
  rewrite Z.mod_small by lia.
  destruct (Z.eqb_spec (Z.of_nat t + 1) 0); [lia|]. apply andb_false_r.
Qed.

Lemma quiet_never_prints :
  verbose cfg = false \/ (nb_iter cfg < 10)%nat ->
  Forall (fun t => prints cfg t = false) (seq 0 (nb_iter cfg)).
Proof.
  intros Hq. apply List.Forall_forall. intros t Ht. apply in_seq in Ht.
  destruct Hq as [Hv|Hn].
  - unfold prints. rewrite Hv. reflexivity.
  - apply prints_before_tenth. lia.
Qed.

Lemma func_calls_loop_self X y G nz ts : forall pi a,
  func_calls (loop_self E cfg X y G nz ts pi a) = (func_calls a + Z.of_nat (length ts))%Z.
Proof.
  induction ts as [|t ts IH]; intros pi a; cbn [loop_self length]; [lia|].
  rewrite IH. cbn. lia.
Qed.

End Runs.

(** With no progress line due the loop runs all of its passes, when
    every pass projects. *)
Lemma quiet_loop_completed {cost_t idx_t : Type}
    (E : collaborators cost_t idx_t) (cfg : config) (X : tensor) (y : labels) :
  verbose cfg = false \/ (nb_iter cfg < 10)%nat ->
  loop_completed E cfg X y = steady cfg || (nb_iter cfg =? 0)%nat.
Proof.
  intros Hquiet. unfold loop_completed, completed_passes.
  destruct (steady cfg); cbn [orb].
  2:{ destruct (nb_iter cfg); reflexivity. }
  apply Nat.eqb_eq.
  pose proof (quiet_never_prints cfg Hquiet) as Hsilent.
  rewrite List.Forall_forall in Hsilent.
  assert (Hgen : forall n a, (a + n <= nb_iter cfg)%nat ->
                             passes_before_failure E cfg X y n a = n).
  { induction n as [|n IH]; intros a Ha; cbn [passes_before_failure]; [reflexivity|].
    unfold line_fails. rewrite <- prints_line_due, Hsilent by (apply in_seq; lia).
    cbn [andb]. rewrite IH by lia. reflexivity. }
  apply Hgen. lia.
Qed.

(** X1: with [verbose] off, or with fewer than ten iterations, the
    progress line is never evaluated: [perturb] returns an image
    exactly when [nb_iter] is 0 or the period is -1 or 1, and no check
    after the loop stops the call; when a check after the loop does
    stop it, the call raises the constraint violation.  With period 0
    and at least one iteration it raises the division error in the
    first iteration, after a single [predict] call. *)
Theorem quiet_call_outcome {cost_t idx_t : Type}
    (E : collaborators cost_t idx_t) (V : verdicts) (cfg : config)
    (X : tensor) (y : labels) (w : world) :
  verbose cfg = false \/ (nb_iter cfg < 10)%nat ->
  ((exists image, fst (perturb E V cfg X y w) = Return image) <->
   ((nb_iter cfg = 0%nat \/ capacity_proj_mod cfg = (-1)%Z \/ capacity_proj_mod cfg = 1%Z) /\
    validated E cfg X y V = true)) /\
  ((nb_iter cfg = 0%nat \/ capacity_proj_mod cfg = (-1)%Z \/ capacity_proj_mod cfg = 1%Z) ->
   validated E cfg X y V = false ->
   fst (perturb E V cfg X y w) = Raise ConstraintViolation) /\
  ((1 <= nb_iter cfg)%nat -> capacity_proj_mod cfg = 0%Z ->
   perturb E V cfg X y w =
     (Raise ZeroDivisionError,
      World (after_scoring E cfg X y (initialize_coupling E X) (self w))
            (trace w ++ [CallPredict (scored_image E cfg X (initialize_coupling E X))]))).
Proof.
  intros Hquiet.
  pose proof (proj1 (perturb_history E V cfg X y w)) as Hout.
  pose proof (quiet_loop_completed E cfg X y Hquiet) as Hdone.
  unfold expected_outcome in Hout. rewrite Hdone in Hout.
  assert (Hloop : steady cfg || (nb_iter cfg =? 0)%nat = true <->
                  (nb_iter cfg = 0%nat \/
                   capacity_proj_mod cfg = (-1)%Z \/ capacity_proj_mod cfg = 1%Z)).
  { rewrite orb_true_iff, steady_period, Nat.eqb_eq. tauto. }
  split; [split|split].
  - intros [image Hret]. rewrite Hret in Hout.
    destruct (steady cfg || (nb_iter cfg =? 0)%nat) eqn:Hl; [|discriminate].
    destruct (validated E cfg X y V); [|discriminate].
    split; [apply Hloop; reflexivity | reflexivity].
  - intros [Hm Hvalid]. apply Hloop in Hm. rewrite Hm, Hvalid in Hout.
    eexists. exact Hout.
  - intros Hm Hvalid. apply Hloop in Hm. rewrite Hm, Hvalid in Hout. exact Hout.
  - intros Hn Hm. unfold perturb, attack_loop.
    destruct (nb_iter cfg) as [|n]; [lia|].
    cbn [seq for_each]. unfold bind.
    rewrite iteration_cases. cbv zeta. rewrite project_zero by exact Hm.
    reflexivity.
Qed.

Lemma quiet_call_outcome_witness :
  let c := Demo.cfg 12 (-1) false false in
  (verbose c = false \/ (nb_iter c < 10)%nat) /\
  exists image, fst (perturb Demo.E Demo.V c Demo.X Demo.y Demo.fresh) = Return image.
Proof.
  intro c.
  assert (Hq : verbose c = false \/ (nb_iter c < 10)%nat) by (left; reflexivity).
  split; [exact Hq|].
  apply (proj1 (quiet_call_outcome Demo.E Demo.V c Demo.X Demo.y Demo.fresh Hq)).
  split; [right; left; reflexivity | reflexivity].
Defined.

(** X2: a call that returns has called [predict] once per iteration.
    With period -1 it has called [dual_projection] once per iteration
    and the capacity-constrained projection only for the
    post-processing; otherwise it has never called [dual_projection]
    and has called the capacity-constrained projection once per
    iteration, and once more for the post-processing. *)
Theorem calls_of_a_returned_call {cost_t idx_t : Type}
    (E : collaborators cost_t idx_t) (V : verdicts) (cfg : config)
    (X : tensor) (y : labels) (w : world) (image : tensor) (w' : world) :
  perturb E V cfg X y w = (Return image, w') ->
  exists new,
    trace w' = trace w ++ new /\
    calls is_predict new = nb_iter cfg /\
    calls is_dual_projection new =
      (if (capacity_proj_mod cfg =? -1)%Z then nb_iter cfg else 0%nat) /\
    calls is_capacity_projection new =
      ((if (capacity_proj_mod cfg =? -1)%Z then 0 else nb_iter cfg) +
       (if postprocess cfg then 1 else 0))%nat.
Proof.
  intros Hrun.
  destruct (perturb_returned E V cfg X y w image w' Hrun)
    as (_ & _ & _ & _ & Htrace).
  cbv zeta in Htrace. eexists. split; [exact Htrace|].
  assert (Hp1 : forall e, is_predict e = true ->
                          is_predict e = true \/ is_projection e = true) by auto.
  assert (Hp2 : forall e, is_dual_projection e = true ->
                          is_predict e = true \/ is_projection e = true)
    by (intros []; cbn; auto).
  assert (Hp3 : forall e, is_capacity_projection e = true ->
                          is_predict e = true \/ is_projection e = true)
    by (intros []; cbn; auto).
  repeat split.
  - rewrite !calls_app, calls_final by exact Hp1.
    rewrite (calls_loop E V cfg is_predict 1) by
      (try exact Hp1; intros pi; unfold round_call;
       destruct (_ =? -1)%Z; reflexivity).
    rewrite length_seq.
    unfold postprocess_events.
    destruct (postprocess cfg), (verbose cfg); cbn; lia.
  - rewrite !calls_app, calls_final by exact Hp2.
    rewrite (calls_loop E V cfg is_dual_projection
               (if (capacity_proj_mod cfg =? -1)%Z then 1 else 0)) by
      (try exact Hp2; intros pi; unfold round_call;
       destruct (_ =? -1)%Z; reflexivity).
    rewrite length_seq.
    unfold postprocess_events.
    destruct (_ =? -1)%Z, (postprocess cfg), (verbose cfg); cbn; lia.
  - rewrite !calls_app, calls_final by exact Hp3.
    rewrite (calls_loop E V cfg is_capacity_projection
               (if (capacity_proj_mod cfg =? -1)%Z then 0 else 1)) by
      (try exact Hp3; intros pi; unfold round_call;
       destruct (_ =? -1)%Z; reflexivity).
    rewrite length_seq.
    unfold postprocess_events.
    destruct (_ =? -1)%Z, (postprocess cfg), (verbose cfg); cbn; lia.
Qed.

Lemma calls_of_a_returned_call_witness :
  let c := Demo.cfg 3 (-1) false true in
  let r := perturb Demo.E Demo.V c Demo.X Demo.y Demo.fresh in
  r = (Return (Demo.returned r), snd r) /\
  exists new,
    trace (snd r) = trace Demo.fresh ++ new /\
    calls is_predict new = 3%nat /\
    calls is_dual_projection new = 3%nat /\
    calls is_capacity_projection new = 1%nat.
Proof.
  intros c r.
  assert (Hrun : r = (Return (Demo.returned r), snd r)) by (vm_compute; reflexivity).
  split; [exact Hrun|].
  exact (calls_of_a_returned_call Demo.E Demo.V c Demo.X Demo.y Demo.fresh
           (Demo.returned r) (snd r) Hrun).
Defined.

Lemma filter_prints (cfg : config) n :
  map (fun t => (Z.of_nat t + 1)%Z) (List.filter (prints cfg) (seq 0 n)) =
    if verbose cfg
    then map (fun k => (10 * (Z.of_nat k + 1))%Z) (seq 0 (n / 10))
    else [].
Proof.
  unfold prints. destruct (verbose cfg).
  - rewrite <- tenths. reflexivity.
  - cbn [andb]. induction (seq 0 n) as [|t ts IH]; [reflexivity | exact IH].
Qed.

(** X3: a call that returns has printed one progress line for each of
    the iterations 10, 20, ... up to [nb_iter], in this order, when
    [verbose] is on, and none when it is off. *)
Theorem progress_lines_of_a_returned_call {cost_t idx_t : Type}
    (E : collaborators cost_t idx_t) (V : verdicts) (cfg : config)
    (X : tensor) (y : labels) (w : world) (image : tensor) (w' : world) :
  perturb E V cfg X y w = (Return image, w') ->
  exists new,
    trace w' = trace w ++ new /\
    progress_lines new =
      if verbose cfg
      then map (fun k => (10 * (Z.of_nat k + 1))%Z) (seq 0 (nb_iter cfg / 10))
      else [].
Proof.
  intros Hrun.
  destruct (perturb_returned E V cfg X y w image w' Hrun)
    as (_ & _ & _ & _ & Htrace).
  cbv zeta in Htrace. eexists. split; [exact Htrace|].
  rewrite !progress_lines_app, progress_lines_loop, filter_prints.
  assert (Hfinal : forall nz pi, progress_lines (final_events E V cfg X nz pi) = [])
    by reflexivity.
  assert (Hpost : forall G nz pi,
             progress_lines (postprocess_events E V cfg X G nz pi) = []).
  { intros G nz pi. unfold postprocess_events.
    destruct (postprocess cfg), (verbose cfg); reflexivity. }
  rewrite Hfinal, Hpost, !app_nil_r. reflexivity.
Qed.

Lemma progress_lines_of_a_returned_call_witness :
  let c := Sample.cfg 25 1 true in
  let r := perturb Sample.E Demo.V c Demo.X Demo.y Demo.fresh in
  r = (Return (Demo.returned r), snd r) /\
  exists new,
    trace (snd r) = trace Demo.fresh ++ new /\
    progress_lines new = [10; 20]%Z.
Proof.
  intros c r.
  assert (Hrun : r = (Return (Demo.returned r), snd r)) by (vm_compute; reflexivity).
  split; [exact Hrun|].
  exact (progress_lines_of_a_returned_call Sample.E Demo.V c Demo.X Demo.y Demo.fresh
           (Demo.returned r) (snd r) Hrun).
Defined.

(** X4: the image a call returns is the decode of the coupling reached
    from the initial coupling by [nb_iter] rounds, each round an ascent
    step followed by the projection of the period ([dual_projection]
    for period -1, the capacity-constrained projection otherwise);
    the post-processing projection and the clamp come on top as
    configured. *)
Theorem returned_image_after_rounds {cost_t idx_t : Type}
    (E : collaborators cost_t idx_t) (V : verdicts) (cfg : config)
    (X : tensor) (y : labels) (w : world) (image : tensor) (w' : world) :
  perturb E V cfg X y w = (Return image, w') ->
  let G := initialize_cost E X (inf cfg) in
  let nz := Tensor.sum_dims X in
  let step := fun pi =>
    let stepped := ascent cfg pi (backward E pi X y) in
    if (capacity_proj_mod cfg =? -1)%Z
    then fst (dual_projection E stepped X (cost G) (budget cfg nz)
                (dual_max_iter cfg) (grad_tol cfg) (int_tol cfg))
    else dual_capacity_constrained_projection E stepped X (cost G) (budget cfg nz)
           (forward_idx G) (backward_idx G) (coupling2adversarial E) in
  let last := Nat.iter (nb_iter cfg) step (initialize_coupling E X) in
  image = output cfg (coupling2adversarial E (final_coupling E cfg X G nz last) X).
Proof.
  intros Hrun G nz step last.
  destruct (perturb_returned E V cfg X y w image w' Hrun) as (_ & _ & Himage & _).
  cbv zeta in Himage. rewrite Himage, loop_coupling_iter.
  fold G nz. subst last.
  replace step with (fun p => fst (round E cfg X y G nz p)); [reflexivity|].
  subst step. unfold round, capacity_projected. 
  destruct (_ =? -1)%Z; reflexivity.
Qed.

Lemma returned_image_after_rounds_witness :
  let c := Demo.cfg 2 1 true false in
  let r := perturb Demo.E Demo.V c Demo.X Demo.y Demo.fresh in
  r = (Return (Demo.returned r), snd r) /\
  Demo.returned r =
    Tensor.clamp 0 1
      (Tensor.scale 3
         (ascent c (ascent c Demo.X Demo.X) Demo.X)).
Proof.
  intros c r.
  assert (Hrun : r = (Return (Demo.returned r), snd r)) by (vm_compute; reflexivity).
  split; [exact Hrun|].
  exact (returned_image_after_rounds Demo.E Demo.V c Demo.X Demo.y Demo.fresh
           (Demo.returned r) (snd r) Hrun).
Defined.

(** X5: on an empty batch with [verbose] on, period -1 or 1 and at
    least ten iterations, [perturb] raises the division error at the
    first progress line (the accuracy is divided by the batch size):
    ten [predict] calls have been made and [func_calls] has grown by
    ten, and no image is returned. *)
Theorem empty_batch_stops_at_progress_line {cost_t idx_t : Type}
    (E : collaborators cost_t idx_t) (V : verdicts) (cfg : config)
    (y : labels) (w : world) :
  verbose cfg = true ->
  (10 <= nb_iter cfg)%nat ->
  capacity_proj_mod cfg = (-1)%Z \/ capacity_proj_mod cfg = 1%Z ->
  fst (perturb E V cfg [] y w) = Raise ZeroDivisionError /\
  func_calls (self (snd (perturb E V cfg [] y w))) = (func_calls (self w) + 10)%Z /\
  exists new,
    trace (snd (perturb E V cfg [] y w)) = trace w ++ new /\
    calls is_predict new = 10%nat.
Proof.
  intros Hv Hn Hm.
  rewrite perturb_run. cbv zeta. unfold attack_loop.
  replace (nb_iter cfg) with (9 + S (nb_iter cfg - 10))%nat by lia.
  rewrite seq_app. cbn [seq Nat.add].
  rewrite (loop_stops E V cfg [] y _ _ (seq 0 9) 9 _ Hm).
  - cbn [fst snd self trace]. split; [reflexivity|]. split.
    + unfold counted. cbn [func_calls incr_func_calls add_num_iter add_run_time
                             after_scoring record_loss].
      rewrite func_calls_loop_self, length_seq. lia.
    + eexists. split; [reflexivity|].
      rewrite calls_app.
      rewrite (calls_loop E V cfg is_predict 1) by
        (auto; intros pi; unfold round_call; destruct (_ =? -1)%Z; reflexivity).
      rewrite length_seq. unfold round_call.
      destruct (_ =? -1)%Z; reflexivity.
  - apply loop_ok_silent. apply List.Forall_forall. intros t Ht.
    apply in_seq in Ht. apply prints_before_tenth. lia.
  - unfold report_fails, prints. rewrite Hv. reflexivity.
Qed.

Lemma empty_batch_stops_at_progress_line_witness :
  let c := Sample.cfg 12 (-1) true in
  (verbose c = true /\ (10 <= nb_iter c)%nat /\
   (capacity_proj_mod c = (-1)%Z \/ capacity_proj_mod c = 1%Z)) /\
  fst (perturb Sample.E Demo.V c [] Demo.y Demo.fresh) = Raise ZeroDivisionError /\
  func_calls (self (snd (perturb Sample.E Demo.V c [] Demo.y Demo.fresh))) = 10%Z.
Proof.
  intro c.
  assert (H1 : verbose c = true) by reflexivity.
  assert (H2 : (10 <= nb_iter c)%nat) by (cbn; lia).
  assert (H3 : capacity_proj_mod c = (-1)%Z \/ capacity_proj_mod c = 1%Z)
    by (left; reflexivity).
  split; [auto|].
  destruct (empty_batch_stops_at_progress_line Sample.E Demo.V c Demo.y Demo.fresh
              H1 H2 H3) as (Hout & Hcalls & _).
  split; [exact Hout | exact Hcalls].
Defined.

(** X6: with [nb_iter = 0] the loop body never runs: whatever the
    period (0 and 2 included), [perturb] goes straight to the checks
    after the loop, run on the initial coupling; when none of them
    stops the call it returns the decode of the initial coupling
    (post-processed and clamped as configured), and otherwise it
    raises the constraint violation.  Either way the model is never
    queried and [lst_loss], [lst_acc], [run_time], [num_iter] and
    [func_calls] are left as they were.  (What [initialize_cost]
    stores in [self], the cost and the index maps, is not among the
    fields followed here.) *)
Theorem no_iteration {cost_t idx_t : Type}
    (E : collaborators cost_t idx_t) (V : verdicts) (cfg : config)
    (X : tensor) (y : labels) (w : world) :
  nb_iter cfg = 0%nat ->
  let G := initialize_cost E X (inf cfg) in
  let pi0 := initialize_coupling E X in
  let last :=
    if postprocess cfg
    then dual_capacity_constrained_projection E pi0 X (cost G) (mass_budget cfg X)
           (forward_idx G) (backward_idx G) (coupling2adversarial E)
    else pi0 in
  let decoded := coupling2adversarial E last X in
  fst (perturb E V cfg X y w) =
    (if validated E cfg X y V
     then Return (if clipping cfg
                  then clamped (clip_min cfg) (clip_max cfg) decoded
                  else decoded)
     else Raise ConstraintViolation) /\
  lst_loss (self (snd (perturb E V cfg X y w))) = lst_loss (self w) /\
  lst_acc (self (snd (perturb E V cfg X y w))) = lst_acc (self w) /\
  run_time (self (snd (perturb E V cfg X y w))) = run_time (self w) /\
  num_iter (self (snd (perturb E V cfg X y w))) = num_iter (self w) /\
  func_calls (self (snd (perturb E V cfg X y w))) = func_calls (self w) /\
  exists new,
    trace (snd (perturb E V cfg X y w)) = trace w ++ new /\
    scored_images new = [] /\
    calls is_dual_projection new = 0%nat.
Proof.
  intros Hz G pi0 last decoded.
  assert (Hdone : loop_completed E cfg X y = true).
  { unfold loop_completed, completed_passes. rewrite Hz.
    destruct (steady cfg); reflexivity. }
  destruct (history_completed E V cfg X y w Hdone) as (Hout & Hself & Htrace).
  rewrite Hz in Hself. cbn [seq loop_self] in Hself.
  rewrite Hout, Hself, Htrace.
  split.
  { unfold expected_outcome. rewrite Hdone.
    unfold returned_image, last_coupling. rewrite Hz. reflexivity. }
  repeat (split; [reflexivity|]).
  eexists. split; [reflexivity|].
  unfold expected_trace, completed_passes. rewrite Hdone, Hz.
  replace (if steady cfg then passes_before_failure E cfg X y 0 0 else 0%nat)
    with 0%nat by (destruct (steady cfg); reflexivity).
  cbn [seq flat_map app].
  assert (Hquiet : forall evs, Forall (fun e => is_predict e = false /\
                                               is_dual_projection e = false) evs ->
                               scored_images evs = [] /\ calls is_dual_projection evs = 0%nat).
  { induction 1 as [|e evs [He1 He2] _ [IH1 IH2]]; [split; reflexivity|].
    unfold scored_images, calls in *. cbn [flat_map List.filter].
    rewrite He2, IH1. split; [|exact IH2].
    destruct e; try discriminate; reflexivity. }
  apply Hquiet.
  assert (Hprefix : forall evs, Forall (fun e => is_predict e = false /\
                                                is_dual_projection e = false) evs ->
                                Forall (fun e => is_predict e = false /\
                                                is_dual_projection e = false)
                                       (until_failure evs)).
  { induction 1 as [|e evs He _ IH]; [constructor|].
    cbn [until_failure]. constructor; [exact He|].
    destruct (finding e); [exact IH | constructor]. }
  assert (Hfinal : Forall (fun e => is_predict e = false /\ is_dual_projection e = false)
                          (final_checks E cfg X y V))
    by (repeat constructor).
  assert (Hpost : Forall (fun e => is_predict e = false /\ is_dual_projection e = false)
                         (postprocess_pass E cfg X y V)).
  { unfold postprocess_pass. destruct (postprocess cfg), (verbose cfg);
      repeat constructor. }
  unfold closing, recorded.
  destruct (forallb finding _); [|apply Hprefix, Hfinal].
  apply Forall_app. split; [exact Hfinal|].
  destruct (strict_postprocess V); [apply Hprefix, Hpost | exact Hpost].
Qed.

Lemma no_iteration_witness :
  let c := Demo.cfg 0 2 false false in
  nb_iter c = 0%nat /\
  fst (perturb Demo.E Demo.V c Demo.X Demo.y Demo.fresh) =
    Return [[3; 0; 3 * 0.5]%Q].
Proof.
  intro c.
  assert (Hz : nb_iter c = 0%nat) by reflexivity.
  split; [exact Hz|].
  exact (proj1 (no_iteration Demo.E Demo.V c Demo.X Demo.y Demo.fresh Hz)).
Defined.

(** ** The logs and the clock *)

Section Advances.
Variable R : world -> world -> Prop.
Hypothesis R_refl : forall w, R w w.
Hypothesis R_trans : forall w1 w2 w3, R w1 w2 -> R w2 w3 -> R w1 w3.


Lemma advances_raise {A} e : advances R (@raise world A e).
Proof using R_refl. intros w. apply R_refl. Qed.


End Advances.

Section Related.
Variable R : world -> world -> Prop.

Lemma related_ret {A} (a : A) : related R (ret a) (ret a).
Proof. intros w1 w2 H. split; [reflexivity | exact H]. Qed.

Lemma related_raise {A} e : related R (@raise world A e) (raise e).
Proof. intros w1 w2 H. split; [reflexivity | exact H]. Qed.

Lemma related_bind {A B} (m1 m2 : M A) (k1 k2 : A -> M B) :
  related R m1 m2 -> (forall a, related R (k1 a) (k2 a)) ->
  related R (bind m1 k1) (bind m2 k2).
Proof.
  intros Hm Hk w1 w2 Hw. unfold bind.
  destruct (Hm w1 w2 Hw) as [Ho Hr].
  destruct (m1 w1) as [[a1|e1] w1'], (m2 w2) as [[a2|e2] w2'];
    cbn [fst snd] in *; try discriminate.
  - injection Ho as ->. apply Hk, Hr.
  - injection Ho as ->. split; [reflexivity | exact Hr].
Qed.

Lemma related_for_each {S} (b1 b2 : nat -> S -> M S) ts :
  (forall t s, related R (b1 t s) (b2 t s)) ->
  forall s, related R (for_each ts b1 s) (for_each ts b2 s).
Proof.
  intros Hb. induction ts as [|t ts IH]; intros s; cbn [for_each].
  - apply related_ret.
  - apply related_bind; auto.
Qed.
End Related.

(** *** The count of line 71 *)

Section Logs.
Context {cost_t idx_t : Type}.
Variable E : collaborators cost_t idx_t.
Variable V : verdicts.
Variable cfg : config.
Variable y : labels.













End Logs.



(** ** The device clock

    The times measured by the CUDA events go to [self.run_time] and to
    the progress line and nowhere else. *)

Lemma emit_same_but_clock e1 e2 :
  forget_clock e1 = forget_clock e2 -> related same_but_clock (emit e1) (emit e2).
Proof.
  intros He w1 w2 [Hs Ht]. split; [reflexivity|]. split; cbn [emit snd self trace].
  - exact Hs.
  - rewrite !List.map_app, Ht. cbn [map]. rewrite He. reflexivity.
Qed.

Lemma update_same_but_clock f1 f2 :
  (forall a1 a2, forget_run_time a1 = forget_run_time a2 ->
                 forget_run_time (f1 a1) = forget_run_time (f2 a2)) ->
  related same_but_clock (update f1) (update f2).
Proof.
  intros Hf w1 w2 [Hs Ht]. split; [reflexivity|]. split; cbn [update snd self trace].
  - apply Hf, Hs.
  - exact Ht.
Qed.

Lemma conclude_related V s ok :
  related same_but_clock (conclude V s ok) (conclude V s ok).
Proof.
  unfold conclude. destruct ok; [apply related_ret|].
  destruct (fatal V s); [apply related_raise | apply related_ret].
Qed.

Lemma check_related V s (m : M bool) :
  (exists e ok, m = (emit e ;;; conclude V s ok)) -> related same_but_clock m m.
Proof.
  intros (e & ok & ->).
  apply related_bind; [apply emit_same_but_clock; reflexivity | intros; apply conclude_related].
Qed.

Section Clock.
Context {cost_t idx_t : Type}.
Variable E : collaborators cost_t idx_t.
Variable V : verdicts.
Variable cfg : config.
Variables clock1 clock2 : nat -> Q.

Local Abbreviation E1 := (with_clock clock1 E).
Local Abbreviation E2 := (with_clock clock2 E).
Local Abbreviation same := (related same_but_clock).

Ltac fields H :=
  unfold forget_run_time in *; cbn in *; injection H as ? ? ? ?; congruence.

Lemma gradient_step_clock X y pi :
  same (gradient_step E1 cfg X y pi) (gradient_step E2 cfg X y pi).
Proof.
  unfold gradient_step, call_predict. cbv zeta.
  apply related_bind; [|intros sc].
  - apply related_bind; [apply emit_same_but_clock; reflexivity | intros; apply related_ret].
  - apply related_bind; [|intros; apply related_ret].
    apply update_same_but_clock. intros a1 a2 H. fields H.
Qed.

Lemma project_clock t X G nz pi n :
  same (project E1 cfg t X G nz pi n) (project E2 cfg t X G nz pi n).
Proof.
  unfold project, call_dual_projection, call_capacity_projection. cbv zeta.
  destruct (_ =? -1)%Z.
  { apply related_bind; [|intros; apply related_ret].
    apply related_bind; [apply emit_same_but_clock; reflexivity | intros; apply related_ret]. }
  destruct (_ =? 0)%Z; [apply related_raise|].
  destruct (_ =? 0)%Z; [|apply related_ret].
  apply related_bind; [|intros; apply related_ret].
  apply related_bind; [apply emit_same_but_clock; reflexivity | intros; apply related_ret].
Qed.

Lemma account_clock t n : same (account E1 t n) (account E2 t n).
Proof.
  unfold account.
  apply related_bind; [|intros _].
  { apply update_same_but_clock. intros a1 a2 H. fields H. }
  destruct n as [k|]; [|apply related_raise].
  apply related_bind; [|intros _].
  { apply update_same_but_clock. intros a1 a2 H. fields H. }
  apply related_bind; [|intros _; apply related_ret].
  apply update_same_but_clock. intros a1 a2 H. fields H.
Qed.

Lemma report_clock t b loss correct n :
  same (report E1 cfg t b loss correct n) (report E2 cfg t b loss correct n).
Proof.
  unfold report.
  destruct (_ && _); [|apply related_ret].
  destruct (_ || _); [apply related_raise|].
  apply emit_same_but_clock. reflexivity.
Qed.

Lemma constraint_check_clock s X nz pi tn tm tc verb :
  same (constraint_check V s X nz pi tn tm tc verb)
       (constraint_check V s X nz pi tn tm tc verb).
Proof.
  unfold constraint_check.
  apply related_bind; [eapply check_related; eexists _, _; reflexivity | intros _].
  apply related_bind; [eapply check_related; eexists _, _; reflexivity | intros _].
  apply related_bind; [eapply check_related; eexists _, _; reflexivity | intros _].
  apply related_ret.
Qed.

Lemma iteration_clock X y G nz t loc :
  same (iteration E1 V cfg X y G nz t loc) (iteration E2 V cfg X y G nz t loc).
Proof.
  unfold iteration.
  apply related_bind; [apply gradient_step_clock | intros g].
  apply related_bind; [apply project_clock | intros p].
  apply related_bind; [apply account_clock | intros n].
  apply related_bind; [apply report_clock | intros _].
  apply related_bind; [apply constraint_check_clock | intros _].
  apply related_ret.
Qed.

Lemma perturb_clock X y : same (perturb E1 V cfg X y) (perturb E2 V cfg X y).
Proof.
  unfold perturb, attack_loop, final_check, postprocess_step. cbv zeta.
  apply related_bind; [|intros loc].
  { apply (related_for_each same_but_clock
             (iteration E1 V cfg X y _ _) (iteration E2 V cfg X y _ _)).
    intros t s. apply iteration_clock. }
  apply related_bind; [|intros adv].
  { apply related_bind; [eapply check_related; eexists _, _; reflexivity | intros _].
    apply related_bind; [apply constraint_check_clock | intros _].
    apply related_ret. }
  apply related_bind; [|intros r; apply related_ret].
  unfold call_capacity_projection.
  destruct (postprocess cfg); [|apply related_ret].
  apply related_bind; [|intros _].
  { destruct (verbose cfg); [apply emit_same_but_clock; reflexivity | apply related_ret]. }
  apply related_bind; [|intros pi'].
  { apply related_bind; [apply emit_same_but_clock; reflexivity | intros; apply related_ret]. }
  apply related_bind; [eapply check_related; eexists _, _; reflexivity | intros _].
  apply related_bind; [apply constraint_check_clock | intros _].
  apply related_ret.
Qed.

Lemma run_time_loop_self X y G nz ts : forall pi a,
  run_time (loop_self E cfg X y G nz ts pi a) =
  fold_left Qplus (map (elapsed_time E) ts) (run_time a).
Proof.
  induction ts as [|t ts IH]; intros pi a; cbn [loop_self map fold_left]; [reflexivity|].
  rewrite IH. reflexivity.
Qed.

End Clock.

(** X8: what the device clock measures reaches [self.run_time] and the
    time shown in the progress line, nothing else: under any two
    clocks a call ends the same way (the same image, or the same
    exception), leaves the same logs and counters in [self] and makes
    the same calls and checks with the same arguments. *)
Theorem clock_only_times {cost_t idx_t : Type}
    (E : collaborators cost_t idx_t) (V : verdicts) (cfg : config)
    (clock1 clock2 : nat -> Q) (X : tensor) (y : labels) (w : world) :
  fst (perturb (with_clock clock1 E) V cfg X y w) =
  fst (perturb (with_clock clock2 E) V cfg X y w) /\
  forget_run_time (self (snd (perturb (with_clock clock1 E) V cfg X y w))) =
  forget_run_time (self (snd (perturb (with_clock clock2 E) V cfg X y w))) /\
  map forget_clock (trace (snd (perturb (with_clock clock1 E) V cfg X y w))) =
  map forget_clock (trace (snd (perturb (with_clock clock2 E) V cfg X y w))).
Proof.
  destruct (perturb_clock E V cfg clock1 clock2 X y w w) as [Ho [Hs Ht]].
  - split; reflexivity.
  - auto.
Qed.

(** X9: a call that returns has added to [self.run_time] the times
    measured in the iterations 0, ..., nb_iter - 1, one after the
    other in this order. *)
Theorem run_time_of_a_returned_call {cost_t idx_t : Type}
    (E : collaborators cost_t idx_t) (V : verdicts) (cfg : config)
    (X : tensor) (y : labels) (w w' : world) (image : tensor)
    (Hrun : perturb E V cfg X y w = (Return image, w')) :
  run_time (self w') =
  fold_left Qplus (map (elapsed_time E) (seq 0 (nb_iter cfg))) (run_time (self w)).
Proof.
  destruct (perturb_returned E V cfg X y w image w' Hrun) as (_ & _ & _ & Hself & _).
  rewrite Hself. apply run_time_loop_self.
Qed.

Lemma run_time_of_a_returned_call_witness :
  let c := Sample.cfg 3 1 false in
  let r := perturb Sample.E Demo.V c Demo.X Demo.y Demo.fresh in
  r = (Return (Demo.returned r), snd r) /\
  run_time (self (snd r)) = (0 + 0 + 1 + 2)%Q.
Proof.
  intros c r.
  assert (Hrun : r = (Return (Demo.returned r), snd r)) by (vm_compute; reflexivity).
  split; [exact Hrun|].
  exact (run_time_of_a_returned_call Sample.E Demo.V c Demo.X Demo.y Demo.fresh
           (snd r) (Demo.returned r) Hrun).
Defined.

(** ** How a call can fail *)


Section Failures.
Context {cost_t idx_t : Type}.
Variable E : collaborators cost_t idx_t.
Variable cfg : config.
Variable X : tensor.
Variable y : labels.




End Failures.



(** ** The range of the images *)

Lemma clamp_within lo hi T : (lo <= hi)%Q -> within lo hi (Tensor.clamp lo hi T).
Proof.
  intros Hle. unfold within, Tensor.clamp.
  apply Forall_map. apply List.Forall_forall. intros row _.
  apply Forall_map. apply List.Forall_forall. intros v _. cbn. split.
  - apply Q.min_glb; [apply Q.le_max_r | exact Hle].
  - apply Q.le_min_r.
Qed.

Section Range.
Context {cost_t idx_t : Type}.
Variable E : collaborators cost_t idx_t.
Variable cfg : config.

Lemma scored_images_within X new :
  (clip_min cfg <= clip_max cfg)%Q ->
  Forall (event_shape E cfg X) new ->
  Forall (within (clip_min cfg) (clip_max cfg)) (scored_images new).
Proof.
  intros Hle. induction 1 as [|e new He _ IH]; [constructor|].
  unfold scored_images. cbn [flat_map].
  apply Forall_app. split; [|exact IH].
  destruct e; try constructor; [|constructor].
  cbn in He. destruct He as [pi ->]. apply clamp_within, Hle.
Qed.

End Range.

(** X11: with [clip_min <= clip_max], every image [perturb] gives to
    [predict] has all its entries in [[clip_min, clip_max]], whether
    the call returns or raises and whichever way [clipping] is set;
    the returned image has all its entries in that range when
    [clipping] is set. *)
Theorem images_stay_in_range {cost_t idx_t : Type}
    (E : collaborators cost_t idx_t) (V : verdicts) (cfg : config)
    (X : tensor) (y : labels) (w : world)
    (Hrange : (clip_min cfg <= clip_max cfg)%Q) :
  (exists new,
     trace (snd (perturb E V cfg X y w)) = trace w ++ new /\
     Forall (within (clip_min cfg) (clip_max cfg)) (scored_images new)) /\
  (clipping cfg = true ->
   forall image, fst (perturb E V cfg X y w) = Return image ->
                 within (clip_min cfg) (clip_max cfg) image).
Proof.
  split.
  - destruct (perturb_shape E cfg V X y w) as (new & Htrace & Hshape).
    exists new. split; [exact Htrace|].
    apply (scored_images_within E cfg X); [exact Hrange | exact Hshape].
  - intros Hclip image Hret.
    destruct (perturb_history E V cfg X y w) as [Hout _].
    rewrite Hout in Hret. unfold expected_outcome in Hret.
    destruct (loop_completed E cfg X y); [|discriminate].
    destruct (validated E cfg X y V); [|discriminate].
    injection Hret as <-. unfold returned_image. rewrite Hclip.
    rewrite <- clamp_clamped. apply clamp_within, Hrange.
Qed.

Lemma images_stay_in_range_witness :
  let c := Demo.cfg 2 (-1) true true in
  let r := perturb Demo.E Demo.V c Demo.X Demo.y Demo.fresh in
  (clip_min c <= clip_max c)%Q /\
  Forall (within 0 1) (scored_images (trace (snd r))) /\
  within 0 1 (Demo.returned r).
Proof.
  intros c r.
  assert (Hrange : (clip_min c <= clip_max c)%Q) by (cbn; lra).
  split; [exact Hrange|].
  destruct (images_stay_in_range Demo.E Demo.V c Demo.X Demo.y Demo.fresh Hrange)
    as [(new & Htrace & Hnew) Himage].
  split.
  - unfold r. rewrite Htrace. exact Hnew.
  - apply Himage; reflexivity.
Defined.

(** ** The tensors of the caller

    The only in-place updates of [perturb] are those of lines 77 and
    78, and they go to tensors [perturb] created itself: [pi.grad] and
    a clone.  So every tensor that exists when [perturb] is called is
    left as it is, unless a collaborator writes to it. *)

Section Frame.
Variable l : Store.loc.
Variable v : tensor.

Lemma preserves_bind {A B} (m : Store.SM A) (k : A -> Store.SM B) :
  preserves l v m -> (forall a, preserves l v (k a)) -> preserves l v (bind m k).
Proof. intros Hm Hk. eapply StoreFacts.triple_bind; [exact Hm | exact Hk]. Qed.

Lemma preserves_bind_new {B} (m : Store.SM Store.loc) (k : Store.loc -> Store.SM B) :
  allocates l v m -> (forall l', l' <> l -> preserves l v (k l')) -> preserves l v (bind m k).
Proof.
  intros Hm Hk. eapply StoreFacts.triple_bind; [exact Hm|].
  intros l'. apply StoreFacts.triple_pure. apply Hk.
Qed.

Lemma preserves_ret {A} (a : A) : preserves l v (ret a).
Proof. apply StoreFacts.triple_ret. auto. Qed.

Lemma preserves_raise {A} e : preserves l v (@raise Store.state A e).
Proof. apply StoreFacts.triple_raise. auto. Qed.

Lemma preserves_call {A} (f : Store.foreign A) :
  Store.keeps l f -> preserves l v (Store.call f).
Proof. intros Hf s Hs. apply Hf, Hs. Qed.

Lemma preserves_checked strict (f : Store.foreign bool) :
  Store.keeps l f -> preserves l v (Store.checked strict f).
Proof.
  intros Hf. unfold Store.checked.
  apply preserves_bind; [apply preserves_call, Hf|].
  intros ok. destruct ok; [apply preserves_ret|].
  destruct strict; [apply preserves_raise | apply preserves_ret].
Qed.

Lemma preserves_load l' : preserves l v (Store.load l').
Proof. intros s Hs. exact Hs. Qed.

Lemma preserves_update f : preserves l v (Store.update f).
Proof. intros s Hs. exact Hs. Qed.

Lemma preserves_observe lX : preserves l v (Store.observe lX).
Proof. intros s Hs. exact Hs. Qed.

(** A new cell lies past every cell in use. *)
Lemma allocates_alloc u : allocates l v (Store.alloc u).
Proof.
  intros s Hs. unfold Store.alloc, held in *.
  pose proof (lookup_lt_Some _ _ _ Hs) as Hlt.
  split; [lia|]. cbn [Store.cells]. rewrite lookup_app_l by exact Hlt. exact Hs.
Qed.

Lemma allocates_clone l' : allocates l v (Store.clone l').
Proof.
  unfold Store.clone. eapply StoreFacts.triple_bind; [apply preserves_load|].
  intros u. apply allocates_alloc.
Qed.

Lemma preserves_store l' u : l' <> l -> preserves l v (Store.store l' u).
Proof.
  intros Hne s Hs. unfold Store.store, held in *. cbn [Store.cells].
  rewrite list_lookup_insert_ne by exact Hne. exact Hs.
Qed.

Lemma preserves_of_new (m : Store.SM Store.loc) : allocates l v m -> preserves l v m.
Proof.
  intros Hm. eapply StoreFacts.triple_weaken; [exact Hm | auto |].
  intros l' s [_ Hs]. exact Hs.
Qed.

Context {cost_t idx_t : Type}.
Variable F : Store.collaborators cost_t idx_t.
Variable cfg : config.
Variable lX : Store.loc.
Hypothesis HF : Store.respects l F.

Ltac frame_step :=
  lazymatch goal with
  | |- preserves _ _ (bind (Store.alloc _) _) =>
      apply preserves_bind; [apply preserves_of_new; apply allocates_alloc | intros ?]
  | |- preserves _ _ (bind _ _) => apply preserves_bind; [|intros ?]
  | |- preserves _ _ (ret _) => apply preserves_ret
  | |- preserves _ _ (raise _) => apply preserves_raise
  | |- preserves _ _ (Store.load _) => apply preserves_load
  | |- preserves _ _ (Store.update _) => apply preserves_update
  | |- preserves _ _ (Store.observe _) => apply preserves_observe
  | |- preserves _ _ (Store.call _) => apply preserves_call; apply HF
  | |- preserves _ _ (Store.checked _ _) => apply preserves_checked; apply HF
  | |- preserves _ _ (Store.alloc _) => apply preserves_of_new; apply allocates_alloc
  end.

Lemma gradient_step_preserves y pi :
  pi <> l -> preserves l v (Store.gradient_step F cfg lX y pi).
Proof using HF.
  intros Hpi. unfold Store.gradient_step.
  frame_step; [frame_step|].
  frame_step; [frame_step|].
  frame_step; [frame_step|].
  frame_step.
  frame_step; [frame_step|].
  frame_step; [frame_step|].
  frame_step; [frame_step|].
  apply preserves_bind_new; [apply allocates_alloc|]. intros grad Hgrad.
  frame_step; [frame_step|].
  frame_step; [frame_step|].
  frame_step; [apply preserves_store, Hgrad|].
  frame_step; [frame_step|].
  frame_step; [frame_step|].
  frame_step; [apply preserves_store, Hpi|].
  frame_step.
Qed.

Lemma project_preserves t G nz pi n : preserves l v (Store.project F cfg t lX G nz pi n).
Proof using HF.
  unfold Store.project.
  destruct (_ =? -1)%Z; [repeat frame_step|].
  destruct (_ =? 0)%Z; [frame_step|].
  destruct (_ =? 0)%Z; repeat frame_step.
Qed.

Lemma account_preserves t n : preserves l v (Store.account F t n).
Proof. unfold Store.account. destruct n; repeat frame_step. Qed.

Lemma report_preserves t b n : preserves l v (Store.report cfg t b n).
Proof.
  unfold Store.report. destruct (_ && _); [|frame_step].
  destruct (_ || _); frame_step.
Qed.

Lemma constraint_check_preserves st nz pi tn tm tc verb :
  preserves l v (Store.constraint_check F st lX nz pi tn tm tc verb).
Proof using HF. unfold Store.constraint_check. repeat frame_step. Qed.

Lemma iteration_preserves y b G nz t vars :
  Store.triple (fun s => fst vars <> l /\ held l v s)
    (Store.iteration F cfg lX y b G nz t vars)
    (fun vars' s => fst vars' <> l /\ held l v s)
    (held l v).
Proof using HF.
  apply StoreFacts.triple_pure. intros Hpi. unfold Store.iteration.
  eapply StoreFacts.triple_bind; [apply gradient_step_preserves, Hpi | intros g].
  eapply StoreFacts.triple_bind; [apply project_preserves | intros p].
  eapply StoreFacts.triple_bind; [apply account_preserves | intros n].
  eapply StoreFacts.triple_bind; [apply report_preserves | intros ?].
  eapply StoreFacts.triple_bind; [apply constraint_check_preserves | intros ?].
  eapply StoreFacts.triple_bind; [apply allocates_clone | intros pi'].
  apply StoreFacts.triple_ret. auto.
Qed.

Lemma final_check_preserves nz pi : preserves l v (Store.final_check F cfg lX nz pi).
Proof using HF.
  unfold Store.final_check.
  frame_step; [frame_step|].
  frame_step; [frame_step|].
  frame_step; [frame_step|].
  frame_step; [apply constraint_check_preserves | frame_step].
Qed.

Lemma postprocess_step_preserves G nz pi adv :
  preserves l v (Store.postprocess_step F cfg lX G nz pi adv).
Proof using HF.
  unfold Store.postprocess_step. destruct (postprocess cfg); [|frame_step].
  frame_step; [frame_step|].
  frame_step; [frame_step|].
  frame_step; [frame_step|].
  frame_step; [frame_step|].
  frame_step; [frame_step|].
  frame_step; [apply constraint_check_preserves | frame_step].
Qed.

(** Up to the last line of [perturb]. *)
Lemma perturb_preserves_with y (Q : Store.loc -> Store.state -> Prop) :
  (forall adv, Store.triple (held l v) (Store.output cfg adv) Q (held l v)) ->
  Store.triple (held l v) (Store.perturb F cfg lX y) Q (held l v).
Proof using HF.
  intros Hout. unfold Store.perturb.
  eapply StoreFacts.triple_bind; [apply preserves_observe | intros ?].
  eapply StoreFacts.triple_bind; [apply preserves_load | intros x].
  eapply StoreFacts.triple_bind; [apply preserves_observe | intros ?].
  eapply StoreFacts.triple_bind; [apply preserves_call, HF | intros G].
  eapply StoreFacts.triple_bind; [apply preserves_observe | intros ?].
  eapply StoreFacts.triple_bind; [apply preserves_call, HF | intros p0].
  eapply StoreFacts.triple_bind; [apply allocates_clone | intros pi].
  apply StoreFacts.triple_pure. intros Hpi.
  eapply StoreFacts.triple_bind; [apply preserves_observe | intros ?].
  eapply StoreFacts.triple_bind; [apply preserves_load | intros x'].
  apply (StoreFacts.triple_bind _ _ _ (fun _ => held l v)).
  { eapply StoreFacts.triple_weaken.
    - apply (StoreFacts.triple_for_each
               (fun (vars : Store.loc * option Z) s => fst vars <> l /\ held l v s)).
      intros t u. apply iteration_preserves.
    - intros s Hs. split; [exact Hpi | exact Hs].
    - intros u s [_ Hs]. exact Hs. }
  intros vars.
  eapply StoreFacts.triple_bind; [apply final_check_preserves | intros adv].
  eapply StoreFacts.triple_bind; [apply postprocess_step_preserves | intros r].
  apply Hout.
Qed.

Lemma output_preserves adv : preserves l v (Store.output cfg adv).
Proof. unfold Store.output. destruct (clipping cfg); repeat frame_step. Qed.

Lemma output_allocates adv : clipping cfg = true -> allocates l v (Store.output cfg adv).
Proof.
  intros Hclip. unfold Store.output. rewrite Hclip.
  eapply StoreFacts.triple_bind; [apply preserves_load | intros u].
  apply allocates_alloc.
Qed.

End Frame.

(** X13: [perturb] writes to no tensor of the caller.  Whatever the
    collaborators do on the store, a tensor that is in the store when
    [perturb] is called and that no collaborator writes to holds the
    same value when the call has returned or raised; and with
    [clipping] set the tensor handed back is a new object, none of
    those. *)
Theorem perturb_writes_own_tensors_only {cost_t idx_t : Type}
    (F : Store.collaborators cost_t idx_t) (cfg : config)
    (lX : Store.loc) (y : labels) (s : Store.state) (l : Store.loc) (v : tensor) :
  Store.respects l F ->
  Store.cells s !! l = Some v ->
  Store.cells (snd (Store.perturb F cfg lX y s)) !! l = Some v /\
  (clipping cfg = true ->
   forall l', fst (Store.perturb F cfg lX y s) = Return l' -> l' <> l).
Proof.
  intros HF Hcell. split.
  - pose proof (perturb_preserves_with l v F cfg lX HF y (fun _ => held l v)
                  (output_preserves l v cfg) s Hcell) as Hend.
    destruct (Store.perturb F cfg lX y s) as [[l'|e] s']; exact Hend.
  - intros Hclip l' Hret.
    pose proof (perturb_preserves_with l v F cfg lX HF y
                  (fun l' s => l' <> l /\ held l v s)
                  (fun adv => output_allocates l v cfg adv Hclip) s Hcell) as Hend.
    destruct (Store.perturb F cfg lX y s) as [[l0|e] s']; [|discriminate].
    cbn in Hret. injection Hret as <-. exact (proj1 Hend).
Qed.

Lemma perturb_writes_own_tensors_only_witness :
  let c := Demo.cfg 2 (-1) true true in
  let r := Store.perturb Demo.F c 0 Demo.y Demo.start in
  Store.cells Demo.start !! 0%nat = Some Demo.X /\
  Store.cells (snd r) !! 0%nat = Some Demo.X /\
  fst r = Return 24%nat.
Proof.
  intros c r.
  assert (Hcell : Store.cells Demo.start !! 0%nat = Some Demo.X) by reflexivity.
  assert (Hret : fst r = Return 24%nat) by (vm_compute; reflexivity).
  destruct (perturb_writes_own_tensors_only Demo.F c 0%nat Demo.y Demo.start
              0%nat Demo.X (demo_collaborators_respect 0%nat) Hcell) as [Hkept Hnew].
  split; [exact Hcell|]. split; [exact Hkept | exact Hret].
Defined.

(** ** The two readings of the code *)

(** X14: the in-place updates and the clones of [perturb] add up to
    the functional reading.  With collaborators that compute their
    results from the tensors they are given and return them as new
    objects, [perturb] run on a store with [X] at [lX] ends as
    [perturb] on the value [X] does: both raise the same exception, or
    both return and the returned object holds the returned image; and
    the fields of [self] end the same. *)
Theorem in_place_run_agrees {cost_t idx_t : Type}
    (E : collaborators cost_t idx_t) (V : verdicts) (cfg : config)
    (lX : Store.loc) (X : tensor) (y : labels) (w : world) (s : Store.state) :
  Store.cells s !! lX = Some X ->
  Store.self s = self w ->
  Store.self (snd (Store.perturb (lift E V) cfg lX y s)) = self (snd (perturb E V cfg X y w)) /\
  match fst (perturb E V cfg X y w), fst (Store.perturb (lift E V) cfg lX y s) with
  | Return image, Return l =>
      Store.cells (snd (Store.perturb (lift E V) cfg lX y s)) !! l = Some image
  | Raise e, Raise e' => e = e'
  | _, _ => False
  end.
Proof.
  intros HX Hself.
  exact (store_perturb_refines E V cfg lX X y w s HX Hself).
Qed.

Lemma in_place_run_agrees_witness :
  let c := Demo.cfg 3 2 true true in
  let r := Store.perturb (lift Demo.E Demo.V) c 0 Demo.y Demo.start in
  let r' := perturb Demo.E Demo.V c Demo.X Demo.y Demo.fresh in
  (Store.cells Demo.start !! 0%nat = Some Demo.X /\
   Store.self Demo.start = self Demo.fresh) /\
  Store.self (snd r) = self (snd r') /\
  fst r = Raise (UnboundLocalError "num_iter").
Proof.
  intros c r r'.
  assert (HX : Store.cells Demo.start !! 0%nat = Some Demo.X) by reflexivity.
  assert (Hself : Store.self Demo.start = self Demo.fresh) by reflexivity.
  split; [split; assumption|].
  destruct (in_place_run_agrees Demo.E Demo.V c 0%nat Demo.X Demo.y Demo.fresh
              Demo.start HX Hself) as [Hs Ho].
  split; [exact Hs|].
  vm_compute. reflexivity.
Defined.

(** ** The attacker of the script *)

Lemma script_attacker_fields (args : options) (cfg : config) (a : attack) :
  script_attacker args = Return (cfg, a) ->
  clip_min cfg = 0%Q /\ clip_max cfg = 1%Q /\ clipping cfg = false /\
  verbose cfg = true /\
  nb_iter cfg = opt_nb_iter args /\
  capacity_proj_mod cfg = opt_capacity_proj_mod args /\
  postprocess cfg = opt_postprocess args.
Proof.
  unfold script_attacker, ProjectedGradient_init.
  destruct (WassersteinAttack_init _ _); [|discriminate].
  intros [= <- _]. cbn. repeat split.
Qed.

(** X15: the attacker the script builds (lines 186-201) has the
    clipping range [[0, 1]] with [clipping] off and [verbose] on,
    whatever the options.  Given that the base constructor keeps those
    arguments as passed, every [perturb] call of that attacker gives
    [predict] only images with entries in [[0, 1]], hands back the
    decode of its last coupling as it is, not clamped (the coupling
    the loop ended with, after the post-processing projection when
    that is on), and prints the progress line in the iterations 10,
    20, ... of a call that returns. *)
Theorem script_attacker_runs {cost_t idx_t : Type}
    (args : options) (cfg : config) (a : attack)
    (E : collaborators cost_t idx_t) (V : verdicts)
    (X : tensor) (y : labels) (w : world) :
  script_attacker args = Return (cfg, a) ->
  exists new,
    trace (snd (perturb E V cfg X y w)) = trace w ++ new /\
    Forall (within 0 1) (scored_images new) /\
    forall image, fst (perturb E V cfg X y w) = Return image ->
      image = coupling2adversarial E (last_coupling E cfg X y) X /\
      progress_lines new =
        map (fun k => (10 * (Z.of_nat k + 1))%Z) (seq 0 (opt_nb_iter args / 10)).
Proof.
  intros Hbuilt.
  destruct (script_attacker_fields args cfg a Hbuilt)
    as (Hmin & Hmax & Hclip & Hverb & Hn & _ & _).
  destruct (perturb_shape E cfg V X y w) as (new & Htrace & Hshape).
  exists new. split; [exact Htrace|]. split.
  { rewrite <- Hmin, <- Hmax. apply (scored_images_within E cfg X); [|exact Hshape].
    rewrite Hmin, Hmax. discriminate. }
  intros image Hret.
  destruct (perturb E V cfg X y w) as [o w'] eqn:Hrun. cbn [fst snd] in *. subst o.
  destruct (perturb_returned E V cfg X y w image w' Hrun)
    as (_ & _ & Himage & _ & Htrace').
  split.
  - destruct (perturb_history E V cfg X y w) as [Hout _].
    rewrite Hrun in Hout. cbn [fst] in Hout. unfold expected_outcome in Hout.
    destruct (loop_completed E cfg X y); [|discriminate].
    destruct (validated E cfg X y V); [|discriminate].
    injection Hout as ->. unfold returned_image. rewrite Hclip. reflexivity.
  - cbv zeta in Htrace'. rewrite Htrace in Htrace'. apply app_inv_head in Htrace'.
    subst new.
    rewrite !progress_lines_app, progress_lines_loop, filter_prints.
    assert (Hfinal : forall nz pi, progress_lines (final_events E V cfg X nz pi) = [])
      by reflexivity.
    assert (Hpost : forall G nz pi,
               progress_lines (postprocess_events E V cfg X G nz pi) = []).
    { intros G nz pi. unfold postprocess_events.
      destruct (postprocess cfg), (verbose cfg); reflexivity. }
    rewrite Hfinal, Hpost, !app_nil_r, Hverb, Hn. reflexivity.
Qed.

Lemma script_attacker_runs_witness :
  let args := Options 0.5%Q 3 0.1%Q 12 15 (Some 0.0001%Q) (Some 0.0001%Q) false 1 in
  let cfg := Sample.cfg 12 1 true in
  let r := perturb Sample.E Demo.V cfg Demo.X Demo.y Demo.fresh in
  script_attacker args = Return (cfg, Attack [] [] 0%Q 0 0) /\
  Forall (within 0 1) (scored_images (trace (snd r))) /\
  progress_lines (trace (snd r)) = [10%Z] /\
  Demo.returned r = coupling2adversarial Sample.E (last_coupling Sample.E cfg Demo.X Demo.y) Demo.X /\
  ~ within 0 1 (Demo.returned r).
Proof.
  intros args cfg r.
  assert (Hout : ~ within 0 1 (Demo.returned r)).
  { vm_compute. intros H. inversion H as [|? ? Hrow _].
    inversion Hrow as [|? ? [_ Hle] _]. apply Hle. reflexivity. }
  assert (Hrun : fst r = Return (Demo.returned r)) by (vm_compute; reflexivity).
  assert (Hbuilt : script_attacker args = Return (cfg, Attack [] [] 0%Q 0 0))
    by reflexivity.
  split; [exact Hbuilt|].
  destruct (script_attacker_runs args cfg _ Sample.E Demo.V Demo.X Demo.y Demo.fresh Hbuilt)
    as (new & Htrace & Himages & Hret).
  fold r in Htrace, Hret.
  change (trace Demo.fresh ++ new) with new in Htrace.
  rewrite Htrace.
  split; [exact Himages|].
  split; [exact (proj2 (Hret _ Hrun))|].
  split; [exact (proj1 (Hret _ Hrun)) | exact Hout].
Defined.

(** ** Reading the record of a run

    What the calls of one kind were given, read off the explicit
    description of the run. *)

Lemma flat_map_single {A B} (g : A -> B) l : flat_map (fun a => [g a]) l = map g l.
Proof. induction l as [|a l IH]; cbn; [reflexivity | rewrite IH; reflexivity]. Qed.

Lemma flat_map_nested {A B C} (f : B -> list C) (g : A -> list B) l :
  flat_map f (flat_map g l) = flat_map (fun a => flat_map f (g a)) l.
Proof.
  induction l as [|a l IH]; cbn [flat_map]; [reflexivity|].
  rewrite flat_map_app, IH. reflexivity.
Qed.

Lemma flat_map_repeat {A B} (f : A -> list B) (b : B) l :
  Forall (fun a => f a = [b]) l -> flat_map f l = repeat b (length l).
Proof.
  induction 1 as [|a l Ha _ IH]; cbn [flat_map length repeat]; [reflexivity|].
  rewrite Ha, IH. reflexivity.
Qed.

(** What is recorded up to the first violation is an initial part of
    what was planned. *)
Lemma until_failure_prefix evs : exists more, until_failure evs ++ more = evs.
Proof.
  induction evs as [|e evs [more IH]]; [exists []; reflexivity|].
  cbn [until_failure]. destruct (finding e).
  - exists more. cbn [app]. rewrite IH. reflexivity.
  - exists evs. reflexivity.
Qed.

Lemma recorded_prefix strict evs : exists more, recorded strict evs ++ more = evs.
Proof.
  unfold recorded. destruct strict; [apply until_failure_prefix|].
  exists []. apply app_nil_r.
Qed.

Lemma read_prefix {A} (f : event -> list A) evs evs' :
  (exists more, evs' ++ more = evs) ->
  exists more, flat_map f evs' ++ more = flat_map f evs.
Proof.
  intros [more <-]. exists (flat_map f more). rewrite flat_map_app. reflexivity.
Qed.

Lemma read_nothing {A} (f : event -> list A) evs evs' :
  (exists more, evs' ++ more = evs) -> flat_map f evs = [] -> flat_map f evs' = [].
Proof.
  intros Hpre Hnil. destruct (read_prefix f evs evs' Hpre) as [more Hmore].
  rewrite Hnil in Hmore. apply app_eq_nil in Hmore. tauto.
Qed.

Lemma Forall_prefix {A} (P : A -> Prop) l l' :
  (exists more, l' ++ more = l) -> Forall P l -> Forall P l'.
Proof. intros [more <-] H. apply Forall_app in H. tauto. Qed.

(** The first event of a plan is recorded whatever is found. *)
Lemma until_failure_head e evs :
  exists rest, until_failure (e :: evs) = e :: rest /\ exists more, rest ++ more = evs.
Proof.
  cbn [until_failure]. destruct (finding e).
  - exists (until_failure evs). split; [reflexivity | apply until_failure_prefix].
  - exists []. split; [reflexivity | exists evs; reflexivity].
Qed.

Section Reading.
Context {cost_t idx_t : Type}.
Variable E : collaborators cost_t idx_t.
Variable cfg : config.
Variable X : tensor.
Variable y : labels.
Variable V : verdicts.

Lemma completed_passes_le : (completed_passes E cfg X y <= nb_iter cfg)%nat.
Proof.
  unfold completed_passes. destruct (steady cfg); [|lia].
  apply passes_before_failure_le.
Qed.

Lemma loop_completed_passes :
  loop_completed E cfg X y = true -> completed_passes E cfg X y = nb_iter cfg.
Proof. unfold loop_completed. apply Nat.eqb_eq. Qed.

Lemma loop_stopped_passes :
  loop_completed E cfg X y = false -> (completed_passes E cfg X y < nb_iter cfg)%nat.
Proof.
  unfold loop_completed. intros H. apply Nat.eqb_neq in H.
  pose proof completed_passes_le. lia.
Qed.

Lemma started_passes_le : (started_passes E cfg X y <= nb_iter cfg)%nat.
Proof.
  unfold started_passes. destruct (loop_completed E cfg X y) eqn:Hdone; [lia|].
  apply loop_stopped_passes in Hdone. lia.
Qed.

Lemma started_passes_first : (1 <= nb_iter cfg)%nat -> (1 <= started_passes E cfg X y)%nat.
Proof. unfold started_passes. destruct (loop_completed E cfg X y); lia. Qed.

(** A pass gets to its checks only in a loop whose every pass projects. *)
Lemma completed_passes_steady :
  (0 < completed_passes E cfg X y)%nat -> steady cfg = true.
Proof. unfold completed_passes. destruct (steady cfg); [reflexivity | lia]. Qed.

(** The call returns exactly when the loop ran all of its passes and no
    check after it stopped the run. *)
Lemma returns_validated w image :
  fst (perturb E V cfg X y w) = Return image ->
  loop_completed E cfg X y = true /\ validated E cfg X y V = true /\
  image = returned_image E cfg X y.
Proof.
  destruct (perturb_history E V cfg X y w) as [Hout _]. rewrite Hout.
  unfold expected_outcome.
  destruct (loop_completed E cfg X y); [|discriminate].
  destruct (validated E cfg X y V); [|discriminate].
  intros [= <-]. auto.
Qed.

(** What a returned call has recorded. *)
Lemma returned_trace :
  loop_completed E cfg X y = true -> validated E cfg X y V = true ->
  expected_trace E cfg X y V =
    flat_map (pass_at E cfg X y V) (seq 0 (nb_iter cfg)) ++
    final_checks E cfg X y V ++ postprocess_pass E cfg X y V.
Proof.
  intros Hdone Hvalid. unfold expected_trace, closing. rewrite Hdone.
  rewrite (loop_completed_passes Hdone).
  unfold validated in Hvalid. apply andb_true_iff in Hvalid. destruct Hvalid as [Hf Hp].
  rewrite Hf, (recorded_accepted _ _ Hp). reflexivity.
Qed.

(** What is recorded after the loop is an initial part of the final
    checks followed by the post-processing. *)
Lemma closing_prefix :
  exists more,
    closing E cfg X y V ++ more = final_checks E cfg X y V ++ postprocess_pass E cfg X y V.
Proof.
  unfold closing. destruct (forallb finding (final_checks E cfg X y V)).
  - destruct (recorded_prefix (strict_postprocess V) (postprocess_pass E cfg X y V))
      as [more Hmore].
    exists more. rewrite <- app_assoc, Hmore. reflexivity.
  - destruct (until_failure_prefix (final_checks E cfg X y V)) as [more Hmore].
    exists (more ++ postprocess_pass E cfg X y V). rewrite app_assoc, Hmore. reflexivity.
Qed.

(** The whole record is an initial part of that of a run that goes
    through: all passes, the final checks, the post-processing. *)
Lemma expected_trace_prefix :
  exists more,
    expected_trace E cfg X y V ++ more =
      flat_map (pass_at E cfg X y V) (seq 0 (nb_iter cfg)) ++
      final_checks E cfg X y V ++ postprocess_pass E cfg X y V.
Proof.
  unfold expected_trace. destruct (loop_completed E cfg X y) eqn:Hdone.
  - rewrite (loop_completed_passes Hdone).
    destruct closing_prefix as [more Hmore].
    exists more. rewrite <- app_assoc, Hmore. reflexivity.
  - pose proof (loop_stopped_passes Hdone) as Hlt.
    set (n := completed_passes E cfg X y) in *.
    replace (nb_iter cfg) with (n + S (nb_iter cfg - S n))%nat by lia.
    rewrite seq_app, flat_map_app. cbn [seq flat_map Nat.add].
    unfold interrupted_pass. fold n.
    destruct (steady cfg) eqn:Hs.
    + exists (progress_line E cfg X y n ++
              checks_on V X (coupling_at E cfg X y (S n)) 0.000001 0.000001 0.001 false ++
              flat_map (pass_at E cfg X y V) (seq (S n) (nb_iter cfg - S n)) ++
              final_checks E cfg X y V ++ postprocess_pass E cfg X y V).
      rewrite <- !app_assoc. f_equal. unfold pass_at. rewrite <- !app_assoc. reflexivity.
    + exists (projection_call E cfg X y (coupling_at E cfg X y n) ::
              progress_line E cfg X y n ++
              checks_on V X (coupling_at E cfg X y (S n)) 0.000001 0.000001 0.001 false ++
              flat_map (pass_at E cfg X y V) (seq (S n) (nb_iter cfg - S n)) ++
              final_checks E cfg X y V ++ postprocess_pass E cfg X y V).
      rewrite <- !app_assoc. f_equal. unfold pass_at. rewrite <- !app_assoc. reflexivity.
Qed.

End Reading.

Section Readers.
Context {cost_t idx_t : Type}.
Variable E : collaborators cost_t idx_t.
Variable cfg : config.
Variable X : tensor.
Variable y : labels.
Variable V : verdicts.

Ltac read_pass :=
  unfold pass_at, interrupted_pass, projection_call, progress_line, final_checks,
    postprocess_pass, checks_on;
  repeat match goal with
         | |- context [if ?b then _ else _] => destruct b
         end;
  reflexivity.

(** *** The images scored *)

Lemma scored_pass t : scored_images (pass_at E cfg X y V t) = [scored_at E cfg X y t].
Proof. read_pass. Qed.

Lemma scored_interrupted :
  scored_images (interrupted_pass E cfg X y) =
    [scored_at E cfg X y (completed_passes E cfg X y)].
Proof. read_pass. Qed.

Lemma scored_after_loop :
  scored_images (final_checks E cfg X y V ++ postprocess_pass E cfg X y V) = [].
Proof. read_pass. Qed.

Lemma scored_run :
  scored_images (expected_trace E cfg X y V) =
    map (scored_at E cfg X y) (seq 0 (started_passes E cfg X y)).
Proof.
  unfold expected_trace, started_passes, scored_images.
  rewrite flat_map_app, flat_map_nested.
  rewrite (flat_map_ext _ (fun t => [scored_at E cfg X y t])) by (intros t; apply scored_pass).
  rewrite flat_map_single.
  destruct (loop_completed E cfg X y) eqn:Hdone.
  - rewrite (read_nothing _ _ _ (closing_prefix E cfg X y V) scored_after_loop).
    rewrite (loop_completed_passes E cfg X y Hdone). apply app_nil_r.
  - rewrite seq_S, List.map_app. f_equal. apply scored_interrupted.
Qed.

(** *** The couplings projected *)

Lemma inputs_pass t :
  projection_inputs (pass_at E cfg X y V t) =
    [stepped (lr cfg) (coupling_at E cfg X y t)
       (backward E (coupling_at E cfg X y t) X y)].
Proof. read_pass. Qed.

Lemma inputs_final : projection_inputs (final_checks E cfg X y V) = [].
Proof. read_pass. Qed.

Lemma inputs_postprocess :
  projection_inputs (postprocess_pass E cfg X y V) =
    if postprocess cfg then [coupling_at E cfg X y (nb_iter cfg)] else [].
Proof. read_pass. Qed.

(** The projection of the post-processing comes before its checks, so
    it is recorded whatever they find. *)
Lemma inputs_recorded strict :
  projection_inputs (recorded strict (postprocess_pass E cfg X y V)) =
    if postprocess cfg then [coupling_at E cfg X y (nb_iter cfg)] else [].
Proof.
  unfold recorded. destruct strict; [|apply inputs_postprocess].
  unfold postprocess_pass, checks_on, projection_inputs.
  destruct (postprocess cfg); [|reflexivity].
  destruct (verbose cfg); cbn [app until_failure finding flat_map];
    repeat match goal with
           | |- context [if ?b then _ else _] => destruct b; cbn [flat_map app]
           end;
    reflexivity.
Qed.

Lemma inputs_interrupted :
  projection_inputs (interrupted_pass E cfg X y) =
    if steady cfg
    then [stepped (lr cfg) (coupling_at E cfg X y (completed_passes E cfg X y))
            (backward E (coupling_at E cfg X y (completed_passes E cfg X y)) X y)]
    else [].
Proof. read_pass. Qed.

(** *** The budgets *)

Lemma budgets_pass t :
  projection_budgets (pass_at E cfg X y V t) = [(X, mass_budget cfg X)].
Proof. read_pass. Qed.

Lemma budgets_after_loop :
  projection_budgets (final_checks E cfg X y V ++ postprocess_pass E cfg X y V) =
    if postprocess cfg then [(X, mass_budget cfg X)] else [].
Proof. read_pass. Qed.

(** *** The tensors checked *)

Lemma subjects_checks pi tn tm tc verb :
  check_subjects (checks_on V X pi tn tm tc verb) =
    [normalized X pi; normalized X pi; normalized X X; normalized X pi].
Proof. reflexivity. Qed.

Lemma subjects_pass t :
  check_subjects (pass_at E cfg X y V t) =
    [normalized X (coupling_at E cfg X y (S t)); normalized X (coupling_at E cfg X y (S t));
     normalized X X; normalized X (coupling_at E cfg X y (S t))].
Proof. read_pass. Qed.

Lemma subjects_final :
  check_subjects (final_checks E cfg X y V) =
    [normalized X (coupling_at E cfg X y (nb_iter cfg));
     normalized X (coupling_at E cfg X y (nb_iter cfg));
     normalized X X; normalized X (coupling_at E cfg X y (nb_iter cfg))].
Proof. read_pass. Qed.

Lemma subjects_postprocess :
  check_subjects (postprocess_pass E cfg X y V) =
    if postprocess cfg
    then [normalized X (last_coupling E cfg X y); normalized X (last_coupling E cfg X y);
          normalized X X; normalized X (last_coupling E cfg X y)]
    else [].
Proof. read_pass. Qed.

End Readers.

(** ** Budget and normalization *)

Section Budget.
Context {cost_t idx_t : Type}.
Variable E : collaborators cost_t idx_t.
Variable cfg : config.
Variable X : tensor.
Variable y : labels.
Variable V : verdicts.

(** The couplings checked by a run that goes through: the one every
    pass ends with, then the last of them once more after the loop,
    then the one the post-processing makes. *)
Let checked : list tensor :=
  map (coupling_at E cfg X y) (seq 1 (nb_iter cfg)) ++
  coupling_at E cfg X y (nb_iter cfg) ::
  (if postprocess cfg then [last_coupling E cfg X y] else []).

Let quad (pi : tensor) : list tensor :=
  [normalized X pi; normalized X pi; normalized X X; normalized X pi].

Lemma subjects_through :
  check_subjects (flat_map (pass_at E cfg X y V) (seq 0 (nb_iter cfg)) ++
                  final_checks E cfg X y V ++ postprocess_pass E cfg X y V) =
    flat_map quad checked.
Proof.
  unfold check_subjects, checked.
  rewrite !flat_map_app, flat_map_nested.
  rewrite (flat_map_ext _ (fun t => quad (coupling_at E cfg X y (S t))))
    by (intros t; apply subjects_pass).
  rewrite <- seq_shift.
  assert (Hmap : forall l : list nat,
             flat_map (fun t => quad (coupling_at E cfg X y (S t))) l =
             flat_map quad (map (coupling_at E cfg X y) (map S l))).
  { induction l as [|t l IH]; [reflexivity|]. cbn [map flat_map]. rewrite IH. reflexivity. }
  rewrite Hmap. apply (f_equal (app _)).
  fold (check_subjects (final_checks E cfg X y V)).
  fold (check_subjects (postprocess_pass E cfg X y V)).
  rewrite subjects_final, subjects_postprocess.
  destruct (postprocess cfg); reflexivity.
Qed.

Lemma budgets_through :
  projection_budgets (flat_map (pass_at E cfg X y V) (seq 0 (nb_iter cfg)) ++
                      final_checks E cfg X y V ++ postprocess_pass E cfg X y V) =
    repeat (X, mass_budget cfg X)
           (nb_iter cfg + if postprocess cfg then 1 else 0).
Proof.
  unfold projection_budgets at 1. rewrite flat_map_app, flat_map_nested.
  rewrite (flat_map_repeat _ (X, mass_budget cfg X))
    by (apply List.Forall_forall; intros t _; apply budgets_pass).
  rewrite length_seq, repeat_app. f_equal.
  fold (projection_budgets (final_checks E cfg X y V ++ postprocess_pass E cfg X y V)).
  rewrite budgets_after_loop. destruct (postprocess cfg); reflexivity.
Qed.

End Budget.

(** C4: every call of [dual_projection] and of
    [dual_capacity_constrained_projection] that [perturb] makes on [X]
    is given [X] and, for every batch element, the budget [eps] times
    the sum of the entries of that element of [X]; a call that returns
    has made [nb_iter] of them in the loop, and one more with
    [postprocess].  The tensors given to the checks of the coupling
    are the coupling, and for the marginal also [X], with every entry
    of batch element [b] divided by the sum of the entries of [X[b]]:
    in order, those for the coupling every pass ends with, for the
    coupling the loop ends with, and for the one the post-processing
    makes; all of them when the call returns, an initial part of them
    otherwise. *)
Theorem budget_is_eps_times_total_mass {cost_t idx_t : Type}
    (E : collaborators cost_t idx_t) (V : verdicts) (cfg : config)
    (X : tensor) (y : labels) (w : world) :
  let mass := fun image : list Q => fold_right Qplus 0%Q image in
  let budget := map (fun image => eps cfg * mass image)%Q X in
  let over_mass := fun T : tensor =>
    zip_with (fun row image => map (fun v => v / mass image)%Q row) T X in
  let checks := fun pi => [over_mass pi; over_mass pi; over_mass X; over_mass pi] in
  let checked :=
    map (coupling_at E cfg X y) (seq 1 (nb_iter cfg)) ++
    coupling_at E cfg X y (nb_iter cfg) ::
    (if postprocess cfg then [last_coupling E cfg X y] else []) in
  exists new,
    trace (snd (perturb E V cfg X y w)) = trace w ++ new /\
    Forall (fun given => given = (X, budget)) (projection_budgets new) /\
    (exists more, check_subjects new ++ more = flat_map checks checked) /\
    (forall image, fst (perturb E V cfg X y w) = Return image ->
       projection_budgets new =
         repeat (X, budget) (nb_iter cfg + if postprocess cfg then 1 else 0) /\
       check_subjects new = flat_map checks checked).
Proof.
  intros mass budget over_mass checks checked.
  destruct (perturb_history E V cfg X y w) as [_ Htrace].
  exists (expected_trace E cfg X y V). split; [exact Htrace|].
  pose proof (expected_trace_prefix E cfg X y V) as Hprefix.
  split; [|split].
  - apply (Forall_prefix _ _ _ (read_prefix _ _ _ Hprefix)).
    fold (projection_budgets
            (flat_map (pass_at E cfg X y V) (seq 0 (nb_iter cfg)) ++
             final_checks E cfg X y V ++ postprocess_pass E cfg X y V)).
    rewrite budgets_through. apply List.Forall_forall. intros given Hin.
    apply repeat_spec in Hin. exact Hin.
  - destruct (read_prefix
                (fun e => match e with
                          | CheckNonnegativity T _ _ _ | CheckTransportCost T _ _ _ => [T]
                          | CheckMarginal T U _ _ _ => [T; U]
                          | _ => []
                          end) _ _ Hprefix) as [more Hmore].
    exists more. etransitivity; [exact Hmore|]. apply subjects_through.
  - intros image Hret.
    destruct (returns_validated E cfg X y V w image Hret) as (Hdone & Hvalid & _).
    rewrite (returned_trace E cfg X y V Hdone Hvalid).
    split; [apply budgets_through | apply subjects_through].
Qed.

Lemma budget_is_eps_times_total_mass_witness :
  let c := Demo.cfg 1 (-1) false true in
  let r := perturb Demo.E Demo.V c Demo.X Demo.y Demo.fresh in
  Demo.X = [[1; 0; 0.5]]%Q /\ eps c = 0.5%Q /\
  projection_budgets (trace (snd r)) =
    [(Demo.X, [0.5 * (1 + (0 + (0.5 + 0)))]%Q); (Demo.X, [0.5 * (1 + (0 + (0.5 + 0)))]%Q)] /\
  (0.5 * (1 + (0 + (0.5 + 0))) == 0.75)%Q /\
  map (fun given => map Qred (snd given)) (projection_budgets (trace (snd r)))
    = [[3 # 4]; [3 # 4]]%Q /\
  length (check_subjects (trace (snd r))) = 12%nat /\
  nth 2 (check_subjects (trace (snd r))) [] =
    [[1 / (1 + (0 + (0.5 + 0))); 0 / (1 + (0 + (0.5 + 0))); 0.5 / (1 + (0 + (0.5 + 0)))]]%Q.
Proof.
  intros c r.
  assert (Hret : fst r = Return (Demo.returned r)) by (vm_compute; reflexivity).
  assert (Hsum : (0.5 * (1 + (0 + (0.5 + 0))) == 0.75)%Q) by reflexivity.
  assert (Hrun : map (fun given => map Qred (snd given))
                     (projection_budgets (trace (snd r))) = [[3 # 4]; [3 # 4]]%Q)
    by (vm_compute; reflexivity).
  split; [reflexivity|]. split; [reflexivity|].
  destruct (budget_is_eps_times_total_mass Demo.E Demo.V c Demo.X Demo.y Demo.fresh)
    as (new & Htrace & _ & _ & Hreturned).
  fold r in Htrace, Hreturned. change (trace Demo.fresh ++ new) with new in Htrace.
  destruct (Hreturned _ Hret) as [Hbudgets Hsubjects].
  rewrite Htrace in Hrun. rewrite Htrace, Hbudgets, Hsubjects.
  split; [reflexivity|]. split; [exact Hsum|]. split; [|split; reflexivity].
  rewrite <- Hbudgets. exact Hrun.
Defined.

(** ** Which image is clamped *)

Section Clamping.
Context {cost_t idx_t : Type}.
Variable E : collaborators cost_t idx_t.
Variable cfg : config.
Variable X : tensor.
Variable y : labels.
Variable V : verdicts.

(** The check of the decode that follows the loop is recorded whatever
    it finds; the one of the post-processing when the final checks
    found nothing. *)
Lemma hypercube_run :
  hypercube_checks (expected_trace E cfg X y V) =
    if loop_completed E cfg X y
    then (coupling2adversarial E (coupling_at E cfg X y (nb_iter cfg)) X, None) ::
         (if forallb finding (final_checks E cfg X y V) && postprocess cfg
          then [(coupling2adversarial E (last_coupling E cfg X y) X,
                 Some (eps cfg * 0.05)%Q)]
          else [])
    else [].
Proof.
  unfold expected_trace, hypercube_checks.
  rewrite flat_map_app, flat_map_nested.
  rewrite (flat_map_ext _ (fun _ => [])).
  2:{ intros t. unfold pass_at, projection_call, progress_line.
      destruct (_ =? -1)%Z, (line_due cfg t); reflexivity. }
  assert (Hnil : forall l : list nat, flat_map (fun _ => @nil (tensor * option Q)) l = []).
  { induction l; [reflexivity | assumption]. }
  rewrite Hnil. cbn [app].
  destruct (loop_completed E cfg X y).
  2:{ unfold interrupted_pass. destruct (steady cfg); [|reflexivity].
      unfold projection_call. destruct (_ =? -1)%Z; reflexivity. }
  unfold closing.
  destruct (forallb finding (final_checks E cfg X y V)) eqn:Hfinal.
  - rewrite flat_map_app. unfold final_checks at 1. cbn [flat_map checks_on app andb].
    f_equal. unfold recorded, postprocess_pass, checks_on.
    destruct (postprocess cfg); [|destruct (strict_postprocess V); reflexivity].
    destruct (strict_postprocess V), (verbose cfg);
      cbn [app until_failure finding flat_map];
      repeat match goal with
             | |- context [if ?b then _ else _] => destruct b; cbn [flat_map app]
             end;
      reflexivity.
  - cbn [andb]. unfold final_checks, checks_on in *.
    cbn [until_failure finding flat_map app].
    repeat match goal with
           | |- context [if ?b then _ else _] => destruct b; cbn [flat_map app]
           end;
      reflexivity.
Qed.

(** Nothing of what is recorded reads the [clipping] flag. *)
Lemma expected_trace_clipping b :
  expected_trace E (set_clipping b cfg) X y V = expected_trace E cfg X y V.
Proof. destruct cfg. reflexivity. Qed.

End Clamping.

(** C6: the images [perturb] gives to [predict] are, in order, the
    decodes of the couplings the passes start from, each with every
    entry raised to [clip_min] when below and then lowered to
    [clip_max] when above: one image for every pass that started, so
    at least one when [nb_iter >= 1], and [nb_iter] of them when the
    call returns.  What [perturb] records is the same whichever way
    the [clipping] flag is set.  The [check_hypercube] that follows the
    loop is given the decode of the loop's last coupling as it is, not
    clamped, with no tolerance of its own. *)
Theorem predict_sees_clamped_decode {cost_t idx_t : Type}
    (E : collaborators cost_t idx_t) (V : verdicts) (cfg : config)
    (X : tensor) (y : labels) (w : world) :
  let clamp := fun T : tensor =>
    map (map (fun v => Qmin (Qmax v (clip_min cfg)) (clip_max cfg))) T in
  let decode := fun t => coupling2adversarial E (coupling_at E cfg X y t) X in
  let passes := started_passes E cfg X y in
  (passes <= nb_iter cfg)%nat /\
  ((1 <= nb_iter cfg)%nat -> (1 <= passes)%nat) /\
  (forall image, fst (perturb E V cfg X y w) = Return image -> passes = nb_iter cfg) /\
  (exists new,
     trace (snd (perturb E V cfg X y w)) = trace w ++ new /\
     scored_images new = map (fun t => clamp (decode t)) (seq 0 passes) /\
     hypercube_checks new =
       if loop_completed E cfg X y
       then (decode (nb_iter cfg), None) ::
            (if forallb finding (final_checks E cfg X y V) && postprocess cfg
             then [(coupling2adversarial E (last_coupling E cfg X y) X,
                    Some (eps cfg * 0.05)%Q)]
             else [])
       else []) /\
  (forall b : bool,
     trace (snd (perturb E V (set_clipping b cfg) X y w)) =
     trace (snd (perturb E V cfg X y w))).
Proof.
  intros clamp decode passes.
  split; [apply started_passes_le|].
  split; [apply started_passes_first|].
  split.
  { intros image Hret.
    destruct (returns_validated E cfg X y V w image Hret) as (Hdone & _ & _).
    unfold passes, started_passes. rewrite Hdone. reflexivity. }
  split.
  - destruct (perturb_history E V cfg X y w) as [_ Htrace].
    exists (expected_trace E cfg X y V). split; [exact Htrace|].
    split; [apply scored_run | apply hypercube_run].
  - intros b.
    destruct (perturb_history E V cfg X y w) as [_ ->].
    destruct (perturb_history E V (set_clipping b cfg) X y w) as [_ ->].
    rewrite expected_trace_clipping. reflexivity.
Qed.

Lemma predict_sees_clamped_decode_witness :
  let c := Demo.cfg 1 (-1) false false in
  let r := perturb Demo.E Demo.V c Demo.X Demo.y Demo.fresh in
  coupling2adversarial Demo.E (coupling_at Demo.E c Demo.X Demo.y 0) Demo.X
    = [[3 * 1; 3 * 0; 3 * 0.5]]%Q /\
  scored_images (trace (snd r)) = [[[1; 0; 1]]]%Q /\
  map (map (map Qred)) (scored_images (trace (snd r))) = [[[1; 0; 1]]]%Q /\
  map (fun p => map (map Qred) (fst p)) (hypercube_checks (trace (snd r)))
    = [[[330000003 # 100000001; 0; 330000003 # 200000002]]]%Q.
Proof.
  intros c r.
  assert (Hdecode : coupling2adversarial Demo.E (coupling_at Demo.E c Demo.X Demo.y 0) Demo.X
                    = [[3 * 1; 3 * 0; 3 * 0.5]]%Q) by reflexivity.
  assert (Hpasses : started_passes Demo.E c Demo.X Demo.y = 1%nat)
    by (vm_compute; reflexivity).
  assert (Hclamp : map (map (fun v => Qmin (Qmax v 0) 1)) [[3 * 1; 3 * 0; 3 * 0.5]]%Q
                   = [[1; 0; 1]]%Q) by (vm_compute; reflexivity).
  assert (Hcube : map (fun p => map (map Qred) (fst p)) (hypercube_checks (trace (snd r)))
                  = [[[330000003 # 100000001; 0; 330000003 # 200000002]]]%Q)
    by (vm_compute; reflexivity).
  assert (Hrun : map (map (map Qred)) (scored_images (trace (snd r))) = [[[1; 0; 1]]]%Q)
    by (vm_compute; reflexivity).
  split; [exact Hdecode|]. split; [|split; [exact Hrun | exact Hcube]].
  destruct (predict_sees_clamped_decode Demo.E Demo.V c Demo.X Demo.y Demo.fresh)
    as (_ & _ & _ & (new & Htrace & Hscored & _) & _).
  fold r in Htrace. change (trace Demo.fresh ++ new) with new in Htrace.
  rewrite Htrace, Hscored, Hpasses. cbn [seq map].
  rewrite Hdecode. exact (f_equal (fun T => [T]) Hclamp).
Defined.

(** ** The returned image *)

(** C7: [perturb] hands back the decode of its last coupling: the
    coupling the loop ended with or, with [postprocess], what one
    more capacity-constrained projection makes of it, given the budget
    [eps] times the total mass of every batch element.  Every entry of
    the decode is brought into [[clip_min, clip_max]] when [clipping]
    is set, and the decode is handed back as it is otherwise.  The
    call returns exactly when the loop ran all of its passes and no
    check after it stopped the run; a check that does so makes the
    call fail.  The projection of the post-processing is recorded
    after the final checks. *)
Theorem perturb_returns_decode {cost_t idx_t : Type}
    (E : collaborators cost_t idx_t) (V : verdicts) (cfg : config)
    (X : tensor) (y : labels) (w : world) :
  let G := initialize_cost E X (inf cfg) in
  let budget := map (fun image => eps cfg * fold_right Qplus 0 image)%Q X in
  let ended := coupling_at E cfg X y (nb_iter cfg) in
  let last :=
    if postprocess cfg
    then dual_capacity_constrained_projection E ended X (cost G) budget
           (forward_idx G) (backward_idx G) (coupling2adversarial E)
    else ended in
  let decode := coupling2adversarial E last X in
  let handed_back :=
    if clipping cfg
    then map (map (fun v => Qmin (Qmax v (clip_min cfg)) (clip_max cfg))) decode
    else decode in
  (forall image, fst (perturb E V cfg X y w) = Return image -> image = handed_back) /\
  (fst (perturb E V cfg X y w) = Return handed_back <->
   loop_completed E cfg X y = true /\ validated E cfg X y V = true) /\
  (loop_completed E cfg X y = true -> validated E cfg X y V = false ->
   fst (perturb E V cfg X y w) = Raise ConstraintViolation) /\
  (forall image, fst (perturb E V cfg X y w) = Return image ->
   trace (snd (perturb E V cfg X y w)) =
     trace w ++ flat_map (pass_at E cfg X y V) (seq 0 (nb_iter cfg)) ++
     final_checks E cfg X y V ++
     if postprocess cfg
     then (if verbose cfg then [PrintPostprocess] else []) ++
          CallCapacityProjection ended X budget ::
          CheckHypercube decode (Some (eps cfg * 0.05)%Q) (verbose cfg)
            (hypercube_ok V decode (Some (eps cfg * 0.05)%Q)) ::
          checks_on V X last 0.000001 0.000001 (eps cfg * 0.001) (verbose cfg)
     else []).
Proof.
  intros G budget ended last decode handed_back.
  destruct (perturb_history E V cfg X y w) as [Hout Htrace].
  assert (Hback : returned_image E cfg X y = handed_back) by reflexivity.
  split; [|split; [|split]].
  - intros image Hret.
    destruct (returns_validated E cfg X y V w image Hret) as (_ & _ & ->). exact Hback.
  - split.
    + intros Hret.
      destruct (returns_validated E cfg X y V w _ Hret) as (Hdone & Hvalid & _). auto.
    + intros [Hdone Hvalid]. rewrite Hout. unfold expected_outcome.
      rewrite Hdone, Hvalid, Hback. reflexivity.
  - intros Hdone Hvalid. rewrite Hout. unfold expected_outcome.
    rewrite Hdone, Hvalid. reflexivity.
  - intros image Hret.
    destruct (returns_validated E cfg X y V w image Hret) as (Hdone & Hvalid & _).
    rewrite Htrace, (returned_trace E cfg X y V Hdone Hvalid). reflexivity.
Qed.

Lemma perturb_returns_decode_witness :
  let clipped := perturb Demo.E Demo.V (Demo.cfg 1 (-1) true true) Demo.X Demo.y Demo.fresh in
  let plain := perturb Demo.E Demo.V (Demo.cfg 1 (-1) false true) Demo.X Demo.y Demo.fresh in
  let failed :=
    perturb Demo.E Demo.V_fail (Demo.cfg 1 (-1) false true) Demo.X Demo.y Demo.fresh in
  map (map Qred) (Demo.returned plain)
    = [[330000003 # 100000001; 0; 330000003 # 200000002]]%Q /\
  map (map Qred) (Demo.returned clipped) = [[1; 0; 1]]%Q /\
  Demo.returned clipped =
    map (map (fun v => Qmin (Qmax v 0) 1)) (Demo.returned plain) /\
  fst failed = Raise ConstraintViolation.
Proof.
  intros clipped plain failed.
  assert (Hplain : map (map Qred) (Demo.returned plain)
                   = [[330000003 # 100000001; 0; 330000003 # 200000002]]%Q)
    by (vm_compute; reflexivity).
  assert (Hclipped : map (map Qred) (Demo.returned clipped) = [[1; 0; 1]]%Q)
    by (vm_compute; reflexivity).
  assert (Hr1 : fst clipped = Return (Demo.returned clipped)) by (vm_compute; reflexivity).
  assert (Hr2 : fst plain = Return (Demo.returned plain)) by (vm_compute; reflexivity).
  assert (Hdone : loop_completed Demo.E (Demo.cfg 1 (-1) false true) Demo.X Demo.y = true)
    by (vm_compute; reflexivity).
  assert (Hfail : validated Demo.E (Demo.cfg 1 (-1) false true) Demo.X Demo.y Demo.V_fail
                  = false) by (vm_compute; reflexivity).
  split; [exact Hplain|]. split; [exact Hclipped|]. split.
  - destruct (perturb_returns_decode Demo.E Demo.V (Demo.cfg 1 (-1) true true)
                Demo.X Demo.y Demo.fresh) as (H1 & _).
    destruct (perturb_returns_decode Demo.E Demo.V (Demo.cfg 1 (-1) false true)
                Demo.X Demo.y Demo.fresh) as (H2 & _).
    rewrite (H1 _ Hr1), (H2 _ Hr2). reflexivity.
  - destruct (perturb_returns_decode Demo.E Demo.V_fail (Demo.cfg 1 (-1) false true)
                Demo.X Demo.y Demo.fresh) as (_ & _ & H3 & _).
    exact (H3 Hdone Hfail).
Defined.

(** ** The ascent step *)

Section Ascent.
Context {cost_t idx_t : Type}.
Variable E : collaborators cost_t idx_t.
Variable cfg : config.
Variable X : tensor.
Variable y : labels.
Variable V : verdicts.

Let moved (t : nat) : tensor :=
  stepped (lr cfg) (coupling_at E cfg X y t) (backward E (coupling_at E cfg X y t) X y).

(** The couplings given to the projections: what the ascent step makes
    of the coupling of every pass that gets to its projection, then
    the coupling the loop ended with when the post-processing is
    reached. *)
Lemma inputs_run :
  projection_inputs (expected_trace E cfg X y V) =
    map moved (seq 0 (if steady cfg then started_passes E cfg X y else 0%nat)) ++
    (if loop_completed E cfg X y && forallb finding (final_checks E cfg X y V) &&
        postprocess cfg
     then [coupling_at E cfg X y (nb_iter cfg)] else []).
Proof.
  unfold expected_trace, started_passes, projection_inputs.
  rewrite flat_map_app, flat_map_nested.
  rewrite (flat_map_ext _ (fun t => [moved t])) by (intros t; apply inputs_pass).
  rewrite flat_map_single.
  destruct (loop_completed E cfg X y) eqn:Hdone; cbn [andb].
  - assert (Hpasses : (if steady cfg then nb_iter cfg else 0%nat) = completed_passes E cfg X y).
    { rewrite (loop_completed_passes E cfg X y Hdone).
      pose proof (loop_completed_passes E cfg X y Hdone) as Hn.
      unfold completed_passes in Hn. destruct (steady cfg); [reflexivity | exact Hn]. }
    rewrite Hpasses. f_equal. unfold closing.
    destruct (forallb finding (final_checks E cfg X y V)); cbn [andb].
    + rewrite flat_map_app.
      fold (projection_inputs (final_checks E cfg X y V)).
      fold (projection_inputs (recorded (strict_postprocess V) (postprocess_pass E cfg X y V))).
      rewrite inputs_final, inputs_recorded. reflexivity.
    + apply (read_nothing _ _ _ (until_failure_prefix _)). apply inputs_final.
  - rewrite app_nil_r.
    fold (projection_inputs (interrupted_pass E cfg X y)). rewrite inputs_interrupted.
    destruct (steady cfg) eqn:Hs.
    + rewrite seq_S, List.map_app. reflexivity.
    + unfold completed_passes. rewrite Hs. reflexivity.
Qed.

End Ascent.

(** C5: in every pass of the loop the gradient of the coupling is
    divided, batch element by batch element, by the largest absolute
    value of its entries plus 1e-8, and [lr] times the quotient is
    added to the coupling: the step of lines 77-78 returns for every
    coupling, and the couplings [perturb] gives to the projections of
    the loop are, in order, exactly the couplings so stepped, one for
    every pass with a projection ([nb_iter] of them when the call
    returns).  The divisor is positive, and equal to 1e-8 when the
    gradient is zero.  ([tensor_norm] with [p='inf'] is taken to be
    the largest absolute value of each batch element.) *)
Theorem ascent_step_normalized {cost_t idx_t : Type}
    (E : collaborators cost_t idx_t) (V : verdicts) (cfg : config)
    (X : tensor) (y : labels) (w : world) :
  let norm := fun grow : list Q => fold_right (fun v m => Qmax (Qabs v) m) 0%Q grow in
  let step := fun pi grad : tensor =>
    zip_with
      (fun prow grow =>
         zip_with (fun p g => p + lr cfg * (g / (norm grow + 0.00000001)))%Q prow grow)
      pi grad in
  let moved := fun t =>
    step (coupling_at E cfg X y t) (backward E (coupling_at E cfg X y t) X y) in
  let passes := if steady cfg then started_passes E cfg X y else 0%nat in
  (forall grow,
     (0 < norm grow + 0.00000001)%Q /\
     (Forall (fun g => g == 0)%Q grow -> (norm grow + 0.00000001 == 0.00000001)%Q)) /\
  (forall pi w0, exists loss sc,
     fst (gradient_step E cfg X y pi w0) = Return (step pi (backward E pi X y), loss, sc)) /\
  (steady cfg = true -> (1 <= nb_iter cfg)%nat -> (1 <= passes)%nat) /\
  (forall image, fst (perturb E V cfg X y w) = Return image -> passes = nb_iter cfg) /\
  exists new,
    trace (snd (perturb E V cfg X y w)) = trace w ++ new /\
    projection_inputs new =
      map moved (seq 0 passes) ++
      (if loop_completed E cfg X y && forallb finding (final_checks E cfg X y V) &&
          postprocess cfg
       then [coupling_at E cfg X y (nb_iter cfg)] else []).
Proof.
  intros norm step moved passes.
  split; [|split; [|split; [|split]]].
  - intros grow. pose proof (linf_nonneg grow) as Hnorm.
    change (Tensor.linf grow) with (norm grow) in Hnorm. split; [lra|].
    intros Hzero. pose proof (linf_zero grow Hzero) as Hz.
    change (Tensor.linf grow) with (norm grow) in Hz. rewrite Hz. reflexivity.
  - intros pi w0. rewrite gradient_step_run. cbn [fst].
    rewrite ascent_stepped. eexists _, _. reflexivity.
  - intros Hs Hn. unfold passes. rewrite Hs. apply started_passes_first, Hn.
  - intros image Hret.
    destruct (returns_validated E cfg X y V w image Hret) as (Hdone & _ & _).
    unfold passes, started_passes. rewrite Hdone.
    apply loop_completed_passes in Hdone. unfold completed_passes in Hdone.
    destruct (steady cfg); [reflexivity | exact Hdone].
  - destruct (perturb_history E V cfg X y w) as [_ Htrace].
    exists (expected_trace E cfg X y V). split; [exact Htrace | apply inputs_run].
Qed.

Lemma ascent_step_normalized_witness :
  let c := Demo.cfg 1 (-1) false false in
  let r := perturb Demo.E Demo.V c Demo.X Demo.y Demo.fresh in
  coupling_at Demo.E c Demo.X Demo.y 0 = [[1; 0; 0.5]]%Q /\
  backward Demo.E [[1; 0; 0.5]]%Q Demo.X Demo.y = [[1; 0; 0.5]]%Q /\
  lr c = 0.1%Q /\
  projection_inputs (trace (snd r)) =
    [[[1 + 0.1 * (1 / (1 + 0.00000001));
       0 + 0.1 * (0 / (1 + 0.00000001));
       0.5 + 0.1 * (0.5 / (1 + 0.00000001))]]]%Q /\
  map (map (map Qred)) (projection_inputs (trace (snd r))) =
    [[[110000001 # 100000001; 0; 110000001 # 200000002]]]%Q /\
  (fold_right (fun v m => Qmax (Qabs v) m) 0 [0; 0; 0] + 0.00000001 == 0.00000001)%Q.
Proof.
  intros c r.
  assert (Hpasses : (if steady c then started_passes Demo.E c Demo.X Demo.y else 0%nat)
                    = 1%nat) by (vm_compute; reflexivity).
  assert (Hdone : loop_completed Demo.E c Demo.X Demo.y = true) by (vm_compute; reflexivity).
  assert (Hrun : map (map (map Qred)) (projection_inputs (trace (snd r))) =
                 [[[110000001 # 100000001; 0; 110000001 # 200000002]]]%Q)
    by (vm_compute; reflexivity).
  destruct (ascent_step_normalized Demo.E Demo.V c Demo.X Demo.y Demo.fresh)
    as (Hdivisor & _ & _ & _ & new & Htrace & Hinputs).
  fold r in Htrace. change (trace Demo.fresh ++ new) with new in Htrace.
  split; [reflexivity|]. split; [reflexivity|]. split; [reflexivity|].
  split; [|split; [exact Hrun|]].
  - rewrite Htrace, Hinputs, Hpasses, Hdone. cbn [postprocess c Demo.cfg andb app].
    rewrite andb_false_r. reflexivity.
  - apply (Hdivisor [0; 0; 0]%Q). repeat constructor.
Defined.

(** ** The constraint checks *)



